(** * A shallow embedding of [script.js]

    The script wires three independent controllers to a page: a modal
    dialog with a focus trap, a contact form validated on blur and on
    submit, and a table sorted by clicking column headers.  Each
    controller is embedded below in a module of its own, after a module
    for the JavaScript string and number primitives they share. *)

From Stdlib Require Import ZArith NArith QArith Lia.
From Stdlib Require Import Sorting.Sorted Sorting.Permutation.
From stdpp Require Import gmap strings list sorting.

Local Open Scope Z_scope.

(** ** JavaScript primitives *)

Module JS.

(** A JavaScript string is a sequence of UTF-16 code units. *)
Abbreviation jsstring := (list N).

(** An ASCII literal of the source as a JavaScript string. *)
Definition js (s : string) : jsstring :=
  map Ascii.N_of_ascii (String.list_ascii_of_string s).
Arguments js : simpl never.

(** What a statement leaves behind: it completes with a value, or throws
    a [TypeError] (a property read on [null] or [undefined]). *)
Inductive completion (A : Type) : Type :=
  | Normal (a : A)
  | Throw.
Arguments Normal {A} a.
Arguments Throw {A}.

(** [WhiteSpace] and [LineTerminator] of ECMAScript: the code units that
    [String.prototype.trim], [parseFloat], [parseInt] and the regular
    expression class [\s] all strip or match. *)
Definition isWhiteSpace (c : N) : bool :=
  ((c =? 9) || (c =? 10) || (c =? 11) || (c =? 12) || (c =? 13)
   || (c =? 32) || (c =? 160) || (c =? 5760)
   || ((8192 <=? c) && (c <=? 8202))
   || (c =? 8232) || (c =? 8233) || (c =? 8239) || (c =? 8287)
   || (c =? 12288) || (c =? 65279))%N.

Fixpoint trimStart (s : jsstring) : jsstring :=
  match s with
  | c :: r => if isWhiteSpace c then trimStart r else s
  | [] => []
  end.

Definition trimEnd (s : jsstring) : jsstring := rev (trimStart (rev s)).

(** [s.trim()] *)
Definition trim (s : jsstring) : jsstring := trimEnd (trimStart s).

(** A string with no white space at either end. *)
Definition trimmed (s : jsstring) : bool :=
  match s with
  | [] => true
  | c :: _ => negb (isWhiteSpace c) && negb (isWhiteSpace (List.last s 0%N))
  end.

(** [!s] on a string: only the empty string is falsy. *)
Definition falsy (s : jsstring) : bool :=
  match s with [] => true | _ => false end.

(** *** Regular expressions

    The one pattern of the script uses character classes, concatenation
    and [+] between [^] and [$]; [RegExp.prototype.test] then asks
    whether the whole string is in the language, which derivatives
    decide. *)
Inductive regex : Type :=
  | Void
  | Eps
  | Class (p : N -> bool)
  | Cat (r s : regex)
  | Alt (r s : regex)
  | Star (r : regex).

Definition Plus (r : regex) : regex := Cat r (Star r).

Fixpoint nullable (r : regex) : bool :=
  match r with
  | Void => false
  | Eps => true
  | Class _ => false
  | Cat r s => nullable r && nullable s
  | Alt r s => nullable r || nullable s
  | Star _ => true
  end.

Fixpoint deriv (c : N) (r : regex) : regex :=
  match r with
  | Void => Void
  | Eps => Void
  | Class p => if p c then Eps else Void
  | Cat r s =>
      if nullable r then Alt (Cat (deriv c r) s) (deriv c s)
      else Cat (deriv c r) s
  | Alt r s => Alt (deriv c r) (deriv c s)
  | Star r => Cat (deriv c r) (Star r)
  end.

(** [/^r$/.test(s)] *)
Definition test (r : regex) (s : jsstring) : bool :=
  nullable (fold_left (fun r c => deriv c r) s r).

(** The language of a regular expression: the strings it matches from
    end to end. *)
Inductive matches : regex -> jsstring -> Prop :=
  | matches_eps : matches Eps []
  | matches_class p c : p c = true -> matches (Class p) [c]
  | matches_cat r s u v :
      matches r u -> matches s v -> matches (Cat r s) (u ++ v)
  | matches_alt_l r s u : matches r u -> matches (Alt r s) u
  | matches_alt_r r s u : matches s u -> matches (Alt r s) u
  | matches_star_nil r : matches (Star r) []
  | matches_star_cons r u v :
      matches r u -> matches (Star r) v -> matches (Star r) (u ++ v).

(** *** Numbers

    The values a [Number] takes in the script.  A finite value is a
    binary64 number, kept as the rational it is equal to, in lowest
    terms; what [parseFloat] reads and what a subtraction gives is
    rounded to the nearest binary64 number, ties to even, and overflows
    to an infinity.  Negative zero is not told apart from zero, which
    no operation of the script can observe. *)
Inductive number : Type :=
  | NaN
  | Inf (negative : bool)
  | Fin (q : Q).

Definition isNaN (x : number) : bool :=
  match x with NaN => true | _ => false end.

(** [m * 2^e] *)
Definition scale2 (m e : Z) : Q :=
  if 0 <=? e then inject_Z (m * 2 ^ e) else Qmake m (Z.to_pos (2 ^ (- e))).

(** The integer nearest to [a / b], the even one of two that are
    equally near ([0 <= a], [0 < b]). *)
Definition roundHalfEven (a b : Z) : Z :=
  let q := a / b in
  match 2 * (a mod b) ?= b with
  | Lt => q
  | Gt => q + 1
  | Eq => if Z.even q then q else q + 1
  end.

(** The binade of [n / d]: the integer part of its binary logarithm
    ([0 < n], [0 < d]).  The logarithms of [n] and [d] give it within
    one. *)
Definition binade (n d : Z) : Z :=
  let k := Z.log2 n - Z.log2 d in
  if (if 0 <=? k then d * 2 ^ k <=? n else d <=? n * 2 ^ (- k))
  then k else k - 1.

(** The Number value for a rational: the nearest number with a
    significand of 53 bits at the exponent of the binade, and of fewer
    bits below the least normal exponent, where the numbers are
    [2^(-1074)] apart; from [2^1024] on, an infinity. *)
Definition roundBinary64 (q : Q) : number :=
  let n := Z.abs (Qnum q) in
  let d := Z.pos (Qden q) in
  if n =? 0 then Fin 0
  else
    let e := Z.max (binade n d - 52) (-1074) in
    let m := if 0 <=? e then roundHalfEven n (d * 2 ^ e)
             else roundHalfEven (n * 2 ^ (- e)) d in
    if 2 ^ 1024 <=? m * 2 ^ e then Inf (Qnum q <? 0)
    else Fin (Qred (scale2 (if Qnum q <? 0 then - m else m) e)).

(** [x - y] *)
Definition sub (x y : number) : number :=
  match x, y with
  | NaN, _ | _, NaN => NaN
  | Fin a, Fin b => roundBinary64 (a - b)
  | Fin _, Inf n => Inf (negb n)
  | Inf n, Fin _ => Inf n
  | Inf n, Inf m => if Bool.eqb n m then NaN else Inf n
  end.

(** The sign of a number, as [Array.prototype.sort] reads the result of
    its comparator: [NaN] counts as zero. *)
Definition sign (x : number) : comparison :=
  match x with
  | NaN => Eq
  | Inf true => Lt
  | Inf false => Gt
  | Fin q => (q ?= 0)%Q
  end.

Definition isDigit (c : N) : bool := ((48 <=? c) && (c <=? 57))%N.

(** The longest prefix of decimal digits, and what follows it. *)
Fixpoint spanDigits (s : jsstring) : jsstring * jsstring :=
  match s with
  | c :: r =>
      if isDigit c then let '(ds, rest) := spanDigits r in (c :: ds, rest)
      else ([], s)
  | [] => ([], [])
  end.

Definition digitsValue (ds : jsstring) : Z :=
  fold_left (fun a d => 10 * a + (Z.of_N d - 48)) ds 0.

Definition isPrefix (p s : jsstring) : bool :=
  bool_decide (take (length p) s = p).

(** A sign, if the string starts with one, and the rest. *)
Definition spanSign (s : jsstring) : bool * jsstring :=
  match s with
  | c :: r =>
      if (c =? 43)%N then (false, r)
      else if (c =? 45)%N then (true, r)
      else (false, s)
  | [] => (false, s)
  end.

(** [ExponentPart]: [e] or [E], an optional sign and at least one digit.
    The exponent read and what follows it; zero and the whole string
    when the string does not start with an exponent part. *)
Definition exponentPart (s : jsstring) : Z * jsstring :=
  match s with
  | c :: r =>
      if ((c =? 101) || (c =? 69))%N then
        let '(neg, r') := spanSign r in
        let '(ds, rest) := spanDigits r' in
        match ds with
        | [] => (0, s)
        | _ => (if neg then - digitsValue ds else digitsValue ds, rest)
        end
      else (0, s)
  | [] => (0, [])
  end.

(** [m * 10^e] *)
Definition scale10 (m e : Z) : Q :=
  if 0 <=? e then inject_Z (m * 10 ^ e)
  else Qmake m (Z.to_pos (10 ^ (- e))).

(** The longest prefix of a string that is a [StrDecimalLiteral]: its
    value and what follows it, or [None] when no prefix is one.  The
    literal is a sign, then [Infinity], or digits with an optional
    fraction and exponent, or a fraction that starts with the dot; its
    value is the Number value for the decimal it writes.  (Past twenty
    significant digits the standard lets an engine round a shortened
    literal instead; engines round the literal itself, as here.) *)
Definition strDecimalLiteral (s : jsstring) : option (number * jsstring) :=
  let '(neg, s1) := spanSign s in
  if isPrefix (js "Infinity") s1 then Some (Inf neg, drop 8 s1)
  else
    let '(ip, r1) := spanDigits s1 in
    let '(fp, r2) :=
      match r1 with
      | c :: r => if (c =? 46)%N then spanDigits r else ([], r1)
      | [] => ([], r1)
      end in
    match ip, fp with
    | [], [] => None
    | _, _ =>
        let m := digitsValue (ip ++ fp) in
        let '(e, rest) := exponentPart r2 in
        Some (roundBinary64 (scale10 (if neg then - m else m)
                               (e - Z.of_nat (length fp))),
              rest)
    end.

(** [parseFloat(s)]: leading white space is skipped, then the longest
    prefix that is a [StrDecimalLiteral] is read; what follows it is
    ignored, and the result is [NaN] only when no prefix is one. *)
Definition parseFloat (s : jsstring) : number :=
  match strDecimalLiteral (trimStart s) with
  | Some (x, _) => x
  | None => NaN
  end.

(** A Number whose value is an integer, as that integer; the two
    infinities, which are equal to no other Number and index no cell,
    as [2^1024] and [-2^1024], which no finite Number is.  [None] is
    [NaN]. *)
Definition integerOf (x : number) : option Z :=
  match x with
  | NaN => None
  | Inf negative => Some (if negative then - 2 ^ 1024 else 2 ^ 1024)
  | Fin q => Some (Qnum q / Z.pos (Qden q))
  end.

(** [parseInt(s, 10)] of a string, or of [undefined] (an absent
    [data-*] attribute): the Number value for the integer that the
    digits after leading white space and a sign write. *)
Definition parseInt10 (s : option jsstring) : option Z :=
  match s with
  | None => None
  | Some s =>
      let '(neg, s1) := spanSign (trimStart s) in
      let '(ds, _) := spanDigits s1 in
      match ds with
      | [] => None
      | _ =>
          integerOf
            (roundBinary64
               (inject_Z (if neg then - digitsValue ds else digitsValue ds)))
      end
  end.

(** *** Handlers

    A handler runs over the state of the page; it completes or throws,
    and what it changed before throwing stays changed. *)
Definition M (S A : Type) : Type := S -> completion A * S.

Definition ret {S A} (a : A) : M S A := fun s => (Normal a, s).

Definition throw {S A} : M S A := fun s => (Throw, s).

Definition bind {S A B} (m : M S A) (k : A -> M S B) : M S B :=
  fun s =>
    match m s with
    | (Normal a, s') => k a s'
    | (Throw, s') => (Throw, s')
    end.

Definition gets {S A} (f : S -> A) : M S A := fun s => (Normal (f s), s).

Definition modify {S} (f : S -> S) : M S unit := fun s => (Normal tt, f s).

(** Reading a property of what a lookup returned: a [TypeError] on
    [null]. *)
Definition deref {S A} (f : S -> option A) : M S A :=
  fun s => match f s with Some a => (Normal a, s) | None => (Throw, s) end.

Definition completed {A} (c : completion A) : bool :=
  match c with Normal _ => true | Throw => false end.

(** [2^e <= n / d], for [0 < n] and [0 < d]. *)
Definition fits (n d e : Z) : Prop :=
  if 0 <=? e then d * 2 ^ e <= n else d <= n * 2 ^ (- e).

(** A multiple of the least positive number, [2^(-1074)], as every
    finite number is. *)
Definition multipleOfMin (q : Q) : Prop :=
  exists k : Z, q == k # Z.to_pos (2 ^ 1074).

End JS.

Declare Scope js_scope.
Delimit Scope js_scope with js.
Notation "x <- m ;; k" := (JS.bind m (fun x => k))
  (at level 100, m at next level, right associativity) : js_scope.
Notation "m ;; k" := (JS.bind m (fun _ => k))
  (at level 100, right associativity) : js_scope.

Local Open Scope js_scope.

(** ** Module 1: the modal dialog and its focus trap *)

Module Modal.
Import JS.

(** Elements are told apart by an identity; [===] on two element
    references compares identities. *)
Abbreviation ElemId := nat.

Inductive Tag : Type :=
  | TagA | TagButton | TagInput | TagSelect | TagTextarea | TagOther.

(** What [getFocusableElements] reads of an element. *)
Record Attrs : Type := {
  el : ElemId;
  tag : Tag;
  href : bool;                  (* carries an [href] attribute *)
  disabled : bool;              (* carries a [disabled] attribute *)
  tabindex : option string;
  hidden : bool;                (* carries a [hidden] attribute *)
  aria_hidden : option string;
}.

#[warnings="-register-all"] Inductive Node : Type :=
  | Element (a : Attrs) (children : list Node).

(** The selector list of [getFocusableElements]. *)
Definition matchesSelectors (a : Attrs) : bool :=
  match tag a with
  | TagA => href a
  | TagButton | TagInput | TagSelect | TagTextarea => negb (disabled a)
  | TagOther => false
  end
  || match tabindex a with
     | Some v => negb (bool_decide (v = "-1"%string))
     | None => false
     end.

(** The element itself matches [[hidden]] or [[aria-hidden="true"]]. *)
Definition hides (a : Attrs) : bool :=
  hidden a || bool_decide (aria_hidden a = Some "true"%string).

(** The focusable elements among a node and its descendants, in document
    order; [hid] tells whether [closest] finds a hiding element among
    the proper ancestors of the node. *)
Fixpoint focusableFrom (hid : bool) (n : Node) : list ElemId :=
  match n with
  | Element a children =>
      let hid' := hid || hides a in
      (if matchesSelectors a && negb hid' then [el a] else [])
        ++ flat_map (focusableFrom hid') children
  end.

(** [getFocusableElements(container)]: [querySelectorAll] ranges over
    the descendants of the container, [closest] over each element and
    all its ancestors, the container and those above it ([hid])
    included. *)
Definition getFocusableElements (hid : bool) (container : Node)
  : list ElemId :=
  match container with
  | Element a children => flat_map (focusableFrom (hid || hides a)) children
  end.

Inductive Target : Type :=
  | Document
  | Elem (e : ElemId).

Inductive Handler : Type :=
  | OpenModal | CloseModal | OverlayClick | HandleModalKeydown.

Record Listener : Type := {
  l_target : Target;
  l_type : string;
  l_handler : Handler;
}.

#[global] Instance Target_eq_dec : EqDecision Target.
Proof. solve_decision. Defined.
#[global] Instance Handler_eq_dec : EqDecision Handler.
Proof. solve_decision. Defined.
#[global] Instance Listener_eq_dec : EqDecision Listener.
Proof. solve_decision. Defined.

(** The element [#modal-overlay]: its identity, its [aria-hidden]
    attribute and whether its class list holds [is-open]. *)
Record Overlay : Type := {
  ov_el : ElemId;
  ov_aria_hidden : option string;
  ov_is_open : bool;
}.

(** The part of the document the controller reads and writes.  A lookup
    that finds nothing is [None].  The dialog lies inside the overlay
    (the overlay's click handler tells a click on the overlay from one
    on its children); [outer_hidden] tells whether an ancestor of the
    dialog other than the overlay is hidden.  A landmark is the first
    [header], [main] or [footer] element, with whether it carries
    [inert].  [defaultPrevented] is the flag of the event being
    dispatched. *)
Record Page : Type := {
  overlay : option Overlay;
  dialog : option Node;
  outer_hidden : bool;
  openBtn : option ElemId;
  closeBtn : option ElemId;
  header : option bool;
  main : option bool;
  footer : option bool;
  activeElement : option ElemId;
  listeners : list Listener;
  defaultPrevented : bool;
}.

Record Event : Type := {
  e_type : string;
  e_target : Target;
  e_key : string;
  e_shiftKey : bool;
}.

Definition set_overlay (o : Overlay) (p : Page) : Page :=
  {| overlay := Some o; dialog := dialog p; outer_hidden := outer_hidden p;
     openBtn := openBtn p; closeBtn := closeBtn p;
     header := header p; main := main p; footer := footer p;
     activeElement := activeElement p; listeners := listeners p;
     defaultPrevented := defaultPrevented p |}.

Inductive Landmark : Type := Header | Main | Footer.

Definition landmark (l : Landmark) (p : Page) : option bool :=
  match l with Header => header p | Main => main p | Footer => footer p end.

Definition set_landmark (l : Landmark) (v : bool) (p : Page) : Page :=
  {| overlay := overlay p; dialog := dialog p; outer_hidden := outer_hidden p;
     openBtn := openBtn p; closeBtn := closeBtn p;
     header := match l with Header => Some v | _ => header p end;
     main := match l with Main => Some v | _ => main p end;
     footer := match l with Footer => Some v | _ => footer p end;
     activeElement := activeElement p; listeners := listeners p;
     defaultPrevented := defaultPrevented p |}.

Definition set_activeElement (e : option ElemId) (p : Page) : Page :=
  {| overlay := overlay p; dialog := dialog p; outer_hidden := outer_hidden p;
     openBtn := openBtn p; closeBtn := closeBtn p;
     header := header p; main := main p; footer := footer p;
     activeElement := e; listeners := listeners p;
     defaultPrevented := defaultPrevented p |}.

Definition set_listeners (ls : list Listener) (p : Page) : Page :=
  {| overlay := overlay p; dialog := dialog p; outer_hidden := outer_hidden p;
     openBtn := openBtn p; closeBtn := closeBtn p;
     header := header p; main := main p; footer := footer p;
     activeElement := activeElement p; listeners := ls;
     defaultPrevented := defaultPrevented p |}.

Definition set_defaultPrevented (b : bool) (p : Page) : Page :=
  {| overlay := overlay p; dialog := dialog p; outer_hidden := outer_hidden p;
     openBtn := openBtn p; closeBtn := closeBtn p;
     header := header p; main := main p; footer := footer p;
     activeElement := activeElement p; listeners := listeners p;
     defaultPrevented := b |}.

(** [overlay.setAttribute('aria-hidden', v)] *)
Definition setAriaHidden (v : string) : M Page unit :=
  o <- deref overlay ;;
  modify (set_overlay
    {| ov_el := ov_el o; ov_aria_hidden := Some v;
       ov_is_open := ov_is_open o |}).

(** [overlay.classList.add('is-open')] when [b], [remove] otherwise. *)
Definition setIsOpen (b : bool) : M Page unit :=
  o <- deref overlay ;;
  modify (set_overlay
    {| ov_el := ov_el o; ov_aria_hidden := ov_aria_hidden o;
       ov_is_open := b |}).

(** [document.querySelector(l).setAttribute('inert', '')] when [v], and
    [removeAttribute('inert')] otherwise. *)
Definition setInert (l : Landmark) (v : bool) : M Page unit :=
  _ <- deref (landmark l) ;;
  modify (set_landmark l v).

(** [e.focus()]: the element becomes the active element; on [undefined]
    the call throws.  (Focus is taken to succeed: whether the browser
    lets an element take it is outside the script.) *)
Definition focus (e : option ElemId) : M Page unit :=
  match e with
  | Some e => modify (set_activeElement (Some e))
  | None => throw
  end.

(** [addEventListener] leaves a listener that is already registered
    registered once. *)
Definition addEventListener (l : Listener) : M Page unit :=
  modify (fun p =>
    set_listeners
      (if bool_decide (l ∈ listeners p) then listeners p
       else listeners p ++ [l]) p).

Definition removeEventListener (l : Listener) : M Page unit :=
  modify (fun p => set_listeners (filter (fun l' => l' ≠ l) (listeners p)) p).

Definition preventDefault : M Page unit :=
  modify (set_defaultPrevented true).

Definition keydownListener : Listener :=
  {| l_target := Document; l_type := "keydown";
     l_handler := HandleModalKeydown |}.

(** [getFocusableElements(dialog)] on the page as it is now. *)
Definition dialogFocusable : M Page (list ElemId) :=
  d <- deref dialog ;;
  o <- gets overlay ;;
  hid <- gets outer_hidden ;;
  ret (getFocusableElements
         (hid || bool_decide (o ≫= ov_aria_hidden = Some "true"%string)) d).

Definition dialogEl (d : Node) : ElemId :=
  match d with Element a _ => el a end.

(** [openModal]: the overlay is shown, the landmarks made inert, focus
    moved to the first focusable element of the dialog (to the dialog
    when it has none), and the keydown listener bound. *)
Definition openModal : M Page unit :=
  setAriaHidden "false" ;;
  setIsOpen true ;;
  setInert Header true ;;
  setInert Main true ;;
  setInert Footer true ;;
  focusableEls <- dialogFocusable ;;
  (if bool_decide (length focusableEls ≠ 0%nat) then focus (head focusableEls)
   else d <- deref dialog ;; focus (Some (dialogEl d))) ;;
  addEventListener keydownListener.

(** [closeModal]: the overlay is hidden, [inert] taken off the
    landmarks, focus moved to the open button, and the keydown listener
    removed. *)
Definition closeModal : M Page unit :=
  setAriaHidden "true" ;;
  setIsOpen false ;;
  setInert Header false ;;
  setInert Main false ;;
  setInert Footer false ;;
  b <- deref openBtn ;;
  focus (Some b) ;;
  removeEventListener keydownListener.

(** [handleModalKeydown(event)]; the first and the last element of an
    empty array are [undefined]. *)
Definition handleModalKeydown (event : Event) : M Page unit :=
  focusableEls <- dialogFocusable ;;
  let firstFocusable := head focusableEls in
  let lastFocusable := last focusableEls in
  if bool_decide (e_key event = "Escape"%string) then closeModal
  else if bool_decide (e_key event = "Tab"%string) then
    if bool_decide (length focusableEls = 0%nat) then preventDefault
    else
      active <- gets activeElement ;;
      if e_shiftKey event then
        if bool_decide (active = firstFocusable) then
          preventDefault ;; focus lastFocusable
        else ret tt
      else
        if bool_decide (active = lastFocusable) then
          preventDefault ;; focus firstFocusable
        else ret tt
  else ret tt.

(** The click handler of the overlay. *)
Definition overlayClick (event : Event) : M Page unit :=
  o <- deref overlay ;;
  if bool_decide (e_target event = Elem (ov_el o)) then closeModal
  else ret tt.

Definition runHandler (h : Handler) (event : Event) : M Page unit :=
  match h with
  | OpenModal => openModal
  | CloseModal => closeModal
  | OverlayClick => overlayClick event
  | HandleModalKeydown => handleModalKeydown event
  end.

(** [initModal]: the four lookups, the guard, and the three click
    listeners. *)
Definition initModal : M Page unit :=
  o <- gets overlay ;;
  d <- gets dialog ;;
  ob <- gets openBtn ;;
  cb <- gets closeBtn ;;
  match o, d, ob, cb with
  | Some o, Some _, Some ob, Some cb =>
      addEventListener
        {| l_target := Elem ob; l_type := "click"; l_handler := OpenModal |} ;;
      addEventListener
        {| l_target := Elem cb; l_type := "click"; l_handler := CloseModal |} ;;
      addEventListener
        {| l_target := Elem (ov_el o); l_type := "click";
           l_handler := OverlayClick |}
  | _, _, _, _ => ret tt
  end.

(** The listeners an event reaches at one node of its path, run in the
    order they were registered.  An exception a listener throws is
    reported and does not stop the others; the result tells whether
    every listener completed. *)
Fixpoint runListeners (ls : list Listener) (at_ : Target) (event : Event)
    (p : Page) : bool * Page :=
  match ls with
  | [] => (true, p)
  | l :: ls =>
      if bool_decide (l_target l = at_ ∧ l_type l = e_type event) then
        let '(c, p') := runHandler (l_handler l) event p in
        let '(ok, p'') := runListeners ls at_ event p' in
        (completed c && ok, p'')
      else runListeners ls at_ event p
  end.

Definition fire (at_ : Target) (event : Event) (p : Page) : bool * Page :=
  runListeners (listeners p) at_ event (set_defaultPrevented false p).

(** *** Observations *)

(** The focus cycle of the dialog on the page as it is now. *)
Definition focusCycle (p : Page) (d : Node) : list ElemId :=
  getFocusableElements
    (outer_hidden p
     || bool_decide (overlay p ≫= ov_aria_hidden = Some "true"%string)) d.

(** The page after [closeModal], when nothing it reads is missing. *)
Definition closed (o : Overlay) (b : ElemId) (p : Page) : Page :=
  {| overlay := Some {| ov_el := ov_el o;
                        ov_aria_hidden := Some "true"%string;
                        ov_is_open := false |};
     dialog := dialog p; outer_hidden := outer_hidden p;
     openBtn := openBtn p; closeBtn := closeBtn p;
     header := Some false; main := Some false; footer := Some false;
     activeElement := Some b;
     listeners := filter (fun l => l ≠ keydownListener) (listeners p);
     defaultPrevented := defaultPrevented p |}.

(** A page to run the controller on: a dialog holding a link, a hidden
    input and a close button, inside the overlay; the button that opens
    it lies in [main]. *)
Definition attrsOf (e : ElemId) (t : Tag) : Attrs :=
  {| el := e; tag := t; href := true; disabled := false; tabindex := None;
     hidden := false; aria_hidden := None |}.

Definition sampleDialog : Node :=
  Element
    {| el := 2; tag := TagOther; href := false; disabled := false;
       tabindex := Some "-1"%string; hidden := false; aria_hidden := None |}
    [Element (attrsOf 5 TagA) [];
     Element
       {| el := 6; tag := TagOther; href := false; disabled := false;
          tabindex := None; hidden := true; aria_hidden := None |}
       [Element (attrsOf 7 TagInput) []];
     Element (attrsOf 4 TagButton) []].

Definition samplePage : Page :=
  {| overlay := Some {| ov_el := 1; ov_aria_hidden := Some "true"%string;
                        ov_is_open := false |};
     dialog := Some sampleDialog; outer_hidden := false;
     openBtn := Some 3%nat; closeBtn := Some 4%nat;
     header := Some false; main := Some false; footer := Some false;
     activeElement := None; listeners := []; defaultPrevented := false |}.

Definition keydown (key : string) (shift : bool) : Event :=
  {| e_type := "keydown"; e_target := Document; e_key := key;
     e_shiftKey := shift |}.

Definition clickOn (e : ElemId) : Event :=
  {| e_type := "click"; e_target := Elem e; e_key := "";
     e_shiftKey := false |}.

(** The click listeners the controller registers when it starts, for
    the overlay [o], the open button [b] and the close button [cb].
    While the dialog is open the keydown listener follows them. *)
Definition wiring (o : Overlay) (b cb : ElemId) : list Listener :=
  [ {| l_target := Elem b; l_type := "click"; l_handler := OpenModal |};
    {| l_target := Elem cb; l_type := "click"; l_handler := CloseModal |};
    {| l_target := Elem (ov_el o); l_type := "click";
       l_handler := OverlayClick |} ].

(** The sample page once the controller has started and the open button
    has been clicked. *)
Definition openedSample : Page :=
  (fire (Elem 3) (clickOn 3) (initModal samplePage).2).2.

Definition openedOverlay : Overlay :=
  {| ov_el := 1; ov_aria_hidden := Some "false"%string; ov_is_open := true |}.

(** The sample page without a [header] element, and the same once the
    controller has started on it. *)
Definition noHeaderPage : Page :=
  {| overlay := overlay samplePage; dialog := dialog samplePage;
     outer_hidden := false;
     openBtn := openBtn samplePage; closeBtn := closeBtn samplePage;
     header := None; main := Some false; footer := Some false;
     activeElement := None; listeners := []; defaultPrevented := false |}.

Definition startedNoHeader : Page := (initModal noHeaderPage).2.

(** The elements of a subtree in document order, the root first; the
    descendants of a container, which [querySelectorAll] ranges over;
    and a subtree that holds no hiding element. *)
Fixpoint subtree (n : Node) : list Attrs :=
  match n with
  | Element a children => a :: flat_map subtree children
  end.

Definition descendants (container : Node) : list Attrs :=
  match container with
  | Element _ children => flat_map subtree children
  end.

Definition visible (n : Node) : bool :=
  forallb (fun a => negb (hides a)) (subtree n).

(** The page after [openModal], when nothing it reads is missing: the
    focus cycle is computed once the overlay carries
    [aria-hidden="false"]. *)
Definition opened (o : Overlay) (d : Node) (p : Page) : Page :=
  {| overlay := Some {| ov_el := ov_el o;
                        ov_aria_hidden := Some "false"%string;
                        ov_is_open := true |};
     dialog := dialog p; outer_hidden := outer_hidden p;
     openBtn := openBtn p; closeBtn := closeBtn p;
     header := Some true; main := Some true; footer := Some true;
     activeElement :=
       Some (match getFocusableElements (outer_hidden p) d with
             | e :: _ => e
             | [] => dialogEl d
             end);
     listeners :=
       if bool_decide (keydownListener ∈ listeners p) then listeners p
       else listeners p ++ [keydownListener];
     defaultPrevented := defaultPrevented p |}.

(** The states of the page once the controller has started on [p0]:
    events of any kind reach any node, one after the other. *)
Inductive reachable (p0 : Page) : Page -> Prop :=
  | reach_init : reachable p0 (initModal p0).2
  | reach_fire p at_ ev :
      reachable p0 p -> reachable p0 (fire at_ ev p).2.

(** The two states of the dialog.  Shut: the overlay is hidden from
    assistive technology and not shown, no landmark is inert, and the
    click listeners alone are registered.  Open: the overlay is exposed
    and shown, the three landmarks are inert, and the keydown listener
    is registered, once, after the click listeners. *)
Definition isShut (b cb : ElemId) (p : Page) : Prop :=
  exists o, overlay p = Some o
            /\ ov_aria_hidden o = Some "true"%string
            /\ ov_is_open o = false
            /\ header p = Some false /\ main p = Some false
            /\ footer p = Some false
            /\ listeners p = wiring o b cb.

Definition isOpen (b cb : ElemId) (p : Page) : Prop :=
  exists o, overlay p = Some o
            /\ ov_aria_hidden o = Some "false"%string
            /\ ov_is_open o = true
            /\ header p = Some true /\ main p = Some true
            /\ footer p = Some true
            /\ listeners p = wiring o b cb ++ [keydownListener].

(** The dialog is shut or open, and the elements the controller holds
    are where it found them. *)
Definition settled (d : Node) (b cb : ElemId) (p : Page) : Prop :=
  (isShut b cb p \/ isOpen b cb p)
  /\ dialog p = Some d /\ openBtn p = Some b.

End Modal.

(** ** Module 2: form validation *)

Module Form.
Import JS.

(** An element of the document, as far as the controller can tell:
    its attributes, read with [getAttribute] and written with
    [setAttribute] or through the property that reflects one
    ([className] is the [class] attribute); its [textContent]; and for
    a form control its [value], the value [reset] restores and the form
    that owns it.  The elements whose text the script writes are the
    error containers and the status container, which hold text only:
    the text of a control is kept apart from its value (a text area,
    whose text is its default value, is read as any other control). *)
Record Element : Type := {
  attrs : gmap string string;
  textContent : jsstring;
  value : jsstring;
  defaultValue : jsstring;
  form_owner : option string;
}.

Inductive Handler : Type :=
  | Submit
  | Blur (field : string).

Record Listener : Type := {
  l_target : string;
  l_type : string;
  l_handler : Handler;
}.

(** The document by element id: [getElementById] is the lookup, and a
    reference to an element is the id it was found under.  The script
    neither adds nor removes elements, so a reference taken when the
    controller starts denotes the same element in every handler. *)
Record Page : Type := {
  elements : gmap string Element;
  activeElement : option string;
  listeners : list Listener;
  defaultPrevented : bool;
}.

Definition set_elements (m : gmap string Element) (p : Page) : Page :=
  {| elements := m; activeElement := activeElement p;
     listeners := listeners p; defaultPrevented := defaultPrevented p |}.

Definition set_activeElement (e : option string) (p : Page) : Page :=
  {| elements := elements p; activeElement := e;
     listeners := listeners p; defaultPrevented := defaultPrevented p |}.

Definition set_listeners (ls : list Listener) (p : Page) : Page :=
  {| elements := elements p; activeElement := activeElement p;
     listeners := ls; defaultPrevented := defaultPrevented p |}.

Definition set_defaultPrevented (b : bool) (p : Page) : Page :=
  {| elements := elements p; activeElement := activeElement p;
     listeners := listeners p; defaultPrevented := b |}.

Definition set_attrs (a : gmap string string) (e : Element) : Element :=
  {| attrs := a; textContent := textContent e;
     value := value e; defaultValue := defaultValue e;
     form_owner := form_owner e |}.

(** [element.className], read and written: the [class] attribute, the
    empty string when the element has none. *)
Definition className (e : Element) : string :=
  default ""%string (attrs e !! "class"%string).

Definition set_className (c : string) (e : Element) : Element :=
  set_attrs (<["class"%string := c]> (attrs e)) e.

Definition set_textContent (t : jsstring) (e : Element) : Element :=
  {| attrs := attrs e; textContent := t;
     value := value e; defaultValue := defaultValue e;
     form_owner := form_owner e |}.

Definition set_value (v : jsstring) (e : Element) : Element :=
  {| attrs := attrs e; textContent := textContent e;
     value := v; defaultValue := defaultValue e;
     form_owner := form_owner e |}.

(** [document.getElementById(id)]: the reference, or [null]. *)
Definition getElementById (id : string) : M Page (option string) :=
  gets (fun p =>
    match elements p !! id with Some _ => Some id | None => None end).

(** The element a reference denotes; reading through [null] throws. *)
Definition element (ref : option string) : M Page Element :=
  deref (fun p => ref ≫= fun id => elements p !! id).

(** A write to the element a reference denotes. *)
Definition update (ref : option string) (f : Element -> Element)
  : M Page unit :=
  _ <- element ref ;;
  modify (fun p =>
    match ref with
    | Some id => set_elements (alter f id (elements p)) p
    | None => p
    end).

Definition setAttribute (ref : option string) (name v : string)
  : M Page unit :=
  update ref (fun e => set_attrs (<[name := v]> (attrs e)) e).

Definition removeAttribute (ref : option string) (name : string)
  : M Page unit :=
  update ref (fun e => set_attrs (delete name (attrs e)) e).

Definition focus (ref : option string) : M Page unit :=
  _ <- element ref ;; modify (set_activeElement ref).

Definition preventDefault : M Page unit :=
  modify (set_defaultPrevented true).

(** [/^[^\s@]+@[^\s@]+\.[^\s@]+$/] *)
Definition emailPattern : regex :=
  let other := Class (fun c => negb (isWhiteSpace c || (c =? 64)%N)) in
  Cat (Plus other)
    (Cat (Class (fun c => (c =? 64)%N))
       (Cat (Plus other)
          (Cat (Class (fun c => (c =? 46)%N)) (Plus other)))).

(** The [switch] of [validateField]: the message for a field id and a
    value, empty when the value passes. *)
Definition ruleMessage (id : string) (v : jsstring) : jsstring :=
  if bool_decide (id = "name"%string) then
    if falsy (trim v) then
      js "Full Name is required. Please enter your name."
    else if bool_decide (length (trim v) < 2)%nat then
      js "Name must be at least 2 characters."
    else []
  else if bool_decide (id = "email"%string) then
    if falsy (trim v) then
      js "Email Address is required. Please enter your email."
    else if negb (test emailPattern (trim v)) then
      js "Please enter a valid email address (e.g. name@example.com)."
    else []
  else if bool_decide (id = "message"%string) then
    if falsy (trim v) then
      js "Message is required. Please enter your message."
    else if bool_decide (length (trim v) < 10)%nat then
      js "Message must be at least 10 characters."
    else []
  else [].

Definition setFieldError (field errorEl : option string) (message : jsstring)
  : M Page unit :=
  setAttribute field "aria-invalid" "true" ;;
  match errorEl with
  | Some _ => update errorEl (set_textContent message)
  | None => ret tt
  end.

Definition clearFieldError (field errorEl : option string) : M Page unit :=
  removeAttribute field "aria-invalid" ;;
  match errorEl with
  | Some _ => update errorEl (set_textContent [])
  | None => ret tt
  end.

(** [validateField(field)].  [getAttribute] gives [null] for an absent
    attribute, which [getElementById] looks up as the id ["null"]; the
    id of a field is the id it was looked up under. *)
Definition validateField (field : option string) : M Page bool :=
  match field with
  | None => throw
  | Some id =>
      f <- element field ;;
      errorEl <- getElementById
                   (default "null"%string
                      (attrs f !! "aria-describedby"%string)) ;;
      clearFieldError field errorEl ;;
      f <- element field ;;
      let message := ruleMessage id (value f) in
      if negb (falsy message) then
        setFieldError field errorEl message ;; ret false
      else ret true
  end.

(** [fields.map(validateField)] *)
Fixpoint mapM {S A B} (f : A -> M S B) (l : list A) : M S (list B) :=
  match l with
  | [] => ret []
  | a :: l => b <- f a ;; bs <- mapM f l ;; ret (b :: bs)
  end.

(** [fields.find((_, i) => !results[i])]; an index [results] lacks
    reads [undefined], which counts as failed. *)
Fixpoint findInvalid (fields : list (option string)) (results : list bool)
  : option string :=
  match fields with
  | [] => None
  | f :: fields =>
      match results with
      | true :: results => findInvalid fields results
      | false :: _ => f
      | [] => f
      end
  end.

Definition failureStatus : jsstring :=
  js "Form submission failed. Please correct the errors indicated below each field.".

Definition successStatus : jsstring :=
  js "Thank you! Your message has been sent successfully.".

(** [form.reset()]: every control the form owns takes its default value
    again. *)
Definition reset (form : string) : M Page unit :=
  modify (fun p =>
    set_elements
      ((fun e => if bool_decide (form_owner e = Some form)
                 then set_value (defaultValue e) e else e)
         <$> elements p) p).

(** The submit listener of the form; [formStatus] is the reference the
    controller took when it started. *)
Definition submitHandler : M Page unit :=
  formStatus <- getElementById "form-status" ;;
  preventDefault ;;
  name <- getElementById "name" ;;
  email <- getElementById "email" ;;
  message <- getElementById "message" ;;
  let fields := [name; email; message] in
  results <- mapM validateField fields ;;
  let firstInvalidField := findInvalid fields results in
  match firstInvalidField with
  | Some _ =>
      focus firstInvalidField ;;
      update formStatus (set_className "form-status error") ;;
      update formStatus (set_textContent failureStatus)
  | None =>
      update formStatus (set_className "form-status success") ;;
      update formStatus (set_textContent successStatus) ;;
      reset "contact-form"
  end.

Definition runHandler (h : Handler) : M Page unit :=
  match h with
  | Submit => submitHandler
  | Blur field => _ <- validateField (Some field) ;; ret tt
  end.

Definition addEventListener (l : Listener) : M Page unit :=
  modify (fun p => set_listeners (listeners p ++ [l]) p).

(** The blur wiring of one field. *)
Definition wireBlur (id : string) : M Page unit :=
  field <- getElementById id ;;
  match field with
  | Some _ =>
      addEventListener {| l_target := id; l_type := "blur";
                          l_handler := Blur id |}
  | None => ret tt
  end.

(** [initFormValidation]: the guard checks the form alone. *)
Definition initFormValidation : M Page unit :=
  form <- getElementById "contact-form" ;;
  match form with
  | None => ret tt
  | Some _ =>
      addEventListener {| l_target := "contact-form"; l_type := "submit";
                          l_handler := Submit |} ;;
      wireBlur "name" ;;
      wireBlur "email" ;;
      wireBlur "message"
  end.

Fixpoint runListeners (ls : list Listener) (at_ ty : string) (p : Page)
  : bool * Page :=
  match ls with
  | [] => (true, p)
  | l :: ls =>
      if bool_decide (l_target l = at_ ∧ l_type l = ty) then
        let '(c, p') := runHandler (l_handler l) p in
        let '(ok, p'') := runListeners ls at_ ty p' in
        (completed c && ok, p'')
      else runListeners ls at_ ty p
  end.

(** An event of type [ty] reaching the element [at_]: its listeners
    run; the result tells whether every one completed. *)
Definition fire (at_ ty : string) (p : Page) : bool * Page :=
  runListeners (listeners p) at_ ty (set_defaultPrevented false p).

(** *** Observations *)

Definition clearInvalid (e : Element) : Element :=
  set_attrs (delete "aria-invalid"%string (attrs e)) e.

Definition markInvalid (e : Element) : Element :=
  set_attrs (<["aria-invalid"%string := "true"%string]> (attrs e)) e.

(** The id [validateField] looks the error container of a field up
    under. *)
Definition describedBy (f : Element) : string :=
  default "null"%string (attrs f !! "aria-describedby"%string).
Arguments describedBy : simpl never.

(** The elements after [clearFieldError] on the field [id]. *)
Definition cleared (id : string) (f : Element) (m : gmap string Element)
  : gmap string Element :=
  alter (set_textContent []) (describedBy f) (alter clearInvalid id m).

(** The elements after [setFieldError] on the field [id]. *)
Definition flagged (id : string) (f : Element) (msg : jsstring)
    (m : gmap string Element) : gmap string Element :=
  alter (set_textContent msg) (describedBy f) (alter markInvalid id m).

(** What a page shows of a field: its [aria-invalid] attribute and the
    text of its error container. *)
Definition ariaInvalid (p : Page) (id : string) : option string :=
  elements p !! id ≫= fun f => attrs f !! "aria-invalid"%string.

Definition errorText (p : Page) (id : string) : option jsstring :=
  elements p !! id ≫= fun f => textContent <$> elements p !! describedBy f.

(** [validateField] rejects the field and shows [msg] for it. *)
Definition yields (p : Page) (id : string) (msg : jsstring) : Prop :=
  exists p', validateField (Some id) p = (Normal false, p')
             /\ ariaInvalid p' id = Some "true"%string
             /\ errorText p' id = Some msg.

(** [validateField] accepts the field: no marker, no message. *)
Definition passes (p : Page) (id : string) : Prop :=
  exists p', validateField (Some id) p = (Normal true, p')
             /\ ariaInvalid p' id = None
             /\ errorText p' id = Some [].

(** The fields the controller validates, and the two messages the rule
    table holds for each. *)
Definition isField (id : string) : Prop :=
  id = "name"%string \/ id = "email"%string \/ id = "message"%string.

Definition requiredMessage (id : string) : jsstring :=
  if bool_decide (id = "name"%string) then
    js "Full Name is required. Please enter your name."
  else if bool_decide (id = "email"%string) then
    js "Email Address is required. Please enter your email."
  else js "Message is required. Please enter your message.".

Definition secondMessage (id : string) : jsstring :=
  if bool_decide (id = "name"%string) then
    js "Name must be at least 2 characters."
  else if bool_decide (id = "email"%string) then
    js "Please enter a valid email address (e.g. name@example.com)."
  else js "Message must be at least 10 characters.".

(** The second check of a field fails on a trimmed value. *)
Definition secondFails (id : string) (t : jsstring) : bool :=
  if bool_decide (id = "name"%string) then bool_decide (length t < 2)%nat
  else if bool_decide (id = "email"%string) then negb (test emailPattern t)
  else bool_decide (length t < 10)%nat.

(** A page to run the controller on: the form, its status container,
    and the three fields with the given values, each with an error
    container. *)
Definition plain : Element :=
  {| attrs := ∅; textContent := []; value := [];
     defaultValue := []; form_owner := None |}.

Definition control (v : jsstring) (err : string) : Element :=
  {| attrs := {[ "aria-describedby"%string := err ]};
     textContent := []; value := v; defaultValue := [];
     form_owner := Some "contact-form"%string |}.

Definition fieldsOnly (n e m : jsstring) : gmap string Element :=
  <["contact-form"%string := plain]>
  (<["name"%string := control n "name-error"]>
  (<["name-error"%string := plain]>
  (<["email"%string := control e "email-error"]>
  (<["email-error"%string := plain]>
  (<["message"%string := control m "message-error"]>
  (<["message-error"%string := plain]> ∅)))))).

Definition samplePage (n e m : jsstring) : Page :=
  {| elements := <["form-status"%string := plain]> (fieldsOnly n e m);
     activeElement := None; listeners := []; defaultPrevented := false |}.

(** What one call of [validateField] on the field [id] (with error
    container [d] and message [msg]) does to the element with id [j]. *)
Definition validated (id d : string) (msg : jsstring)
    (j : string) (e : Element) : Element :=
  let e1 := if bool_decide (j = id) then clearInvalid e else e in
  let e2 := if bool_decide (j = d) then set_textContent [] e1 else e1 in
  if falsy msg then e2
  else
    let e3 := if bool_decide (j = id) then markInvalid e2 else e2 in
    if bool_decide (j = d) then set_textContent msg e3 else e3.

(** The rest of the submit listener once the three fields are
    validated. *)
Definition finishSubmit (results : list bool) : M Page unit :=
  let fields := [Some "name"; Some "email"; Some "message"]%string in
  let firstInvalidField := findInvalid fields results in
  match firstInvalidField with
  | Some _ =>
      focus firstInvalidField ;;
      update (Some "form-status"%string) (set_className "form-status error") ;;
      update (Some "form-status"%string) (set_textContent failureStatus)
  | None =>
      update (Some "form-status"%string)
        (set_className "form-status success") ;;
      update (Some "form-status"%string) (set_textContent successStatus) ;;
      reset "contact-form"
  end.

(** The submit listener from the validation of the fields on, for the
    references it holds. *)
Definition submitFrom (formStatus name email message : option string)
  : M Page unit :=
  let fields := [name; email; message] in
  results <- mapM validateField fields ;;
  let firstInvalidField := findInvalid fields results in
  match firstInvalidField with
  | Some _ =>
      focus firstInvalidField ;;
      update formStatus (set_className "form-status error") ;;
      update formStatus (set_textContent failureStatus)
  | None =>
      update formStatus (set_className "form-status success") ;;
      update formStatus (set_textContent successStatus) ;;
      reset "contact-form"
  end.

(** The reference [getElementById] returns. *)
Definition ref (id : string) (p : Page) : option string :=
  match elements p !! id with Some _ => Some id | None => None end.

(** The states of the page once the controller has started on [p0]:
    events of any type reach any element, one after the other. *)
Inductive reachable (p0 : Page) : Page -> Prop :=
  | reach_init : reachable p0 (initFormValidation p0).2
  | reach_fire p at_ ty :
      reachable p0 p -> reachable p0 (fire at_ ty p).2.

(** The listeners that validate: the submit listener of the form and
    the blur listener of a field. *)
Definition validating (l : Listener) : Prop :=
  (l_type l = "submit"%string /\ l_target l = "contact-form"%string
   /\ l_handler l = Submit)
  \/ (l_type l = "blur"%string /\ isField (l_target l)
      /\ l_handler l = Blur (l_target l)).


Definition statusClass (p : Page) : option string :=
  className <$> elements p !! "form-status"%string.

Definition valueOf (p : Page) (id : string) : option jsstring :=
  value <$> elements p !! id.

(** A handler that leaves a part of the page as it is. *)
Definition keeps {X A} (part : Page -> X) (m : M Page A) : Prop :=
  forall p, part (m p).2 = part p.

(** The three messages of the rule table for the three fields. *)
Definition message3 (n e m : Element) : list jsstring :=
  [ruleMessage "name" (value n); ruleMessage "email" (value e);
   ruleMessage "message" (value m)].

(** What the end of a failed, and of a successful, submit does to the
    element with id [j]. *)
Definition statusFailed (j : string) (x : Element) : Element :=
  if bool_decide (j = "form-status"%string)
  then set_textContent failureStatus (set_className "form-status error" x)
  else x.


(** The blur listener the controller registers for a field that
    exists. *)
Definition blurListeners (id : string) (p : Page) : list Listener :=
  match elements p !! id with
  | Some _ => [{| l_target := id; l_type := "blur"; l_handler := Blur id |}]
  | None => []
  end.

(** The sample page once the controller has started and the name field
    has been left. *)
Definition startedSample : Page :=
  (fire "name" "blur" (initFormValidation (samplePage [] [] [])).2).2.

(** The sample page without its status container, and the same once
    the controller has started on it. *)
Definition noStatusPage : Page :=
  {| elements := fieldsOnly [] [] [];
     activeElement := None; listeners := []; defaultPrevented := false |}.

Definition startedNoStatus : Page := (initFormValidation noStatusPage).2.

(** A character of the class [[^\s@]]. *)
Definition addressChar (c : N) : bool :=
  negb (isWhiteSpace c || (c =? 64)%N).

(** The shape [local@domain.tld]: three non-empty runs of characters
    that are neither white space nor [@], the first two separated by
    [@], the last two by a dot. *)
Definition addressShape (s : jsstring) : Prop :=
  exists l d t,
    s = l ++ [64%N] ++ d ++ [46%N] ++ t
    /\ l ≠ [] /\ d ≠ [] /\ t ≠ []
    /\ forallb addressChar (l ++ d ++ t) = true.

(** The four listeners the controller registers on a page that holds
    the form and its three fields. *)
Definition wiring : list Listener :=
  [ {| l_target := "contact-form"; l_type := "submit"; l_handler := Submit |};
    {| l_target := "name"; l_type := "blur"; l_handler := Blur "name" |};
    {| l_target := "email"; l_type := "blur"; l_handler := Blur "email" |};
    {| l_target := "message"; l_type := "blur";
       l_handler := Blur "message" |} ].





End Form.

(** ** Module 3: the sortable table *)

Module Table.
Import JS.

(** A row of the table body: an identity and the text of its cells. *)
Record Row : Type := {
  row_id : nat;
  cells : list jsstring;
}.

(** A [th] element of the document: whether it lies inside the table,
    its [aria-sort] attribute, and the text of the first child of the
    first [.sort-btn] inside it, when there is one. *)
Record Th : Type := {
  in_table : bool;
  aria_sort : option string;
  label : option jsstring;
}.

(** A [.sort-btn] element: the [th] that [closest] finds (an index into
    the [th] elements of the document) and its [data-col] attribute. *)
Record SortBtn : Type := {
  btn_th : option nat;
  data_col : option jsstring;
}.

Inductive Dir : Type := asc | desc.

(** The controller's own state: the active column, an integer-valued
    Number or an infinity (see [integerOf]), [-1] for none, and the
    direction. *)
Record SortState : Type := {
  col : Z;
  dir : Dir;
}.

(** The part of the document the controller reads and writes, and its
    own state.  [table] tells whether [#courses-table] exists; [tbody]
    is the rows of [#courses-tbody] in document order; [announcer] the
    text of [#table-announce]; [timers] the texts the pending
    [setTimeout] callbacks will write there; [listeners] the sort
    buttons (by index) that carry a click listener. *)
Record Page : Type := {
  table : bool;
  tbody : option (list Row);
  announcer : option jsstring;
  ths : list Th;
  sortButtons : list SortBtn;
  sortState : SortState;
  timers : list jsstring;
  listeners : list nat;
}.

Definition set_tbody (rows : list Row) (p : Page) : Page :=
  {| table := table p; tbody := Some rows; announcer := announcer p;
     ths := ths p; sortButtons := sortButtons p; sortState := sortState p;
     timers := timers p; listeners := listeners p |}.

Definition set_announcer (t : jsstring) (p : Page) : Page :=
  {| table := table p; tbody := tbody p; announcer := Some t;
     ths := ths p; sortButtons := sortButtons p; sortState := sortState p;
     timers := timers p; listeners := listeners p |}.

Definition set_ths (l : list Th) (p : Page) : Page :=
  {| table := table p; tbody := tbody p; announcer := announcer p;
     ths := l; sortButtons := sortButtons p; sortState := sortState p;
     timers := timers p; listeners := listeners p |}.

Definition set_sortState (s : SortState) (p : Page) : Page :=
  {| table := table p; tbody := tbody p; announcer := announcer p;
     ths := ths p; sortButtons := sortButtons p; sortState := s;
     timers := timers p; listeners := listeners p |}.

Definition set_timers (l : list jsstring) (p : Page) : Page :=
  {| table := table p; tbody := tbody p; announcer := announcer p;
     ths := ths p; sortButtons := sortButtons p; sortState := sortState p;
     timers := l; listeners := listeners p |}.

Definition set_listeners (l : list nat) (p : Page) : Page :=
  {| table := table p; tbody := tbody p; announcer := announcer p;
     ths := ths p; sortButtons := sortButtons p; sortState := sortState p;
     timers := timers p; listeners := l |}.

Definition set_aria_sort (v : string) (t : Th) : Th :=
  {| in_table := in_table t; aria_sort := Some v; label := label t |}.

(** [row.cells[colIndex].textContent]: [None] where the row has no such
    cell, and the read throws. *)
Definition cellText (colIndex : Z) (row : Row) : option jsstring :=
  if colIndex <? 0 then None else cells row !! Z.to_nat colIndex.

Definition dirText (d : Dir) : string :=
  match d with asc => "ascending" | desc => "descending" end.

Definition isAsc (d : Dir) : bool :=
  match d with asc => true | desc => false end.

Section Sorter.

(** [String.prototype.localeCompare] follows the collation of the
    browser's locale: a negative number, zero or a positive number. *)
Variable localeCompare : jsstring -> jsstring -> Z.

(** The comparator handed to [rows.sort]. *)
Definition compareRows (ascending : bool) (colIndex : Z) (rowA rowB : Row)
  : completion number :=
  match cellText colIndex rowA, cellText colIndex rowB with
  | Some textA, Some textB =>
      let cellA := trim textA in
      let cellB := trim textB in
      let numA := parseFloat cellA in
      let numB := parseFloat cellB in
      if negb (isNaN numA) && negb (isNaN numB) then
        Normal (if ascending then sub numA numB else sub numB numA)
      else
        Normal (Fin (inject_Z (if ascending then localeCompare cellA cellB
                               else localeCompare cellB cellA)))
  | _, _ => Throw
  end.

(** [Array.prototype.sort] is stable, and reads only the sign of what
    the comparator returns.  Where the comparator is a consistent order
    the result is the one stable arrangement, which insertion computes;
    elsewhere the standard leaves the order to the engine.  A comparator
    that throws ends the sort, and with two rows or more every row is
    compared at least once. *)
Fixpoint insert {A} (cmp : A -> A -> completion number) (x : A) (l : list A)
  : completion (list A) :=
  match l with
  | [] => Normal [x]
  | y :: l' =>
      match cmp x y with
      | Throw => Throw
      | Normal v =>
          match sign v with
          | Gt =>
              match insert cmp x l' with
              | Normal r => Normal (y :: r)
              | Throw => Throw
              end
          | _ => Normal (x :: l)
          end
      end
  end.

Fixpoint sort {A} (cmp : A -> A -> completion number) (l : list A)
  : completion (list A) :=
  match l with
  | [] => Normal []
  | x :: l' =>
      match sort cmp l' with
      | Normal s => insert cmp x s
      | Throw => Throw
      end
  end.

(** [sortTable(colIndex, clickedTh)]; [clickedTh] is an index into the
    [th] elements of the document. *)
Definition sortTable (colIndex : Z) (clickedTh : nat) : M Page unit :=
  modify (fun p =>
    let s := sortState p in
    if bool_decide (col s = colIndex) then
      set_sortState
        {| col := col s;
           dir := match dir s with asc => desc | desc => asc end |} p
    else
      set_sortState {| col := colIndex; dir := asc |} p) ;;
  ascending <- gets (fun p => isAsc (dir (sortState p))) ;;
  rows <- deref tbody ;;
  match sort (compareRows ascending colIndex) rows with
  | Throw => throw
  | Normal rows =>
      modify (set_tbody rows) ;;
      modify (fun p =>
        set_ths
          ((fun th =>
              if in_table th && bool_decide (is_Some (aria_sort th))
              then set_aria_sort "none" th else th) <$> ths p) p) ;;
      modify (fun p =>
        set_ths
          (alter (set_aria_sort (if ascending then "ascending"
                                 else "descending"))
             clickedTh (ths p)) p) ;;
      name <- deref (fun p => ths p !! clickedTh ≫= label) ;;
      let columnName := trim name in
      let dirText := if ascending then "ascending" else "descending" in
      _ <- deref announcer ;;
      modify (set_announcer []) ;;
      modify (fun p =>
        set_timers
          (timers p ++
             [js "Table sorted by " ++ columnName ++ js ", "
                ++ js dirText ++ js "."]) p)
  end.

(** The click listener of the sort button [i]. *)
Definition sortClick (i : nat) : M Page unit :=
  btn <- deref (fun p => sortButtons p !! i) ;;
  let th := btn_th btn in
  let colIndex := parseInt10 (data_col btn) in
  match th, colIndex with
  | Some th, Some colIndex => sortTable colIndex th
  | _, _ => ret tt
  end.

(** [initSortableTable] *)
Definition initSortableTable : M Page unit :=
  p <- gets id ;;
  if table p && bool_decide (is_Some (tbody p))
     && bool_decide (is_Some (announcer p))
  then
    modify (set_sortState {| col := -1; dir := asc |}) ;;
    modify (fun p => set_listeners (seq 0 (length (sortButtons p))) p)
  else ret tt.

(** A click reaching the sort button [i]. *)
Definition click (i : nat) : M Page unit :=
  p <- gets id ;;
  if bool_decide (i ∈ listeners p) then sortClick i else ret tt.

(** The oldest pending timer fires. *)
Definition timeout : M Page unit :=
  p <- gets id ;;
  match timers p with
  | [] => ret tt
  | t :: ts => modify (set_timers ts) ;; modify (set_announcer t)
  end.

End Sorter.

(** A collation to run examples with: code units compared in order. *)
Fixpoint codeUnitOrder (a b : jsstring) : Z :=
  match a, b with
  | [], [] => 0
  | [], _ :: _ => -1
  | _ :: _, [] => 1
  | x :: a, y :: b =>
      if (x <? y)%N then -1 else if (y <? x)%N then 1 else codeUnitOrder a b
  end.

(** *** Observations *)

(** In the words of the specification: the entire string is a number,
    a decimal literal with nothing after it. *)
Definition wholeNumber (s : jsstring) : bool :=
  match strDecimalLiteral s with
  | Some (_, []) => true
  | _ => false
  end.

(** The string starts like a number: after an optional sign comes
    [Infinity], a digit, or a dot and a digit. *)
Definition numericPrefix (s : jsstring) : bool :=
  let '(_, s1) := spanSign s in
  isPrefix (js "Infinity") s1
  || match s1 with
     | c :: r =>
         isDigit c
         || ((c =? 46)%N && match r with d :: _ => isDigit d | [] => false end)
     | [] => false
     end.

(** The order [Array.prototype.sort] reads off a comparator: the sign
    of what it returns for two elements, and "comes before". *)
Definition ord {A} (cmp : A -> A -> completion number) (x y : A)
  : comparison :=
  match cmp x y with Normal v => sign v | Throw => Eq end.

Definition before {A} (cmp : A -> A -> completion number) (x y : A) : Prop :=
  ord cmp x y = Lt.

(** The direction rule of [sortTable]: the state after a sort of the
    column [c]. *)
Definition nextState (s : SortState) (c : Z) : SortState :=
  if bool_decide (col s = c)
  then {| col := col s; dir := match dir s with asc => desc | desc => asc end |}
  else {| col := c; dir := asc |}.

(** A header of the table that carries a marker other than "none". *)
Definition marked (t : Th) : Prop :=
  exists v, aria_sort t = Some v /\ v ≠ "none"%string.

(** The headers after the markers are reset. *)
Definition resetMarker (t : Th) : Th :=
  if in_table t && bool_decide (is_Some (aria_sort t))
  then set_aria_sort "none" t else t.

(** A row of one cell. *)
Definition row1 (i : nat) (text : string) : Row :=
  {| row_id := i; cells := [js text] |}.

(** A page to run the sorter on: two columns, their headers and sort
    buttons, and the given rows. *)
Definition sampleTh (l : string) : Th :=
  {| in_table := true; aria_sort := Some "none"%string;
     label := Some (js l) |}.

Definition samplePage (rows : list Row) : Page :=
  {| table := true; tbody := Some rows; announcer := Some [];
     ths := [sampleTh "Course"; sampleTh "Credits"];
     sortButtons := [ {| btn_th := Some 0%nat; data_col := Some (js "0") |};
                      {| btn_th := Some 1%nat; data_col := Some (js "1") |} ];
     sortState := {| col := -1; dir := asc |};
     timers := []; listeners := [] |}.

Definition sampleRows : list Row :=
  [ {| row_id := 0; cells := [js "Logic"; js "3"] |};
    {| row_id := 1; cells := [js "Algebra"; js "10"] |} ].

(** The text the pending timer of a sort writes into the live region. *)
Definition announcement (columnName : jsstring) (d : Dir) : jsstring :=
  js "Table sorted by " ++ columnName ++ js ", " ++ js (dirText d) ++ js ".".

(** The page once [sortTable] has set the state [s], put the rows back
    in the order [rows] and marked the header [clickedTh]. *)
Definition afterSort (s : SortState) (rows : list Row) (clickedTh : nat)
    (p : Page) : Page :=
  set_ths (alter (set_aria_sort (dirText (dir s))) clickedTh
             (resetMarker <$> ths p))
    (set_tbody rows (set_sortState s p)).

(** The number the comparator reads in the cell of a row, when it reads
    a finite one. *)
Definition cellNumber (colIndex : Z) (row : Row) : option Q :=
  match cellText colIndex row with
  | Some text =>
      match parseFloat (trim text) with
      | Fin q => Some q
      | _ => None
      end
  | None => None
  end.

(** The order of two rows by the numbers in a column, in a direction. *)
Definition numberOrder (d : Dir) (colIndex : Z) (a b : Row) : Prop :=
  match cellNumber colIndex a, cellNumber colIndex b with
  | Some x, Some y =>
      match d with asc => (x <= y)%Q | desc => (y <= x)%Q end
  | _, _ => False
  end.

(** The cell of a row in a column reads as the number [q]. *)
Definition hasNumber (colIndex : Z) (q : Q) (row : Row) : bool :=
  match cellNumber colIndex row with
  | Some x => match (x ?= q)%Q with Eq => true | _ => false end
  | None => false
  end.

(** The states of the page once the controller has started on [p0]:
    clicks reach the sort buttons and pending timers fire, in any
    order. *)
Inductive reachable (localeCompare : jsstring -> jsstring -> Z) (p0 : Page)
  : Page -> Prop :=
  | reach_init : reachable localeCompare p0 (initSortableTable p0).2
  | reach_click p i :
      reachable localeCompare p0 p ->
      reachable localeCompare p0 (click localeCompare i p).2
  | reach_timeout p :
      reachable localeCompare p0 p -> reachable localeCompare p0 (timeout p).2.


End Table.

(** * Properties *)

(** ** Strings *)

Module JSFacts.
Import JS.

Lemma trimStart_blank s : forallb isWhiteSpace s = true -> trimStart s = [].
Proof.
  induction s as [|c s IH]; simpl; [done|].
  intros [Hc Hs]%andb_prop. rewrite Hc. auto.
Qed.

Lemma trimStart_app_blank s w :
  forallb isWhiteSpace w = true ->
  trimStart (w ++ s) = trimStart s.
Proof.
  induction w as [|c w IH]; simpl; [done|].
  intros [Hc Hw]%andb_prop. rewrite Hc. auto.
Qed.

Lemma trimStart_head c s :
  isWhiteSpace c = false -> trimStart (c :: s) = c :: s.
Proof. intros H. simpl. by rewrite H. Qed.

Lemma trim_blank s : forallb isWhiteSpace s = true -> trim s = [].
Proof. intros H. unfold trim, trimEnd. by rewrite (trimStart_blank s H). Qed.

Lemma last_rev_head (s : jsstring) c :
  s ≠ [] -> exists r, rev s = List.last s c :: r.
Proof.
  intros Hs. destruct (exists_last Hs) as (r & x & ->).
  exists (rev r). rewrite rev_app_distr. simpl. f_equal.
  by rewrite List.last_last.
Qed.

(** [trim] strips a blank prefix and a blank suffix around a trimmed
    string, and nothing else. *)
Lemma trim_around w1 s w2 :
  forallb isWhiteSpace w1 = true ->
  forallb isWhiteSpace w2 = true ->
  trimmed s = true ->
  trim (w1 ++ s ++ w2) = s.
Proof.
  intros H1 H2 Hs. unfold trim, trimEnd.
  rewrite (trimStart_app_blank _ _ H1).
  destruct s as [|c s].
  - simpl. by rewrite (trimStart_blank _ H2).
  - simpl in Hs. apply andb_prop in Hs as [Hc Hl].
    apply negb_true_iff in Hc, Hl.
    cbn [app]. rewrite (trimStart_head _ _ Hc).
    change (c :: s ++ w2) with ((c :: s) ++ w2).
    rewrite rev_app_distr.
    rewrite trimStart_app_blank.
    + destruct (last_rev_head (c :: s) 0%N) as [r Hr]; [done|].
      rewrite Hr. change (List.last (c :: s) 0%N) with
        (match s with [] => c | _ :: _ => List.last s 0%N end) in Hl.
      rewrite trimStart_head.
      * by rewrite <- Hr, rev_involutive.
      * exact Hl.
    + rewrite forallb_forall in *. intros x Hx. apply H2.
      by apply in_rev.
Qed.

Lemma trim_trimmed s : trimmed s = true -> trim s = s.
Proof.
  intros H. pose proof (trim_around [] s [] eq_refl eq_refl H) as E.
  by rewrite app_nil_r in E.
Qed.

Lemma trimStart_snoc l c :
  isWhiteSpace c = false -> exists l', trimStart (l ++ [c]) = l' ++ [c].
Proof.
  intros Hc. induction l as [|x l IH]; simpl.
  - rewrite Hc. by exists [].
  - destruct (isWhiteSpace x); [done|]. by exists (x :: l).
Qed.

(** A trimmed string has no white space at its start. *)
Lemma trimStart_trim s : trimStart (trim s) = trim s.
Proof.
  unfold trim, trimEnd.
  destruct (trimStart s) as [|c t] eqn:E; [done|].
  assert (Hc : isWhiteSpace c = false).
  { clear -E. induction s as [|x s IH]; simpl in E; [done|].
    destruct (isWhiteSpace x) eqn:Hx; [auto|]. by injection E as -> _. }
  simpl. destruct (trimStart_snoc (rev t) c Hc) as [l' ->].
  rewrite rev_app_distr. simpl. by rewrite Hc.
Qed.

(** *** Regular expressions: [test] decides the language *)

Lemma matches_void_inv s : ~ matches Void s.
Proof. intros H. inversion H. Qed.

Lemma matches_eps_inv s : matches Eps s <-> s = [].
Proof.
  split; [intros H; by inversion H|intros ->; constructor].
Qed.

Lemma matches_class_inv p s :
  matches (Class p) s <-> exists c, s = [c] /\ p c = true.
Proof.
  split.
  - intros H. inversion H; subst. eauto.
  - intros (c & -> & H). by constructor.
Qed.

Lemma matches_cat_inv r t s :
  matches (Cat r t) s <-> exists u v, s = u ++ v /\ matches r u /\ matches t v.
Proof.
  split.
  - intros H. inversion H; subst. eauto.
  - intros (u & v & -> & Hu & Hv). by constructor.
Qed.

Lemma matches_alt_inv r t s :
  matches (Alt r t) s <-> matches r s \/ matches t s.
Proof.
  split.
  - intros H. inversion H; subst; auto.
  - intros [H|H]; [by apply matches_alt_l|by apply matches_alt_r].
Qed.

Lemma nullable_matches r : nullable r = true <-> matches r [].
Proof.
  induction r as [| |p|r IHr s IHs|r IHr s IHs|r IHr]; simpl.
  - split; [done|intros H; by apply matches_void_inv in H].
  - by rewrite matches_eps_inv.
  - rewrite matches_class_inv. split; [done|by intros (c & [=] & _)].
  - rewrite andb_true_iff, IHr, IHs, matches_cat_inv. split.
    + intros [H1 H2]. by exists [], [].
    + intros (u & v & E & Hu & Hv). symmetry in E.
      apply app_eq_nil in E as [-> ->]. done.
  - by rewrite orb_true_iff, IHr, IHs, matches_alt_inv.
  - split; [constructor|done].
Qed.

Lemma matches_star_cons_inv r c s :
  matches (Star r) (c :: s) ->
  exists u v, s = u ++ v /\ matches r (c :: u) /\ matches (Star r) v.
Proof.
  intros H. remember (Star r) as R eqn:ER. remember (c :: s) as w eqn:Ew.
  revert s Ew.
  induction H as [| | | | | |r' u v Hu _ Hv IHv]; intros x Ew; try done.
  injection ER as ->. destruct u as [|c' u]; simpl in Ew.
  - by apply IHv.
  - injection Ew as -> <-. by exists u, v.
Qed.

Lemma matches_cat_cons_inv r t c s :
  matches (Cat r t) (c :: s) <->
  (exists u v, s = u ++ v /\ matches r (c :: u) /\ matches t v)
  \/ (matches r [] /\ matches t (c :: s)).
Proof.
  rewrite matches_cat_inv. split.
  - intros (u & v & E & Hu & Hv). destruct u as [|c' u]; simpl in E.
    + right. by subst v.
    + injection E as <- ->. left. by exists u, v.
  - intros [(u & v & -> & Hu & Hv)|[Hr Ht]].
    + by exists (c :: u), v.
    + by exists [], (c :: s).
Qed.

Lemma deriv_matches c r s : matches (deriv c r) s <-> matches r (c :: s).
Proof.
  revert s.
  induction r as [| |p|r IHr t IHt|r IHr t IHt|r IHr]; intros s; simpl.
  - split; intros H; by apply matches_void_inv in H.
  - split; intros H; [by apply matches_void_inv in H|].
    by apply matches_eps_inv in H.
  - rewrite matches_class_inv. destruct (p c) eqn:Hp.
    + rewrite matches_eps_inv. split; [intros ->; by exists c|].
      by intros (c' & [= _ ->] & _).
    + split; [intros H; by apply matches_void_inv in H|].
      intros (c' & [= -> _] & H). congruence.
  - rewrite matches_cat_cons_inv.
    assert (matches (Cat (deriv c r) t) s <->
            exists u v, s = u ++ v /\ matches r (c :: u) /\ matches t v)
      as Hleft.
    { rewrite matches_cat_inv. by setoid_rewrite IHr. }
    destruct (nullable r) eqn:Hn.
    + rewrite matches_alt_inv, Hleft, IHt.
      pose proof (proj1 (nullable_matches r) Hn). tauto.
    + rewrite Hleft. split; [tauto|]. intros [H|[H _]]; [done|].
      apply nullable_matches in H. congruence.
  - by rewrite !matches_alt_inv, IHr, IHt.
  - rewrite matches_cat_inv. split.
    + intros (u & v & -> & Hu & Hv). change (c :: u ++ v) with ((c :: u) ++ v).
      constructor; [by apply IHr|done].
    + intros H.
      destruct (matches_star_cons_inv r c s H) as (u & v & E & Hu & Hv).
      exists u, v. by rewrite IHr.
Qed.

(** [test] accepts a string exactly when the whole of it is in the
    language of the expression. *)
Lemma test_matches r s : test r s = true <-> matches r s.
Proof.
  unfold test. revert r. induction s as [|c s IH]; intros r; simpl.
  - apply nullable_matches.
  - rewrite IH. apply deriv_matches.
Qed.

Lemma matches_star_class p s :
  matches (Star (Class p)) s <-> forallb p s = true.
Proof.
  split.
  - intros H. remember (Star (Class p)) as R eqn:ER.
    induction H as [| | | | | |r u v Hu _ Hv IHv]; try done.
    injection ER as ->. apply matches_class_inv in Hu as (c & -> & Hc).
    simpl. apply andb_true_intro. auto.
  - induction s as [|c s IH]; simpl; [constructor|].
    intros [Hc Hs]%andb_prop. change (c :: s) with ([c] ++ s).
    constructor; [by constructor|auto].
Qed.

Lemma matches_plus_class p s :
  matches (Plus (Class p)) s <-> s ≠ [] /\ forallb p s = true.
Proof.
  unfold Plus. rewrite matches_cat_inv. split.
  - intros (u & v & -> & Hu & Hv).
    apply matches_class_inv in Hu as (c & -> & Hc).
    apply matches_star_class in Hv. simpl.
    split; [done|]. apply andb_true_intro. auto.
  - intros [Hn H]. destruct s as [|c s]; [done|]. simpl in H.
    apply andb_prop in H as [Hc Hs]. exists [c], s.
    split; [done|]. split; [by constructor|by apply matches_star_class].
Qed.

(** *** Numbers: rounding *)

Lemma isNaN_roundBinary64 q : isNaN (roundBinary64 q) = false.
Proof.
  unfold roundBinary64. destruct (_ =? 0); [done|]. cbv zeta.
  by destruct (2 ^ 1024 <=? _).
Qed.

Lemma fits_mono n d e e' :
  0 < n -> 0 < d -> e' <= e -> fits n d e -> fits n d e'.
Proof.
  intros Hn Hd He. unfold fits.
  destruct (Z.leb_spec 0 e) as [H|H], (Z.leb_spec 0 e') as [H'|H'];
    intros Hf; try lia.
  - pose proof (Z.pow_le_mono_r 2 e' e ltac:(lia) He).
    pose proof (Z.pow_pos_nonneg 2 e' ltac:(lia) H'). nia.
  - pose proof (Z.pow_pos_nonneg 2 e ltac:(lia) H).
    pose proof (Z.pow_pos_nonneg 2 (- e') ltac:(lia) ltac:(lia)). nia.
  - pose proof (Z.pow_le_mono_r 2 (- e) (- e') ltac:(lia) ltac:(lia)).
    pose proof (Z.pow_pos_nonneg 2 (- e) ltac:(lia) ltac:(lia)). nia.
Qed.

(** The binade is not above the logarithm. *)
Lemma binade_fits n d : 0 < n -> 0 < d -> fits n d (binade n d).
Proof.
  intros Hn Hd. unfold binade. cbv zeta.
  set (k := Z.log2 n - Z.log2 d).
  destruct (if 0 <=? k then _ else _) eqn:T.
  - unfold fits. destruct (0 <=? k); by apply Z.leb_le.
  - clear T.
    destruct (Z.log2_spec n Hn) as [Ln _].
    destruct (Z.log2_spec d Hd) as [_ Ld].
    pose proof (Z.log2_nonneg n) as Pn. pose proof (Z.log2_nonneg d) as Pd.
    unfold fits. destruct (Z.leb_spec 0 (k - 1)) as [H|H].
    + assert (E : 2 ^ Z.log2 n = 2 ^ Z.succ (Z.log2 d) * 2 ^ (k - 1)).
      { rewrite <- Z.pow_add_r by lia. f_equal. lia. }
      pose proof (Z.pow_pos_nonneg 2 (k - 1) ltac:(lia) H). nia.
    + assert (E : 2 ^ Z.succ (Z.log2 d) = 2 ^ Z.log2 n * 2 ^ (- (k - 1))).
      { rewrite <- Z.pow_add_r by lia. f_equal. lia. }
      pose proof (Z.pow_pos_nonneg 2 (- (k - 1)) ltac:(lia) ltac:(lia)). nia.
Qed.

Lemma roundHalfEven_pos a b : 0 < b -> b <= a -> 1 <= roundHalfEven a b.
Proof.
  intros Hb Ha.
  assert (1 <= a / b) by (apply Z.div_le_lower_bound; lia).
  unfold roundHalfEven. cbv zeta.
  destruct (2 * (a mod b) ?= b); [destruct (Z.even _)| |]; lia.
Qed.

Lemma Qcompare_0 q : (q ?= 0)%Q = (Qnum q ?= 0).
Proof. unfold Qcompare. simpl. by rewrite Z.mul_1_r. Qed.

Lemma Zcompare_mul_pos s p : 0 < p -> (s * p ?= 0) = (s ?= 0).
Proof.
  intros Hp. destruct (Z.compare_spec s 0) as [->|H|H].
  - done.
  - apply Z.compare_lt_iff. nia.
  - apply Z.compare_gt_iff. nia.
Qed.

Lemma scale2_compare s e : (scale2 s e ?= 0)%Q = (s ?= 0).
Proof.
  rewrite Qcompare_0. unfold scale2.
  destruct (Z.leb_spec 0 e) as [H|H]; cbn [Qnum inject_Z]; [|done].
  apply Zcompare_mul_pos. by apply Z.pow_pos_nonneg.
Qed.

(** Rounding keeps the sign of a rational that is zero or not nearer
    to zero than the least number. *)
Lemma sign_roundBinary64 q :
  Qnum q = 0 \/ Z.pos (Qden q) <= Z.abs (Qnum q) * 2 ^ 1074 ->
  sign (roundBinary64 q) = (q ?= 0)%Q.
Proof.
  intros H. rewrite Qcompare_0. unfold roundBinary64. cbv zeta.
  set (n := Z.abs (Qnum q)) in *. set (d := Z.pos (Qden q)) in *.
  destruct (Z.eqb_spec n 0) as [E0|E0].
  { assert (Qnum q = 0) as -> by lia. done. }
  assert (Hn : 0 < n) by lia. assert (Hd : 0 < d) by done.
  destruct H as [H|H]; [lia|].
  set (e := Z.max (binade n d - 52) (-1074)).
  assert (Hfit : fits n d e).
  { destruct (Z.max_spec (binade n d - 52) (-1074)) as [[_ E]|[_ E]];
      fold e in E; rewrite E.
    - unfold fits. by rewrite (proj2 (Z.leb_gt 0 (-1074))) by done.
    - apply (fits_mono n d (binade n d)); [done|done|lia|].
      by apply binade_fits. }
  set (m := if 0 <=? e then _ else _).
  assert (Hm : 1 <= m).
  { unfold m, fits in *. destruct (Z.leb_spec 0 e) as [He|He].
    - apply roundHalfEven_pos; [|done].
      pose proof (Z.pow_pos_nonneg 2 e ltac:(lia) He). nia.
    - by apply roundHalfEven_pos. }
  assert (Hs : ((if Qnum q <? 0 then - m else m) ?= 0) = (Qnum q ?= 0)).
  { destruct (Z.ltb_spec (Qnum q) 0) as [Hq|Hq].
    - rewrite (proj2 (Z.compare_lt_iff (Qnum q) 0)) by done.
      apply Z.compare_lt_iff. lia.
    - rewrite (proj2 (Z.compare_gt_iff (Qnum q) 0)) by lia.
      apply Z.compare_gt_iff. lia. }
  destruct (2 ^ 1024 <=? m * 2 ^ e).
  - rewrite <- Hs. simpl. destruct (Qnum q <? 0).
    + symmetry. apply Z.compare_lt_iff. lia.
    + symmetry. apply Z.compare_gt_iff. lia.
  - cbn [sign]. change 0%Q with (Qred 0).
    by rewrite <- Qred_compare, scale2_compare.
Qed.

Lemma pow_1074 : Z.pos (Z.to_pos (2 ^ 1074)) = 2 ^ 1074.
Proof. apply Z2Pos.id. by apply Z.pow_pos_nonneg. Qed.

Lemma scale2_multipleOfMin s e : -1074 <= e -> multipleOfMin (scale2 s e).
Proof.
  intros He. exists (s * 2 ^ (e + 1074)). unfold scale2, Qeq.
  destruct (Z.leb_spec 0 e) as [H|H]; cbn [Qnum Qden inject_Z];
    rewrite pow_1074.
  - rewrite Z.pow_add_r by lia. change (Z.pos 1) with 1. lia.
  - rewrite Z2Pos.id by (apply Z.pow_pos_nonneg; lia).
    rewrite <- Z.mul_assoc, <- Z.pow_add_r by lia.
    by replace (e + 1074 + - e) with 1074 by lia.
Qed.

(** What rounding gives, when finite, is a number. *)
Lemma roundBinary64_multipleOfMin q x :
  roundBinary64 q = Fin x -> multipleOfMin x.
Proof.
  unfold roundBinary64. cbv zeta. destruct (_ =? 0).
  { intros [= <-]. by exists 0. }
  destruct (2 ^ 1024 <=? _); [done|]. intros [= <-].
  match goal with
  | |- multipleOfMin (Qred (scale2 ?s ?e)) =>
      destruct (scale2_multipleOfMin s e (Z.le_max_r _ _)) as [k Hk]
  end.
  exists k. by rewrite Qred_correct.
Qed.

(** Two numbers are equal or at least the least number apart. *)
Lemma multipleOfMin_sub x y :
  multipleOfMin x -> multipleOfMin y ->
  Qnum (x - y) = 0
  \/ Z.pos (Qden (x - y)) <= Z.abs (Qnum (x - y)) * 2 ^ 1074.
Proof.
  intros [kx Hx] [ky Hy]. unfold Qeq in Hx, Hy.
  cbn [Qnum Qden] in Hx, Hy. rewrite pow_1074 in Hx, Hy.
  destruct x as [xn xd], y as [yn yd]. cbn [Qnum Qden] in *.
  unfold Qminus, Qplus, Qopp. cbn [Qnum Qden].
  rewrite Pos2Z.inj_mul.
  pose proof (Z.pow_pos_nonneg 2 1074 ltac:(lia) ltac:(lia)) as HT.
  set (T := 2 ^ 1074) in *. clearbody T.
  set (N := xn * Z.pos yd + - yn * Z.pos xd).
  assert (E : N * T = (kx - ky) * (Z.pos xd * Z.pos yd)) by (unfold N; nia).
  destruct (Z.eq_dec kx ky) as [->|Hne].
  - left. nia.
  - right.
    assert (E' : Z.abs N * T = Z.abs (kx - ky) * (Z.pos xd * Z.pos yd)).
    { rewrite <- (Z.abs_eq T) at 1 by lia.
      rewrite <- Z.abs_mul, E, Z.abs_mul.
      by rewrite (Z.abs_eq (Z.pos xd * Z.pos yd)) by lia. }
    rewrite E'. assert (1 <= Z.abs (kx - ky)) by lia. nia.
Qed.

(** The sign of a difference of two numbers is their order. *)
Lemma sign_sub x y :
  multipleOfMin x -> multipleOfMin y -> sign (sub (Fin x) (Fin y)) = (x ?= y)%Q.
Proof.
  intros Hx Hy. cbn [sub].
  rewrite sign_roundBinary64 by by apply multipleOfMin_sub.
  destruct x as [xn xd], y as [yn yd]. unfold Qcompare. simpl.
  rewrite Z.mul_1_r, (Z.compare_sub (xn * Z.pos yd)).
  f_equal. lia.
Qed.

(** [parseFloat] rounds what it reads: a tenth is the nearest number
    to it, 2^53 + 1 is read as 2^53, and a literal past the largest
    number as [Infinity]. *)
Example parseFloat_tenth :
  parseFloat (js "0.1") = Fin (3602879701896397 # 36028797018963968).
Proof. vm_compute. reflexivity. Qed.

Example parseFloat_rounds_integers :
  parseFloat (js "9007199254740993") = Fin 9007199254740992
  /\ parseFloat (js "9007199254740995") = Fin 9007199254740996.
Proof. split; vm_compute; reflexivity. Qed.

Example parseFloat_overflows :
  parseFloat (js "1e400") = Inf false
  /\ parseFloat (js "-1e400") = Inf true
  /\ parseFloat (js "1.7976931348623157e308")
     = Fin (inject_Z (2 ^ 1024 - 2 ^ 971)).
Proof. repeat split; vm_compute; reflexivity. Qed.

Example parseFloat_underflows :
  parseFloat (js "5e-324") = Fin (scale2 1 (-1074))
  /\ parseFloat (js "2e-324") = Fin 0.
Proof. split; vm_compute; reflexivity. Qed.

(** A difference is rounded as well. *)
Example sub_rounds :
  sub (parseFloat (js "0.3")) (parseFloat (js "0.1"))
  = Fin (7205759403792793 # 36028797018963968)
  /\ sub (parseFloat (js "1e308")) (parseFloat (js "-1e308")) = Inf false.
Proof. split; vm_compute; reflexivity. Qed.

End JSFacts.

(** ** The modal dialog *)

Module ModalFacts.
Import JS Modal.

Lemma closeModal_eq p o h m f b :
  overlay p = Some o -> header p = Some h -> main p = Some m ->
  footer p = Some f -> openBtn p = Some b ->
  closeModal p = (Normal tt, closed o b p).
Proof.
  intros Ho Hh Hm Hf Hb.
  unfold closeModal, bind, setAriaHidden, setIsOpen, setInert, focus,
    removeEventListener, deref, modify, bind.
  simpl. rewrite Ho. simpl. rewrite Hh. simpl. rewrite Hm. simpl.
  rewrite Hf. simpl. rewrite Hb. done.
Qed.

Lemma not_registered l ls :
  Forall (fun l' => l_handler l' ≠ l_handler l) ls -> l ∉ ls.
Proof.
  intros H Hin. rewrite Forall_forall in H. by apply (H l Hin).
Qed.

Lemma addEventListener_fresh l p :
  Forall (fun l' => l_handler l' ≠ l_handler l) (listeners p) ->
  addEventListener l p = (Normal tt, set_listeners (listeners p ++ [l]) p).
Proof.
  intros H. unfold addEventListener, modify.
  by rewrite bool_decide_eq_false_2 by by apply not_registered.
Qed.

(** What the controller registers when it starts. *)
Lemma initModal_eq p o d ob cb :
  listeners p = [] ->
  overlay p = Some o -> dialog p = Some d ->
  openBtn p = Some ob -> closeBtn p = Some cb ->
  listeners (initModal p).2 = wiring o ob cb.
Proof.
  intros Hl Ho Hd Hob Hcb.
  unfold initModal. unfold bind at 1 2 3 4. unfold gets.
  rewrite Ho, Hd, Hob, Hcb.
  unfold bind at 1. rewrite addEventListener_fresh
    by (rewrite Hl; apply Forall_nil_2).
  unfold bind at 1. rewrite addEventListener_fresh
    by (cbn [listeners set_listeners]; rewrite Hl;
        apply Forall_cons_2; [simpl; discriminate|apply Forall_nil_2]).
  rewrite addEventListener_fresh
    by (cbn [listeners set_listeners]; rewrite Hl;
        repeat (apply Forall_cons_2; [simpl; discriminate|]);
        apply Forall_nil_2).
  cbn [listeners set_listeners snd]. by rewrite Hl.
Qed.

Lemma dialogFocusable_eq p d :
  dialog p = Some d -> dialogFocusable p = (Normal (focusCycle p d), p).
Proof.
  intros Hd. unfold dialogFocusable, bind, deref, gets, ret. by rewrite Hd.
Qed.

Lemma handleModalKeydown_eq ev p d :
  dialog p = Some d ->
  handleModalKeydown ev p =
    let focusableEls := focusCycle p d in
    if bool_decide (e_key ev = "Escape"%string) then closeModal p
    else if bool_decide (e_key ev = "Tab"%string) then
      if bool_decide (length focusableEls = 0%nat) then
        (Normal tt, set_defaultPrevented true p)
      else if e_shiftKey ev then
        if bool_decide (activeElement p = head focusableEls) then
          focus (last focusableEls) (set_defaultPrevented true p)
        else (Normal tt, p)
      else
        if bool_decide (activeElement p = last focusableEls) then
          focus (head focusableEls) (set_defaultPrevented true p)
        else (Normal tt, p)
    else (Normal tt, p).
Proof.
  intros Hd. unfold handleModalKeydown. unfold bind at 1.
  rewrite (dialogFocusable_eq p d Hd). cbv zeta.
  destruct (bool_decide (e_key ev = "Escape"%string)); [done|].
  destruct (bool_decide (e_key ev = "Tab"%string)); [|done].
  destruct (bool_decide (length (focusCycle p d) = 0%nat)); [done|].
  unfold bind at 1. unfold gets.
  destruct (e_shiftKey ev); by case_bool_decide.
Qed.

(** The controller does nothing when one of the four elements it looks
    up is missing. *)
Lemma initModal_declines p :
  overlay p = None \/ dialog p = None \/ openBtn p = None
  \/ closeBtn p = None ->
  initModal p = (Normal tt, p).
Proof.
  intros H. unfold initModal, bind, gets, ret.
  destruct (overlay p), (dialog p), (openBtn p), (closeBtn p);
    try done; by destruct H as [H | [H | [H | H]]].
Qed.

(** The registration of [openModal]: on the button that opens the
    dialog, for clicks. *)
Lemma openModal_registered p0 l :
  listeners p0 = [] ->
  l ∈ listeners (initModal p0).2 -> l_handler l = OpenModal ->
  exists b, openBtn p0 = Some b /\ l_target l = Elem b
            /\ l_type l = "click"%string.
Proof.
  intros H0 Hin Hh.
  destruct (overlay p0) as [o|] eqn:Ho, (dialog p0) as [d|] eqn:Hd,
    (openBtn p0) as [ob|] eqn:Hob, (closeBtn p0) as [cb|] eqn:Hcb;
    try (rewrite initModal_declines in Hin by auto;
         simpl in Hin; rewrite H0 in Hin; by apply elem_of_nil in Hin).
  rewrite (initModal_eq p0 o d ob cb) in Hin by done.
  exists ob. split; [done|].
  repeat (apply elem_of_cons in Hin as [-> | Hin]; [by simpl in *|]).
  by apply elem_of_nil in Hin.
Qed.

(** [openModal], on a page that holds what it reads, binds the keydown
    listener after the click listeners; [closeModal] leaves the click
    listeners alone. *)
Lemma openModal_listeners p o d b cb h m f :
  overlay p = Some o -> dialog p = Some d ->
  header p = Some h -> main p = Some m -> footer p = Some f ->
  listeners p = wiring o b cb ->
  exists p', openModal p = (Normal tt, p')
             /\ listeners p' = wiring o b cb ++ [keydownListener].
Proof.
  intros Ho Hd Hh Hm Hf Hw.
  unfold openModal, setAriaHidden, setIsOpen, setInert.
  unfold bind at 1 2. unfold deref at 1, modify at 1. rewrite Ho.
  unfold bind at 1 2. unfold deref at 1, modify at 1.
  cbn [overlay set_overlay].
  unfold bind at 1 2. unfold deref at 1, modify at 1.
  cbn [landmark header set_overlay]. rewrite Hh.
  unfold bind at 1 2. unfold deref at 1, modify at 1.
  cbn [landmark main set_overlay set_landmark]. rewrite Hm.
  unfold bind at 1 2. unfold deref at 1, modify at 1.
  cbn [landmark footer set_overlay set_landmark]. rewrite Hf.
  unfold bind at 1. rewrite (dialogFocusable_eq _ d) by done.
  match goal with
  | |- context [focusCycle ?q d] => set (cycle := focusCycle q d)
  end.
  unfold bind at 1.
  assert (Hfocus : exists e, forall q : Page, dialog q = Some d ->
            (if bool_decide (length cycle ≠ 0%nat) then focus (head cycle)
             else d' <- deref dialog ;; focus (Some (dialogEl d'))) q
            = (Normal tt, set_activeElement (Some e) q)).
  { destruct cycle as [|x cycle'].
    - exists (dialogEl d). intros q E. simpl. unfold bind, deref.
      by rewrite E.
    - by exists x. }
  destruct Hfocus as [e Hfocus]. rewrite Hfocus by done.
  rewrite addEventListener_fresh.
  - eexists. split; [done|]. cbn [listeners set_listeners set_activeElement
      set_landmark set_overlay]. by rewrite Hw.
  - cbn [listeners set_activeElement set_landmark set_overlay]. rewrite Hw.
    unfold wiring.
    repeat (apply Forall_cons_2; [simpl; discriminate|]). apply Forall_nil_2.
Qed.

Lemma closed_listeners p o b cb :
  listeners p = wiring o b cb ++ [keydownListener] ->
  listeners (closed o b p) = wiring o b cb.
Proof.
  intros Hw. cbn [listeners closed]. rewrite Hw. unfold wiring.
  rewrite filter_app. simpl. by do 3 f_equal.
Qed.

(** *** Dispatch while the dialog is open *)

Section Open.

Context (p : Page) (o : Overlay) (b cb : ElemId).
Hypothesis wired : listeners p = wiring o b cb ++ [keydownListener].

(** A keydown reaches the document: [handleModalKeydown] runs, alone. *)
Lemma fire_keydown ev :
  e_type ev = "keydown"%string ->
  fire Document ev p =
    let '(c, p') := handleModalKeydown ev (set_defaultPrevented false p) in
    (completed c, p').
Proof.
  intros Ht. unfold fire. rewrite wired. unfold wiring.
  cbn [app runListeners l_target l_type l_handler keydownListener runHandler].
  repeat (case_bool_decide as E; [by destruct E|clear E]).
  case_bool_decide as E; [clear E|by destruct E].
  destruct (handleModalKeydown ev _) as [c p']. by rewrite andb_true_r.
Qed.

(** A click reaches the close button: [closeModal] runs, alone. *)
Lemma fire_close ev :
  e_type ev = "click"%string -> b ≠ cb -> cb ≠ ov_el o ->
  fire (Elem cb) ev p =
    let '(c, p') := closeModal (set_defaultPrevented false p) in
    (completed c, p').
Proof.
  intros Ht N1 N2. unfold fire. rewrite wired. unfold wiring.
  cbn [app runListeners l_target l_type l_handler keydownListener runHandler].
  case_bool_decide as E; [destruct E as [[=] _]; congruence|clear E].
  case_bool_decide as E; [clear E|by destruct E].
  destruct (closeModal _) as [c p'].
  case_bool_decide as E; [destruct E as [[=] _]; congruence|clear E].
  case_bool_decide as E; [by destruct E|clear E].
  by rewrite andb_true_r.
Qed.

(** A click reaches the overlay: its click listener runs, alone. *)
Lemma fire_overlay ev :
  e_type ev = "click"%string -> b ≠ ov_el o -> cb ≠ ov_el o ->
  fire (Elem (ov_el o)) ev p =
    let '(c, p') := overlayClick ev (set_defaultPrevented false p) in
    (completed c, p').
Proof.
  intros Ht N1 N2. unfold fire. rewrite wired. unfold wiring.
  cbn [app runListeners l_target l_type l_handler keydownListener runHandler].
  case_bool_decide as E; [destruct E as [[=] _]; congruence|clear E].
  case_bool_decide as E; [destruct E as [[=] _]; congruence|clear E].
  case_bool_decide as E; [clear E|by destruct E].
  destruct (overlayClick ev _) as [c p'].
  case_bool_decide as E; [by destruct E|clear E].
  by rewrite andb_true_r.
Qed.

End Open.

(** C3: while the dialog is open (the keydown listener is bound after
    the click listeners), by whichever way it is closed (Escape, a
    click on the close control, a click on the overlay itself),
    [closeModal] runs and completes: it moves focus to the button that
    opens the dialog, the one element [openModal] is registered on,
    takes [inert] off the three landmarks and removes the keydown
    listener. *)
Theorem close_restores p o d b cb h m f shift :
  overlay p = Some o -> dialog p = Some d ->
  openBtn p = Some b -> closeBtn p = Some cb ->
  header p = Some h -> main p = Some m -> footer p = Some f ->
  b ≠ cb -> b ≠ ov_el o -> cb ≠ ov_el o ->
  listeners p = wiring o b cb ++ [keydownListener] ->
  let p' := closed o b (set_defaultPrevented false p) in
  fire Document (keydown "Escape" shift) p = (true, p')
  /\ fire (Elem cb) (clickOn cb) p = (true, p')
  /\ fire (Elem (ov_el o)) (clickOn (ov_el o)) p = (true, p')
  /\ activeElement p' = Some b
  /\ header p' = Some false /\ main p' = Some false
  /\ footer p' = Some false
  /\ (keydownListener ∉ listeners p')
  /\ (forall l, l ∈ listeners p -> l_handler l = OpenModal ->
                l_target l = Elem b /\ l_type l = "click"%string).
Proof.
  intros Ho Hd Hb Hcb Hh Hm Hf N1 N2 N3 Hw p'.
  pose proof (closeModal_eq (set_defaultPrevented false p) o h m f b
                Ho Hh Hm Hf Hb) as Hc.
  assert (Hreg : forall l, l ∈ listeners p -> l_handler l = OpenModal ->
                           l_target l = Elem b /\ l_type l = "click"%string).
  { intros l Hl Hh'. rewrite Hw in Hl. unfold wiring in Hl. simpl in Hl.
    repeat (apply elem_of_cons in Hl as [-> | Hl]; [by simpl in *|]).
    by apply elem_of_nil in Hl. }
  repeat split; try done.
  - rewrite (fire_keydown p o b cb Hw) by done.
    rewrite (handleModalKeydown_eq _ (set_defaultPrevented false p) d Hd).
    cbv zeta. cbn [e_key keydown].
    rewrite bool_decide_eq_true_2 by done. by rewrite Hc.
  - rewrite (fire_close p o b cb Hw) by done. by rewrite Hc.
  - rewrite (fire_overlay p o b cb Hw) by done.
    unfold overlayClick, bind, deref. cbn [overlay set_defaultPrevented].
    rewrite Ho. cbn [e_target clickOn].
    rewrite bool_decide_eq_true_2 by done. by rewrite Hc.
  - simpl. intros [Hn _]%list_elem_of_filter. by apply Hn.
  - by apply Hreg.
  - by apply Hreg.
Qed.

(** Escape on the sample dialog, once opened by a click on its button:
    focus was on the link of the dialog and returns to the button. *)
Lemma close_restores_witness :
  activeElement openedSample = Some 5%nat
  /\ activeElement (fire Document (keydown "Escape" false) openedSample).2
     = Some 3%nat.
Proof.
  split; [reflexivity|].
  destruct (close_restores openedSample openedOverlay sampleDialog 3 4
              true true true false
              eq_refl eq_refl eq_refl eq_refl eq_refl eq_refl eq_refl)
    as (H & _ & _ & Ha & _); [discriminate..|reflexivity|].
  rewrite H. exact Ha.
Defined.

(** C6: a keydown while the dialog is open, on a key other than Escape.
    Tab with focus on the last element of the focus cycle (computed
    anew from the dialog) suppresses the default and moves focus to the
    first; Shift+Tab with focus on the first suppresses the default and
    moves focus to the last; Tab or Shift+Tab with an empty cycle
    suppresses the default and leaves focus where it is; any other key,
    and Tab elsewhere in the cycle, passes through: the default is not
    suppressed and the page stays as it is. *)
Theorem focus_trap p o d b cb ev :
  dialog p = Some d ->
  listeners p = wiring o b cb ++ [keydownListener] ->
  e_type ev = "keydown"%string ->
  e_key ev ≠ "Escape"%string ->
  let cycle := focusCycle p d in
  let tab := e_key ev = "Tab"%string in
  (tab -> e_shiftKey ev = false -> cycle ≠ [] ->
   activeElement p = last cycle ->
   fire Document ev p =
     (true, set_activeElement (head cycle) (set_defaultPrevented true p)))
  /\ (tab -> e_shiftKey ev = true -> cycle ≠ [] ->
      activeElement p = head cycle ->
      fire Document ev p =
        (true, set_activeElement (last cycle) (set_defaultPrevented true p)))
  /\ (tab -> cycle = [] ->
      fire Document ev p = (true, set_defaultPrevented true p))
  /\ (tab -> e_shiftKey ev = false -> cycle ≠ [] ->
      activeElement p ≠ last cycle ->
      fire Document ev p = (true, set_defaultPrevented false p))
  /\ (tab -> e_shiftKey ev = true -> cycle ≠ [] ->
      activeElement p ≠ head cycle ->
      fire Document ev p = (true, set_defaultPrevented false p))
  /\ (~ tab -> fire Document ev p = (true, set_defaultPrevented false p)).
Proof.
  intros Hd Hw Hty Hesc cycle tab. subst tab.
  rewrite (fire_keydown p o b cb Hw ev Hty).
  rewrite (handleModalKeydown_eq ev (set_defaultPrevented false p) d Hd).
  cbv zeta.
  change (focusCycle (set_defaultPrevented false p) d) with cycle.
  change (activeElement (set_defaultPrevented false p))
    with (activeElement p).
  rewrite (bool_decide_eq_false_2 _ Hesc).
  assert (Hne : cycle ≠ [] ->
                bool_decide (length cycle = 0%nat) = false
                /\ (exists x, head cycle = Some x)
                /\ (exists y, last cycle = Some y)).
  { intros H. split; [|split].
    - apply bool_decide_eq_false_2. by destruct cycle.
    - destruct cycle; [done|eauto].
    - destruct (exists_last H) as (l & y & ->). rewrite last_snoc. eauto. }
  repeat split.
  - intros Ht Hs (E0 & [x Hx] & _)%Hne Ha.
    rewrite (bool_decide_eq_true_2 _ Ht), E0, Hs, (bool_decide_eq_true_2 _ Ha).
    by rewrite Hx.
  - intros Ht Hs (E0 & _ & [y Hy])%Hne Ha.
    rewrite (bool_decide_eq_true_2 _ Ht), E0, Hs, (bool_decide_eq_true_2 _ Ha).
    by rewrite Hy.
  - intros Ht Hc.
    rewrite (bool_decide_eq_true_2 _ Ht), Hc. done.
  - intros Ht Hs (E0 & _)%Hne Ha.
    by rewrite (bool_decide_eq_true_2 _ Ht), E0, Hs,
         (bool_decide_eq_false_2 _ Ha).
  - intros Ht Hs (E0 & _)%Hne Ha.
    by rewrite (bool_decide_eq_true_2 _ Ht), E0, Hs,
         (bool_decide_eq_false_2 _ Ha).
  - intros Ht. by rewrite (bool_decide_eq_false_2 _ Ht).
Qed.

(** Tab on the close button of the opened sample dialog, the last of
    its cycle, moves focus to the link, the first. *)
Lemma focus_trap_witness :
  focusCycle openedSample sampleDialog = [5; 4]%nat
  /\ fire Document (keydown "Tab" false)
       (set_activeElement (Some 4%nat) openedSample)
     = (true,
        set_activeElement (Some 5%nat)
          (set_defaultPrevented true
             (set_activeElement (Some 4%nat) openedSample))).
Proof.
  split; [reflexivity|].
  destruct (focus_trap (set_activeElement (Some 4%nat) openedSample)
              openedOverlay sampleDialog 3 4 (keydown "Tab" false)
              eq_refl eq_refl eq_refl)
    as (H & _).
  - discriminate.
  - apply H; [reflexivity..|discriminate|reflexivity].
Defined.

(** *** The focusable elements *)

Lemma Node_forall_ind (P : Node -> Prop) :
  (forall a children, Forall P children -> P (Element a children)) ->
  forall n, P n.
Proof.
  intros H. fix IH 1. intros [a children]. apply H.
  induction children as [|c cs IHcs]; constructor; [apply IH | exact IHcs].
Qed.

Lemma focusableFrom_hidden n : focusableFrom true n = [].
Proof.
  induction n as [a children IH] using Node_forall_ind. simpl.
  rewrite andb_false_r. simpl.
  induction IH as [|c cs Hc _ IHcs]; simpl; [done|]. by rewrite Hc, IHcs.
Qed.

Lemma flat_map_nil {A B} (f : A -> list B) l :
  (forall x, f x = []) -> flat_map f l = [].
Proof.
  intros H. induction l as [|x l IH]; simpl; [done|]. by rewrite H, IH.
Qed.

(** X1: nothing is focusable below something hidden: when the container, or
    an element above it, carries [hidden] or [aria-hidden="true"],
    [getFocusableElements] returns the empty array.  So the dialog has
    no focus cycle while its overlay, or something above the dialog,
    is hidden. *)
Theorem getFocusableElements_hidden hid a children :
  hid || hides a = true ->
  getFocusableElements hid (Element a children) = []
  /\ forall p,
       outer_hidden p
       || bool_decide (overlay p ≫= ov_aria_hidden = Some "true"%string)
       = hid ->
       focusCycle p (Element a children) = [].
Proof.
  intros H.
  assert (E : getFocusableElements hid (Element a children) = []).
  { simpl. rewrite H. apply flat_map_nil, focusableFrom_hidden. }
  split; [done|]. intros p Hp. unfold focusCycle. by rewrite Hp.
Qed.

(** The sample dialog while the overlay of the sample page carries
    [aria-hidden="true"]. *)
Lemma getFocusableElements_hidden_witness :
  getFocusableElements true sampleDialog = []
  /\ focusCycle samplePage sampleDialog = [].
Proof.
  destruct (getFocusableElements_hidden true
              {| el := 2; tag := TagOther; href := false; disabled := false;
                 tabindex := Some "-1"%string; hidden := false;
                 aria_hidden := None |}
              [Element (attrsOf 5 TagA) [];
               Element
                 {| el := 6; tag := TagOther; href := false;
                    disabled := false; tabindex := None; hidden := true;
                    aria_hidden := None |}
                 [Element (attrsOf 7 TagInput) []];
               Element (attrsOf 4 TagButton) []] eq_refl)
    as [H1 H2].
  split; [exact H1|]. apply (H2 samplePage). reflexivity.
Defined.

Lemma focusableFrom_sublist hid n :
  focusableFrom hid n
    `sublist_of` (el <$> List.filter matchesSelectors (subtree n)).
Proof.
  revert hid. induction n as [a children IH] using Node_forall_ind.
  intros hid. simpl.
  assert (flat_map (focusableFrom (hid || hides a)) children
            `sublist_of`
          (el <$> List.filter matchesSelectors (flat_map subtree children)))
    as Hrest.
  { generalize (hid || hides a). intros h.
    induction IH as [|c cs Hc _ IHcs]; simpl; [constructor|].
    rewrite List.filter_app, fmap_app. by apply sublist_app. }
  destruct (matchesSelectors a); simpl; [|done].
  destruct (negb (hid || hides a)); simpl.
  - by apply sublist_skip.
  - by apply sublist_cons.
Qed.

Lemma focusableFrom_visible n :
  visible n = true ->
  focusableFrom false n = el <$> List.filter matchesSelectors (subtree n).
Proof.
  induction n as [a children IH] using Node_forall_ind.
  unfold visible. simpl. intros [Ha Hcs]%andb_prop.
  apply negb_true_iff in Ha. rewrite Ha. simpl. rewrite andb_true_r.
  assert (flat_map (focusableFrom false) children
          = el <$> List.filter matchesSelectors (flat_map subtree children))
    as ->.
  { induction IH as [|c cs Hc _ IHcs]; simpl; [done|].
    simpl in Hcs. rewrite forallb_app in Hcs.
    apply andb_prop in Hcs as [H1 H2].
    rewrite List.filter_app, fmap_app, Hc, IHcs; done. }
  by destruct (matchesSelectors a).
Qed.

(** X2: [getFocusableElements] returns, in document order, descendants of
    the container that match the selector list, never the container
    itself; and when nothing is hidden (neither above the container nor
    in it) it returns every such descendant. *)
Theorem getFocusableElements_descendants hid container :
  getFocusableElements hid container
    `sublist_of` (el <$> List.filter matchesSelectors (descendants container))
  /\ (hid = false -> visible container = true ->
      getFocusableElements hid container
      = el <$> List.filter matchesSelectors (descendants container)).
Proof.
  destruct container as [a children]. split.
  - simpl. generalize (hid || hides a). intros h.
    induction children as [|c cs IH]; simpl; [constructor|].
    rewrite List.filter_app, fmap_app.
    apply sublist_app; [apply focusableFrom_sublist | done].
  - intros -> Hv. unfold visible in Hv. simpl in *.
    apply andb_prop in Hv as [Ha Hcs]. apply negb_true_iff in Ha.
    rewrite Ha. clear Ha.
    induction children as [|c cs IH]; simpl; [done|].
    simpl in Hcs. rewrite forallb_app in Hcs.
    apply andb_prop in Hcs as [H1 H2].
    rewrite List.filter_app, fmap_app, IH by done.
    by rewrite focusableFrom_visible.
Qed.

(** The one child of a visible container. *)
Lemma getFocusableElements_descendants_witness :
  getFocusableElements false
    (Element (attrsOf 2 TagOther) [Element (attrsOf 5 TagA) []])
  = [5%nat].
Proof.
  exact (proj2 (getFocusableElements_descendants false
                  (Element (attrsOf 2 TagOther) [Element (attrsOf 5 TagA) []]))
           eq_refl eq_refl).
Defined.

(** *** Opening *)

Lemma openModal_eq p o d h m f :
  overlay p = Some o -> dialog p = Some d ->
  header p = Some h -> main p = Some m -> footer p = Some f ->
  openModal p = (Normal tt, opened o d p).
Proof.
  destruct p as [ov dl oh ob cb' hd mn ft ae ls dp]. simpl.
  intros -> -> -> -> ->.
  unfold openModal, opened, setAriaHidden, setIsOpen, setInert,
    dialogFocusable, addEventListener.
  cbn [bind deref gets ret modify overlay landmark header main footer dialog
       outer_hidden set_overlay set_landmark ov_el ov_is_open
       ov_aria_hidden listeners activeElement defaultPrevented openBtn
       closeBtn option_bind mbind].
  rewrite (bool_decide_eq_false_2 (Some "false"%string = Some "true"%string))
    by done.
  rewrite orb_false_r.
  destruct (getFocusableElements oh d) as [|e cycle]; reflexivity.
Qed.

Lemma keydownListener_not_wired o b cb : keydownListener ∉ wiring o b cb.
Proof.
  unfold wiring. intros H.
  repeat (apply elem_of_cons in H as [[=] | H]). by apply elem_of_nil in H.
Qed.

(** A click reaches the open button of a shut dialog: [openModal] runs,
    alone. *)
Lemma fire_open p o b cb ev :
  listeners p = wiring o b cb ->
  e_type ev = "click"%string -> b ≠ cb -> b ≠ ov_el o ->
  fire (Elem b) ev p =
    let '(c, p') := openModal (set_defaultPrevented false p) in
    (completed c, p').
Proof.
  intros Hw Ht N1 N2. unfold fire. rewrite Hw. unfold wiring.
  cbn [app runListeners l_target l_type l_handler runHandler].
  case_bool_decide as E; [clear E|by destruct E].
  destruct (openModal _) as [c p'].
  case_bool_decide as E; [destruct E as [[=] _]; congruence|clear E].
  case_bool_decide as E; [destruct E as [[=] _]; congruence|clear E].
  by rewrite andb_true_r.
Qed.

(** X3: a click on the open button of a shut dialog: the overlay is exposed
    and shown, the three landmarks become inert, focus moves to the
    first focusable element of the dialog (the cycle being computed
    once the overlay is exposed), or to the dialog itself when it holds
    none, and the keydown listener is registered after the click
    listeners. *)
Theorem open_click p o d b cb h m f :
  overlay p = Some o -> dialog p = Some d ->
  header p = Some h -> main p = Some m -> footer p = Some f ->
  b ≠ cb -> b ≠ ov_el o ->
  listeners p = wiring o b cb ->
  exists p',
    fire (Elem b) (clickOn b) p = (true, p')
    /\ overlay p' = Some {| ov_el := ov_el o;
                            ov_aria_hidden := Some "false"%string;
                            ov_is_open := true |}
    /\ header p' = Some true /\ main p' = Some true /\ footer p' = Some true
    /\ activeElement p' =
         Some (match getFocusableElements (outer_hidden p) d with
               | e :: _ => e
               | [] => dialogEl d
               end)
    /\ focusCycle p' d = getFocusableElements (outer_hidden p) d
    /\ listeners p' = wiring o b cb ++ [keydownListener]
    /\ defaultPrevented p' = false.
Proof.
  intros Ho Hd Hh Hm Hf N1 N2 Hw.
  exists (opened o d (set_defaultPrevented false p)).
  rewrite (fire_open p o b cb) by done.
  rewrite (openModal_eq _ o d h m f) by done.
  repeat split.
  - unfold focusCycle. simpl. by rewrite orb_false_r.
  - simpl. rewrite Hw.
    rewrite bool_decide_eq_false_2 by apply keydownListener_not_wired. done.
Qed.

(** A click on the button of the sample page: focus moves to the link,
    the first element of the dialog that is focusable. *)
Lemma open_click_witness :
  exists p',
    fire (Elem 3) (clickOn 3) (initModal samplePage).2 = (true, p')
    /\ activeElement p' = Some 5%nat
    /\ listeners p' = listeners (initModal samplePage).2 ++ [keydownListener].
Proof.
  destruct (open_click (initModal samplePage).2
              {| ov_el := 1; ov_aria_hidden := Some "true"%string;
                 ov_is_open := false |}
              sampleDialog 3%nat 4%nat false false false)
    as (p' & H1 & _ & _ & _ & _ & H2 & _ & H3 & _);
    try reflexivity; try discriminate.
  exists p'. repeat split; [exact H1 | exact H2 | exact H3].
Defined.

(** X4: a click inside the open dialog reaches the overlay with another
    element as its target: the click listener of the overlay leaves the
    dialog open and the page as it is. *)
Theorem inside_click_keeps_open p o b cb ev :
  overlay p = Some o ->
  b ≠ ov_el o -> cb ≠ ov_el o ->
  listeners p = wiring o b cb ++ [keydownListener] ->
  e_type ev = "click"%string ->
  e_target ev ≠ Elem (ov_el o) ->
  fire (Elem (ov_el o)) ev p = (true, set_defaultPrevented false p).
Proof.
  intros Ho N1 N2 Hw Ht Hn.
  rewrite (fire_overlay p o b cb Hw) by done.
  unfold overlayClick, bind, deref. cbn [overlay set_defaultPrevented].
  rewrite Ho. by rewrite bool_decide_eq_false_2.
Qed.

(** A click on the link of the opened sample dialog, as it reaches the
    overlay. *)
Lemma inside_click_keeps_open_witness :
  fire (Elem 1) (clickOn 5) openedSample
  = (true, set_defaultPrevented false openedSample).
Proof.
  apply (inside_click_keeps_open openedSample openedOverlay 3%nat 4%nat);
    try reflexivity; discriminate.
Defined.

(** X5: opening and closing again: on a shut dialog with focus on the open
    button, a click on that button followed by Escape leaves the page
    exactly as it was. *)
Theorem open_escape_round_trip p o d b cb shift :
  overlay p = Some o -> dialog p = Some d ->
  openBtn p = Some b -> isShut b cb p ->
  b ≠ cb -> b ≠ ov_el o ->
  activeElement p = Some b -> defaultPrevented p = false ->
  fire Document (keydown "Escape" shift) (fire (Elem b) (clickOn b) p).2
  = (true, p).
Proof.
  intros Ho Hd Hb (o' & Ho' & Hah & Hio & Hh & Hm & Hf & Hw) N1 N2 Ha Hp.
  assert (o' = o) as -> by congruence.
  rewrite (fire_open p o b cb) by done.
  rewrite (openModal_eq _ o d false false false) by done.
  cbn [snd].
  assert (Hw' : listeners (opened o d (set_defaultPrevented false p))
                = wiring o b cb ++ [keydownListener]).
  { simpl. rewrite Hw.
    by rewrite bool_decide_eq_false_2 by apply keydownListener_not_wired. }
  rewrite (fire_keydown _ o b cb Hw') by done.
  rewrite (handleModalKeydown_eq _ _ d) by done.
  cbv zeta. cbn [e_key keydown].
  rewrite bool_decide_eq_true_2 by done.
  rewrite (closeModal_eq _ _ true true true b) by done.
  cbn [completed]. f_equal.
  destruct p as [ov dl oh ob cb' hd mn ft ae ls dp].
  destruct o as [oe oa oi].
  cbn [overlay dialog outer_hidden openBtn closeBtn header main footer
       activeElement listeners defaultPrevented ov_el ov_aria_hidden
       ov_is_open] in *.
  subst. unfold closed, opened, set_defaultPrevented.
  cbn [overlay dialog outer_hidden openBtn closeBtn header main footer
       activeElement listeners defaultPrevented ov_el ov_aria_hidden
       ov_is_open].
  rewrite bool_decide_eq_false_2 by apply keydownListener_not_wired.
  rewrite filter_app. unfold wiring at 1 2. simpl.
  do 10 f_equal.
Qed.

(** The page of the sample with focus on the open button. *)
Lemma open_escape_round_trip_witness :
  fire Document (keydown "Escape" false)
    (fire (Elem 3) (clickOn 3)
       (set_activeElement (Some 3%nat) (initModal samplePage).2)).2
  = (true, set_activeElement (Some 3%nat) (initModal samplePage).2).
Proof.
  apply (open_escape_round_trip _
           {| ov_el := 1; ov_aria_hidden := Some "true"%string;
              ov_is_open := false |}
           sampleDialog 3%nat 4%nat);
    try reflexivity; try discriminate.
  eexists. repeat split.
Defined.

(** *** The states the dialog reaches *)

Section States.

Context (d : Node) (b cb : ElemId).

Local Abbreviation settled := (settled d b cb).

Lemma wiring_filter o :
  filter (fun l => l ≠ keydownListener) (wiring o b cb) = wiring o b cb.
Proof. unfold wiring. simpl. by do 3 f_equal. Qed.

Lemma settled_present p :
  settled p ->
  exists o h m f, overlay p = Some o /\ header p = Some h /\ main p = Some m
                  /\ footer p = Some f /\ dialog p = Some d
                  /\ openBtn p = Some b.
Proof.
  intros [[(o & Ho & _ & _ & Hh & Hm & Hf & _)
          |(o & Ho & _ & _ & Hh & Hm & Hf & _)] [Hd Hb]];
    by exists o; eexists _, _, _.
Qed.

Lemma settled_openModal p :
  settled p -> exists p', openModal p = (Normal tt, p') /\ settled p'.
Proof.
  intros Hs. destruct (settled_present p Hs) as (o & h & m & f & Ho & Hh & Hm
                                                  & Hf & Hd & Hb).
  rewrite (openModal_eq p o d h m f) by done.
  eexists. split; [done|]. destruct Hs as [Hs _].
  split; [right|done].
  eexists. split; [reflexivity|]. repeat split. simpl.
  destruct Hs as [(o' & Ho' & _ & _ & _ & _ & _ & Hw)
                 |(o' & Ho' & _ & _ & _ & _ & _ & Hw)];
    assert (o' = o) as -> by congruence; rewrite Hw.
  - by rewrite bool_decide_eq_false_2 by apply keydownListener_not_wired.
  - rewrite bool_decide_eq_true_2; [done|].
    apply elem_of_app. right. by apply list_elem_of_singleton.
Qed.

Lemma settled_closeModal p :
  settled p -> exists p', closeModal p = (Normal tt, p') /\ settled p'.
Proof.
  intros Hs. destruct (settled_present p Hs) as (o & h & m & f & Ho & Hh & Hm
                                                  & Hf & Hd & Hb).
  rewrite (closeModal_eq p o h m f b) by done.
  eexists. split; [done|]. destruct Hs as [Hs _].
  split; [left|done].
  eexists. split; [reflexivity|]. repeat split. simpl.
  destruct Hs as [(o' & Ho' & _ & _ & _ & _ & _ & Hw)
                 |(o' & Ho' & _ & _ & _ & _ & _ & Hw)];
    assert (o' = o) as -> by congruence; rewrite Hw.
  - by rewrite wiring_filter.
  - rewrite filter_app, wiring_filter. simpl. by rewrite ?app_nil_r.
Qed.

(** A change of the focus or of the flag of the event changes neither
    state. *)
Lemma settled_frame p q :
  overlay q = overlay p -> dialog q = dialog p -> openBtn q = openBtn p ->
  header q = header p -> main q = main p -> footer q = footer p ->
  listeners q = listeners p ->
  settled p -> settled q.
Proof.
  intros Eo Ed Eb Eh Em Ef El [Hs [Hd Hb]].
  split; [|by rewrite Ed, Eb].
  destruct Hs as [(o & H)|(o & H)]; [left|right]; exists o;
    by rewrite Eo, Eh, Em, Ef, El.
Qed.

Lemma settled_focus p e :
  settled p ->
  exists p', focus (Some e) p = (Normal tt, p') /\ settled p'.
Proof.
  intros Hs. eexists. split; [reflexivity|].
  by apply (settled_frame p).
Qed.

Lemma settled_handleModalKeydown ev p :
  settled p ->
  exists p', handleModalKeydown ev p = (Normal tt, p') /\ settled p'.
Proof.
  intros Hs. pose proof Hs as [_ [Hd _]].
  rewrite (handleModalKeydown_eq ev p d Hd). cbv zeta.
  case_bool_decide; [by apply settled_closeModal|].
  case_bool_decide; [|by exists p].
  case_bool_decide as Hlen.
  { eexists. split; [done|]. by apply (settled_frame p). }
  assert (Hprev : settled (set_defaultPrevented true p))
    by by apply (settled_frame p).
  destruct (focusCycle p d) as [|x cycle] eqn:E; [done|].
  destruct (e_shiftKey ev); case_bool_decide; try by exists p.
  - destruct (last_is_Some (x :: cycle)) as [_ [y Hy]]; [done|].
    rewrite Hy. by apply settled_focus.
  - by apply settled_focus.
Qed.

Lemma settled_overlayClick ev p :
  settled p ->
  exists p', overlayClick ev p = (Normal tt, p') /\ settled p'.
Proof.
  intros Hs. destruct (settled_present p Hs) as (o & _ & _ & _ & Ho & _).
  unfold overlayClick, bind, deref. rewrite Ho.
  case_bool_decide; [by apply settled_closeModal|by exists p].
Qed.

Lemma settled_runHandler h ev p :
  settled p ->
  exists p', runHandler h ev p = (Normal tt, p') /\ settled p'.
Proof.
  destruct h; simpl;
    auto using settled_openModal, settled_closeModal, settled_overlayClick,
      settled_handleModalKeydown.
Qed.

Lemma settled_runListeners ls at_ ev p :
  settled p ->
  exists p', runListeners ls at_ ev p = (true, p') /\ settled p'.
Proof.
  revert p. induction ls as [|l ls IH]; intros p Hs; simpl; [by exists p|].
  case_bool_decide; [|by apply IH].
  destruct (settled_runHandler (l_handler l) ev p Hs) as (p1 & -> & H1).
  destruct (IH p1 H1) as (p2 & -> & H2). by exists p2.
Qed.

Lemma settled_fire at_ ev p :
  settled p -> exists p', fire at_ ev p = (true, p') /\ settled p'.
Proof.
  intros Hs. apply settled_runListeners. by apply (settled_frame p).
Qed.

Lemma initModal_sets_listeners p :
  exists ls, initModal p = (Normal tt, set_listeners ls p).
Proof.
  unfold initModal, bind, gets, addEventListener, modify, ret.
  destruct (overlay p), (dialog p), (openBtn p), (closeBtn p); simpl;
    try (exists (listeners p); by destruct p).
  eexists. reflexivity.
Qed.

Lemma settled_init p0 o :
  overlay p0 = Some o ->
  ov_aria_hidden o = Some "true"%string -> ov_is_open o = false ->
  dialog p0 = Some d -> openBtn p0 = Some b -> closeBtn p0 = Some cb ->
  header p0 = Some false -> main p0 = Some false -> footer p0 = Some false ->
  listeners p0 = [] ->
  settled (initModal p0).2.
Proof.
  intros Ho Hah Hio Hd Hb Hcb Hh Hm Hf Hl.
  pose proof (initModal_eq p0 o d b cb Hl Ho Hd Hb Hcb) as Hw.
  destruct (initModal_sets_listeners p0) as [ls E]. rewrite E in *.
  simpl in *. split; [left|done]. by exists o.
Qed.

Lemma settled_reachable p0 o p :
  overlay p0 = Some o ->
  ov_aria_hidden o = Some "true"%string -> ov_is_open o = false ->
  dialog p0 = Some d -> openBtn p0 = Some b -> closeBtn p0 = Some cb ->
  header p0 = Some false -> main p0 = Some false -> footer p0 = Some false ->
  listeners p0 = [] ->
  reachable p0 p -> settled p.
Proof.
  intros Ho Hah Hio Hd Hb Hcb Hh Hm Hf Hl Hr.
  induction Hr as [|p at_ ev _ IH].
  - by apply (settled_init p0 o).
  - by destruct (settled_fire at_ ev p IH) as (p' & -> & H').
Qed.

End States.

(** X6: on a page that holds the dialog shut and every element the handlers
    read, the dialog is, whatever events follow, in one of two states:
    shut (overlay hidden and not shown, no landmark inert, the three
    click listeners alone) or open (overlay exposed and shown, the
    three landmarks inert, the keydown listener bound after the click
    listeners).  So the keydown listener is never bound twice, however
    often the dialog is opened; and no listener ever throws. *)
Theorem dialog_shut_or_open p0 o d b cb p :
  overlay p0 = Some o ->
  ov_aria_hidden o = Some "true"%string -> ov_is_open o = false ->
  dialog p0 = Some d -> openBtn p0 = Some b -> closeBtn p0 = Some cb ->
  header p0 = Some false -> main p0 = Some false -> footer p0 = Some false ->
  listeners p0 = [] ->
  reachable p0 p ->
  (isShut b cb p \/ isOpen b cb p)
  /\ NoDup (listeners p)
  /\ forall at_ ev, (fire at_ ev p).1 = true.
Proof.
  intros Ho Hah Hio Hd Hb Hcb Hh Hm Hf Hl Hr.
  pose proof (settled_reachable d b cb p0 o p Ho Hah Hio Hd Hb Hcb Hh Hm Hf
                Hl Hr) as Hs.
  split; [apply Hs|]. split.
  - destruct Hs as [[(o' & _ & _ & _ & _ & _ & _ & ->)
                    |(o' & _ & _ & _ & _ & _ & _ & ->)] _];
      unfold wiring; simpl; repeat (apply NoDup_cons; split;
        [intros H; repeat (apply elem_of_cons in H as [[=] | H]);
         by apply elem_of_nil in H|]); apply NoDup_nil_2.
  - intros at_ ev.
    by destruct (settled_fire d b cb at_ ev p Hs) as (p' & -> & _).
Qed.

(** The sample page after a click on its open button, and a second
    click on that button. *)
Lemma dialog_shut_or_open_witness :
  (isShut 3 4 openedSample \/ isOpen 3 4 openedSample)
  /\ NoDup (listeners openedSample)
  /\ (fire (Elem 3) (clickOn 3) openedSample).1 = true.
Proof.
  destruct (dialog_shut_or_open samplePage
              {| ov_el := 1; ov_aria_hidden := Some "true"%string;
                 ov_is_open := false |} sampleDialog 3%nat 4%nat
              openedSample)
    as (H1 & H2 & H3); try reflexivity.
  - exact (reach_fire _ _ (Elem 3) (clickOn 3) (reach_init _)).
  - exact (conj H1 (conj H2 (H3 (Elem 3) (clickOn 3)))).
Defined.

End ModalFacts.

(** ** The form validator *)

Module FormFacts.
Import JS JSFacts Form.

Lemma alter_absent {A} (f : A -> A) (m : gmap string A) i :
  m !! i = None -> alter f i m = m.
Proof.
  intros H. apply map_eq. intros j. rewrite lookup_alter.
  case_decide; [subst; by rewrite H|done].
Qed.

Lemma set_elements_twice m1 m2 p :
  set_elements m2 (set_elements m1 p) = set_elements m2 p.
Proof. by destruct p. Qed.

Lemma set_elements_same p : set_elements (elements p) p = p.
Proof. by destruct p. Qed.

Lemma update_eq id g p :
  is_Some (elements p !! id) ->
  update (Some id) g p = (Normal tt, set_elements (alter g id (elements p)) p).
Proof.
  intros [e He]. unfold update, element, deref, bind, modify. simpl.
  by rewrite He.
Qed.

(** The write to the error container of a field, when the reference to
    it was taken on a page [p] with the same elements as [q]. *)
Lemma update_errorEl id g p q :
  (is_Some (elements q !! id) <-> is_Some (elements p !! id)) ->
  match (match elements p !! id with Some _ => Some id | None => None end)
  with
  | Some _ =>
      update (match elements p !! id with Some _ => Some id | None => None end)
        g
  | None => ret tt
  end q = (Normal tt, set_elements (alter g id (elements q)) q).
Proof.
  intros H. destruct (elements p !! id) as [e|] eqn:He.
  - apply update_eq. apply H. eauto.
  - unfold ret. rewrite alter_absent, set_elements_same; [done|].
    apply eq_None_not_Some. intros Hq%H. by destruct Hq.
Qed.

(** What [validateField] does to a page on which the field exists. *)
Lemma validateField_eq p id f :
  elements p !! id = Some f ->
  validateField (Some id) p =
    let msg := ruleMessage id (value f) in
    if falsy msg then
      (Normal true, set_elements (cleared id f (elements p)) p)
    else
      (Normal false,
       set_elements (flagged id f msg (cleared id f (elements p))) p).
Proof.
  intros Hf. unfold validateField, clearFieldError, setFieldError,
    setAttribute, removeAttribute, getElementById.
  unfold bind at 1. unfold element at 1, deref. simpl. rewrite Hf.
  unfold bind at 1. unfold gets at 1.
  unfold bind at 1. unfold bind at 1.
  rewrite update_eq by (by rewrite Hf).
  fold (describedBy f). fold clearInvalid. fold markInvalid.
  rewrite update_errorEl by (simpl; apply lookup_alter_is_Some).
  simpl. fold (cleared id f (elements p)).
  unfold bind at 1. unfold element, deref. simpl.
  assert (exists f', cleared id f (elements p) !! id = Some f'
                     /\ value f' = value f) as (f' & Hf' & Hv).
  { unfold cleared. rewrite lookup_alter. case_decide as E.
    - rewrite E, lookup_alter_eq, Hf. simpl. eauto.
    - rewrite lookup_alter_eq, Hf. simpl. eauto. }
  rewrite Hf', Hv.
  destruct (falsy (ruleMessage id (value f))); simpl; [done|].
  unfold bind at 1. unfold bind at 1.
  rewrite update_eq by (simpl; eauto).
  rewrite update_errorEl.
  - simpl. unfold ret. by rewrite set_elements_twice.
  - simpl. rewrite lookup_alter_is_Some. unfold cleared.
    by rewrite !lookup_alter_is_Some.
Qed.

Lemma describedBy_clearInvalid f : describedBy (clearInvalid f) = describedBy f.
Proof. unfold describedBy, clearInvalid. simpl. by rewrite lookup_delete_ne. Qed.

Lemma describedBy_markInvalid f : describedBy (markInvalid f) = describedBy f.
Proof. unfold describedBy, markInvalid. simpl. by rewrite lookup_insert_ne. Qed.

Lemma describedBy_set_textContent t f :
  describedBy (set_textContent t f) = describedBy f.
Proof. done. Qed.

(** After a write of [g] to the field and of the text [t] to its error
    container, in this order, the page shows the attributes [g] leaves
    and the text [t]. *)
Lemma shows_after (g : Element -> Element) t id f m p :
  m !! id = Some f ->
  is_Some (m !! describedBy f) ->
  (forall e, describedBy (g e) = describedBy e) ->
  (forall e, textContent (g e) = textContent e) ->
  let p' := set_elements
              (alter (set_textContent t) (describedBy f) (alter g id m)) p in
  ariaInvalid p' id = attrs (g f) !! "aria-invalid"%string
  /\ errorText p' id = Some t.
Proof.
  intros Hf [e He] Hd Ht p'. unfold ariaInvalid, errorText, p'. simpl.
  rewrite lookup_alter. case_decide as E.
  - rewrite E, lookup_alter_eq, Hf. simpl. split; [done|].
    rewrite describedBy_set_textContent, Hd, E.
    by rewrite lookup_alter_eq, lookup_alter_eq, Hf.
  - rewrite lookup_alter_eq, Hf. simpl. split; [done|].
    rewrite Hd, lookup_alter_eq, lookup_alter_ne, He by done. done.
Qed.

Lemma cleared_field id f m :
  m !! id = Some f ->
  exists f', cleared id f m !! id = Some f'
             /\ describedBy f' = describedBy f /\ value f' = value f.
Proof.
  intros Hf. unfold cleared. rewrite lookup_alter. case_decide as E.
  - rewrite E, lookup_alter_eq, Hf. simpl. eexists; split; [done|].
    split; [|done]. by rewrite describedBy_set_textContent, describedBy_clearInvalid.
  - rewrite lookup_alter_eq, Hf. simpl. eexists; split; [done|].
    split; [|done]. by rewrite describedBy_clearInvalid.
Qed.

Lemma cleared_is_Some id f m j :
  is_Some (cleared id f m !! j) <-> is_Some (m !! j).
Proof. unfold cleared. by rewrite !lookup_alter_is_Some. Qed.

(** The outcome of [validateField] on a field whose error container
    exists: the message of the rule table, shown with the marker, or no
    message and no marker. *)
Lemma validateField_outcome p id f :
  elements p !! id = Some f ->
  is_Some (elements p !! describedBy f) ->
  match ruleMessage id (value f) with
  | [] => passes p id
  | msg => yields p id msg
  end.
Proof.
  intros Hf He. pose proof (validateField_eq p id f Hf) as Hv. simpl in Hv.
  destruct (ruleMessage id (value f)) as [|c msg] eqn:Hm; simpl in Hv.
  - eexists; split; [exact Hv|].
    destruct (shows_after clearInvalid [] id f (elements p) p Hf He)
      as [Ha Ht]; [apply describedBy_clearInvalid|done|].
    fold (cleared id f (elements p)) in Ha, Ht. split; [|done].
    rewrite Ha. simpl. apply lookup_delete_eq.
  - eexists; split; [exact Hv|].
    destruct (cleared_field id f (elements p) Hf) as (f' & Hf' & Hd & _).
    destruct (shows_after markInvalid (c :: msg) id f'
                (cleared id f (elements p)) p Hf') as [Ha Ht].
    + rewrite Hd. by apply cleared_is_Some.
    + apply describedBy_markInvalid.
    + done.
    + rewrite Hd in Ha, Ht.
      fold (flagged id f (c :: msg) (cleared id f (elements p))) in Ha, Ht.
      split; [|done]. rewrite Ha. simpl. apply lookup_insert_eq.
Qed.

Lemma outcome_passes p id f :
  elements p !! id = Some f ->
  is_Some (elements p !! describedBy f) ->
  ruleMessage id (value f) = [] -> passes p id.
Proof.
  intros Hf He Hm. pose proof (validateField_outcome p id f Hf He) as H.
  by rewrite Hm in H.
Qed.

Lemma outcome_yields p id f msg :
  elements p !! id = Some f ->
  is_Some (elements p !! describedBy f) ->
  ruleMessage id (value f) = msg -> msg ≠ [] -> yields p id msg.
Proof.
  intros Hf He Hm Hne. pose proof (validateField_outcome p id f Hf He) as H.
  rewrite Hm in H. by destruct msg.
Qed.

(** One call has one outcome. *)
Lemma yields_functional p id m1 m2 :
  yields p id m1 -> yields p id m2 -> m1 = m2.
Proof.
  intros (p1 & H1 & _ & T1) (p2 & H2 & _ & T2).
  rewrite H1 in H2. injection H2 as ->. rewrite T1 in T2. by injection T2.
Qed.

Lemma yields_not_passes p id m : yields p id m -> ~ passes p id.
Proof. intros (p1 & H1 & _) (p2 & H2 & _). rewrite H1 in H2. discriminate. Qed.

Ltac field_cases H :=
  destruct H as [-> | [-> | ->]].

Lemma ruleMessage_empty id v :
  isField id -> trim v = [] -> ruleMessage id v = requiredMessage id.
Proof. intros H Hv. unfold ruleMessage. rewrite Hv. by field_cases H. Qed.

Lemma ruleMessage_nonempty id v :
  isField id -> trim v ≠ [] ->
  ruleMessage id v = if secondFails id (trim v) then secondMessage id else [].
Proof.
  intros H Hv. unfold ruleMessage, secondFails.
  destruct (trim v) as [|c t] eqn:E; [done|].
  field_cases H; simpl; try done.
Qed.

Lemma requiredMessage_nonempty id : requiredMessage id ≠ [].
Proof. unfold requiredMessage. by repeat case_bool_decide. Qed.

Lemma secondMessage_nonempty id : secondMessage id ≠ [].
Proof. unfold secondMessage. by repeat case_bool_decide. Qed.

(** C4 (as amended): for each of the three fields, [validateField]
    checks emptiness first and stops there on an empty (trimmed) value,
    shows at most one message, and follows the rule table: on the email
    field the empty string gives the required message, "a@b" the
    invalid-format message and "a@b.com" is valid with the marker
    cleared and no message; on the message field an input of 9
    characters with no white space at either end gives the too-short
    message and one of 10 such characters is valid. *)
Theorem validateField_rule_table p id f :
  elements p !! id = Some f ->
  is_Some (elements p !! describedBy f) ->
  isField id ->
  (trim (value f) = [] -> yields p id (requiredMessage id))
  /\ (trim (value f) ≠ [] -> passes p id \/ yields p id (secondMessage id))
  /\ (id = "email"%string -> value f = js "" ->
      yields p id (js "Email Address is required. Please enter your email."))
  /\ (id = "email"%string -> value f = js "a@b" ->
      yields p id
        (js "Please enter a valid email address (e.g. name@example.com)."))
  /\ (id = "email"%string -> value f = js "a@b.com" -> passes p id)
  /\ (id = "message"%string -> length (value f) = 9%nat ->
      trimmed (value f) = true ->
      yields p id (js "Message must be at least 10 characters."))
  /\ (id = "message"%string -> length (value f) = 10%nat ->
      trimmed (value f) = true -> passes p id).
Proof.
  intros Hf He Hid. repeat split.
  - intros Hv. apply (outcome_yields p id f _ Hf He).
    + by apply ruleMessage_empty.
    + apply requiredMessage_nonempty.
  - intros Hv. pose proof (ruleMessage_nonempty id (value f) Hid Hv) as Hm.
    destruct (secondFails id (trim (value f))).
    + right. apply (outcome_yields p id f _ Hf He Hm).
      apply secondMessage_nonempty.
    + left. by apply (outcome_passes p id f).
  - intros -> Hv. apply (outcome_yields p _ f _ Hf He); [by rewrite Hv|done].
  - intros -> Hv. apply (outcome_yields p _ f _ Hf He); [by rewrite Hv|done].
  - intros -> Hv. apply (outcome_passes p _ f Hf He); by rewrite Hv.
  - intros -> Hl Ht. apply (outcome_yields p _ f _ Hf He); [|done].
    rewrite ruleMessage_nonempty; rewrite ?(trim_trimmed _ Ht).
    + unfold secondFails. simpl. rewrite Hl. done.
    + by right; right.
    + by destruct (value f).
  - intros -> Hl Ht. apply (outcome_passes p _ f Hf He).
    rewrite ruleMessage_nonempty; rewrite ?(trim_trimmed _ Ht).
    + unfold secondFails. simpl. rewrite Hl. done.
    + by right; right.
    + by destruct (value f).
Qed.

(** The table at a message of nine letters. *)
Lemma validateField_rule_table_witness :
  yields (samplePage [] [] (js "Nine char")) "message"
    (js "Message must be at least 10 characters.").
Proof.
  destruct (validateField_rule_table
              (samplePage [] [] (js "Nine char")) "message"
              (control (js "Nine char") "message-error"))
    as (_ & _ & _ & _ & _ & H & _).
  - reflexivity.
  - vm_compute. eauto.
  - right; right; reflexivity.
  - apply H; reflexivity.
Defined.

(** C4 as stated fails on the message field: nine blanks are a
    9-character input that gives the required message, not the
    too-short one, and nine letters followed by a blank are a
    10-character input that is not valid. *)
Lemma nine_characters_not_always_too_short :
  length (js "         ") = 9%nat
  /\ yields (samplePage [] [] (js "         ")) "message"
       (js "Message is required. Please enter your message.")
  /\ ~ yields (samplePage [] [] (js "         ")) "message"
         (js "Message must be at least 10 characters.")
  /\ length (js "Nine char ") = 10%nat
  /\ ~ passes (samplePage [] [] (js "Nine char ")) "message".
Proof.
  assert (Y : yields (samplePage [] [] (js "         ")) "message"
                (js "Message is required. Please enter your message.")).
  { apply (outcome_yields _ _ (control (js "         ") "message-error") _);
      [reflexivity|vm_compute; eauto|reflexivity|done]. }
  repeat split; try done.
  - intros Y'. by pose proof (yields_functional _ _ _ _ Y Y').
  - apply (yields_not_passes _ _
             (js "Message must be at least 10 characters.")).
    apply (outcome_yields _ _ (control (js "Nine char ") "message-error"));
      [reflexivity|vm_compute; eauto|reflexivity|done].
Qed.

(** C10: [validateField] trims the value before every check.  A value
    of white space alone is empty and gives the required message; the
    minimum lengths of name and message, and the pattern of email, are
    checked on the trimmed value; so a message of nine characters
    followed by a blank is rejected as too short. *)
Theorem validateField_trims p id f :
  elements p !! id = Some f ->
  is_Some (elements p !! describedBy f) ->
  isField id ->
  (forallb isWhiteSpace (value f) = true -> yields p id (requiredMessage id))
  /\ (id = "name"%string -> trim (value f) ≠ [] ->
      if bool_decide (length (trim (value f)) < 2)%nat
      then yields p id (js "Name must be at least 2 characters.")
      else passes p id)
  /\ (id = "message"%string -> trim (value f) ≠ [] ->
      if bool_decide (length (trim (value f)) < 10)%nat
      then yields p id (js "Message must be at least 10 characters.")
      else passes p id)
  /\ (id = "email"%string -> trim (value f) ≠ [] ->
      if test emailPattern (trim (value f))
      then passes p id
      else yields p id
             (js "Please enter a valid email address (e.g. name@example.com)."))
  /\ (id = "message"%string ->
      forall s, length s = 9%nat -> trimmed s = true ->
                value f = s ++ [32%N] ->
                yields p id (js "Message must be at least 10 characters.")).
Proof.
  intros Hf He Hid.
  assert (second : forall i, id = i -> isField i -> trim (value f) ≠ [] ->
            if secondFails i (trim (value f))
            then yields p i (secondMessage i) else passes p i).
  { intros i <- _ Hv.
    pose proof (ruleMessage_nonempty id (value f) Hid Hv) as Hm.
    destruct (secondFails id (trim (value f))).
    - apply (outcome_yields p id f _ Hf He Hm), secondMessage_nonempty.
    - by apply (outcome_passes p id f). }
  repeat split.
  - intros Hv. apply (outcome_yields p id f _ Hf He).
    + apply ruleMessage_empty; [done|]. by apply trim_blank.
    + apply requiredMessage_nonempty.
  - intros E Hv. subst id. apply (second "name"%string eq_refl Hid Hv).
  - intros E Hv. subst id. apply (second "message"%string eq_refl Hid Hv).
  - intros E Hv. subst id.
    pose proof (second "email"%string eq_refl Hid Hv) as H.
    unfold secondFails in H. simpl in H.
    by destruct (test emailPattern (trim (value f))).
  - intros E s Hl Ht Hv. subst id.
    assert (Hs : trim (value f) = s).
    { rewrite Hv. by apply (trim_around [] s [32%N]). }
    assert (Hne : trim (value f) ≠ []) by (rewrite Hs; by destruct s).
    pose proof (second "message"%string eq_refl Hid Hne) as H.
    unfold secondFails in H. simpl in H. rewrite Hs, Hl in H. exact H.
Qed.

(** Nine letters and a blank on the message field. *)
Lemma validateField_trims_witness :
  yields (samplePage [] [] (js "Nine char ")) "message"
    (js "Message must be at least 10 characters.").
Proof.
  destruct (validateField_trims
              (samplePage [] [] (js "Nine char ")) "message"
              (control (js "Nine char ") "message-error"))
    as (_ & _ & _ & _ & H).
  - reflexivity.
  - vm_compute. eauto.
  - right; right; reflexivity.
  - apply (H eq_refl (js "Nine char")); reflexivity.
Defined.

(** *** Submit *)

Ltac destruct_lookups :=
  repeat match goal with
         | |- context [elements ?p !! ?k] => destruct (elements p !! k)
         end.

Lemma lookup_validated p id f :
  elements p !! id = Some f ->
  exists p',
    validateField (Some id) p = (Normal (falsy (ruleMessage id (value f))), p')
    /\ activeElement p' = activeElement p
    /\ listeners p' = listeners p
    /\ defaultPrevented p' = defaultPrevented p
    /\ forall j, elements p' !! j
                 = validated id (describedBy f) (ruleMessage id (value f)) j
                     <$> elements p !! j.
Proof.
  intros Hf. rewrite (validateField_eq p id f Hf). cbv zeta.
  unfold validated, flagged, cleared.
  destruct (falsy (ruleMessage id (value f))); eexists; (split; [done|]);
    (repeat split; [done..|]); intros j; simpl;
    rewrite !lookup_alter;
    repeat case_decide; repeat case_bool_decide; try congruence;
    subst; clear; destruct_lookups; done.
Qed.

Lemma validated_value id d msg j e :
  value (validated id d msg j e) = value e.
Proof.
  unfold validated. destruct (falsy msg); by repeat case_bool_decide.
Qed.



Lemma validated_describedBy id d msg j e :
  describedBy (validated id d msg j e) = describedBy e.
Proof.
  unfold validated.
  destruct (falsy msg); repeat case_bool_decide;
    by rewrite ?describedBy_set_textContent, ?describedBy_markInvalid,
         ?describedBy_set_textContent, ?describedBy_clearInvalid.
Qed.

Lemma validated_ariaInvalid id d msg j e :
  attrs (validated id d msg j e) !! "aria-invalid"%string =
    if bool_decide (j = id)
    then (if falsy msg then None else Some "true"%string)
    else attrs e !! "aria-invalid"%string.
Proof.
  unfold validated.
  destruct (falsy msg); repeat case_bool_decide; simpl;
    by rewrite ?lookup_insert_eq, ?lookup_delete_eq.
Qed.

Lemma validated_textContent id d msg j e :
  textContent (validated id d msg j e) =
    if bool_decide (j = d) then msg else textContent e.
Proof.
  unfold validated.
  destruct msg; simpl; by repeat case_bool_decide.
Qed.

Lemma getElementById_present id x p :
  elements p !! id = Some x -> getElementById id p = (Normal (Some id), p).
Proof. intros H. unfold getElementById, gets. by rewrite H. Qed.

Lemma focus_elements r q : elements (focus r q).2 = elements q.
Proof.
  unfold focus, bind, element, deref, modify.
  by destruct (r ≫= _).
Qed.

Lemma update_absent q id g :
  elements q !! id = None -> update (Some id) g q = (Throw, q).
Proof. intros H. unfold update, bind, element, deref. simpl. by rewrite H. Qed.

(** The submit listener on a page that holds the three fields: the
    default action is suppressed, then name, email and message are
    validated, in this order and all three, and the listener goes on
    with the three results. *)
Lemma submitHandler_steps p n e m :
  elements p !! "name"%string = Some n ->
  elements p !! "email"%string = Some e ->
  elements p !! "message"%string = Some m ->
  exists p1 p2 p3,
    validateField (Some "name"%string) (set_defaultPrevented true p)
      = (Normal (falsy (ruleMessage "name" (value n))), p1)
    /\ validateField (Some "email"%string) p1
      = (Normal (falsy (ruleMessage "email" (value e))), p2)
    /\ validateField (Some "message"%string) p2
      = (Normal (falsy (ruleMessage "message" (value m))), p3)
    /\ submitHandler p = finishSubmit (falsy <$> message3 n e m) p3
    /\ activeElement p3 = activeElement p
    /\ listeners p3 = listeners p
    /\ defaultPrevented p3 = true
    /\ forall j,
         elements p3 !! j =
           (fun x =>
              validated "message" (describedBy m)
                (ruleMessage "message" (value m)) j
                (validated "email" (describedBy e)
                   (ruleMessage "email" (value e)) j
                   (validated "name" (describedBy n)
                      (ruleMessage "name" (value n)) j x)))
             <$> elements p !! j.
Proof.
  intros Hn He Hm.
  destruct (lookup_validated (set_defaultPrevented true p) "name" n Hn)
    as (p1 & V1 & A1 & L1 & D1 & E1).
  assert (He1 := E1 "email"%string). simpl in He1. rewrite He in He1.
  destruct (lookup_validated p1 "email" _ He1)
    as (p2 & V2 & A2 & L2 & D2 & E2).
  rewrite ?validated_value in V2. setoid_rewrite validated_describedBy in E2.
  rewrite ?validated_value in E2.
  assert (Hm2 := E2 "message"%string). rewrite E1 in Hm2. simpl in Hm2.
  rewrite Hm in Hm2.
  destruct (lookup_validated p2 "message" _ Hm2)
    as (p3 & V3 & A3 & L3 & D3 & E3).
  rewrite ?validated_value in V3. setoid_rewrite validated_describedBy in E3.
  rewrite ?validated_value, ?validated_describedBy in E3.
  exists p1, p2, p3. repeat split; try done.
  - unfold submitHandler. unfold bind at 1. unfold getElementById at 1, gets.
    unfold bind at 1. unfold preventDefault, modify.
    unfold bind at 1.
    rewrite (getElementById_present _ _ (set_defaultPrevented true p) Hn).
    unfold bind at 1.
    rewrite (getElementById_present _ _ (set_defaultPrevented true p) He).
    unfold bind at 1.
    rewrite (getElementById_present _ _ (set_defaultPrevented true p) Hm).
    unfold bind at 1. unfold mapM. unfold bind at 1. unfold bind at 1.
    rewrite V1. unfold bind at 1. unfold bind at 1. rewrite V2.
    unfold bind at 1. unfold bind at 1. rewrite V3.
    unfold bind at 1. unfold ret at 1. unfold ret at 1. unfold ret at 1.
    unfold ret at 1.
    change (falsy <$> message3 n e m) with
      [falsy (ruleMessage "name" (value n));
       falsy (ruleMessage "email" (value e));
       falsy (ruleMessage "message" (value m))].
    destruct (elements p !! "form-status"%string) eqn:Efs; [done|].
    assert (Efs3 : elements p3 !! "form-status"%string = None).
    { rewrite E3, E2, E1. simpl. by rewrite Efs. }
    unfold finishSubmit.
    destruct (findInvalid _ _) as [i|].
    + unfold bind. pose proof (focus_elements (Some i) p3) as Hfoc.
      destruct (focus (Some i) p3) as [[[]|] q]; [|done]. simpl in Hfoc.
      rewrite update_absent by (by rewrite Hfoc). reflexivity.
    + unfold bind. rewrite update_absent by done. reflexivity.
  - simpl in *. congruence.
  - simpl in *. congruence.
  - rewrite D3, D2, D1. done.
  - intros j. rewrite E3, E2, E1. simpl. by destruct (elements p !! j).
Qed.

Lemma finishSubmit_failure q i rs :
  findInvalid [Some "name"; Some "email"; Some "message"]%string rs = Some i ->
  is_Some (elements q !! i) ->
  is_Some (elements q !! "form-status"%string) ->
  exists q',
    finishSubmit rs q = (Normal tt, q')
    /\ activeElement q' = Some i
    /\ defaultPrevented q' = defaultPrevented q
    /\ forall j, elements q' !! j = statusFailed j <$> elements q !! j.
Proof.
  intros Hi [x Hx] Hs. unfold finishSubmit. rewrite Hi.
  unfold bind at 1. unfold focus, bind at 1, element, deref, modify.
  simpl. rewrite Hx.
  unfold bind at 1. rewrite update_eq by done.
  rewrite update_eq by (simpl; by apply lookup_alter_is_Some).
  eexists; split; [done|]. repeat split. intros j. simpl.
  unfold statusFailed. rewrite !lookup_alter.
  case_decide; case_bool_decide; try congruence;
    subst; clear; destruct_lookups; done.
Qed.







(** *** What the handlers leave alone *)

Section Frame.

(** A part of the page that no write to an element and no move of focus
    touches: the flag of the event, the listeners. *)
Context {X : Type} (part : Page -> X).
Hypothesis part_elements : forall m p, part (set_elements m p) = part p.
Hypothesis part_activeElement :
  forall e p, part (set_activeElement e p) = part p.

Local Abbreviation keeps := (keeps part).

Lemma keeps_ret {A} (a : A) : keeps (ret a).
Proof. done. Qed.

Lemma keeps_throw {A} : keeps (@throw Page A).
Proof. done. Qed.

Lemma keeps_gets {A} (f : Page -> A) : keeps (gets f).
Proof. done. Qed.

Lemma keeps_deref {A} (f : Page -> option A) : keeps (deref f).
Proof. intros p. unfold deref. by destruct (f p). Qed.

Lemma keeps_modify f :
  (forall p, part (f p) = part p) -> keeps (modify f).
Proof. intros H p. apply H. Qed.

Lemma keeps_bind {A B} (m : M Page A) (k : A -> M Page B) :
  keeps m -> (forall a, keeps (k a)) -> keeps (bind m k).
Proof.
  intros Hm Hk p. unfold bind. specialize (Hm p).
  destruct (m p) as [[a|] q]; simpl in *; [|done].
  by rewrite Hk.
Qed.

Lemma keeps_update r g : keeps (update r g).
Proof.
  unfold update, element. apply keeps_bind; [apply keeps_deref|].
  intros _. apply keeps_modify. intros p. by destruct r.
Qed.

Lemma keeps_focus r : keeps (focus r).
Proof.
  unfold focus, element. apply keeps_bind; [apply keeps_deref|].
  intros _. by apply keeps_modify.
Qed.

Lemma keeps_errorEl r g :
  keeps (match r with Some _ => update r g | None => ret tt end).
Proof. destruct r; [apply keeps_update|apply keeps_ret]. Qed.

Lemma keeps_mapM {A B} (f : A -> M Page B) l :
  (forall a, keeps (f a)) -> keeps (mapM f l).
Proof.
  intros H. induction l; simpl; [apply keeps_ret|].
  apply keeps_bind; [done|]. intros b.
  apply keeps_bind; [done|]. intros bs. apply keeps_ret.
Qed.

Ltac keeps_step :=
  first [ apply keeps_bind; [|intros ?]
        | apply keeps_errorEl | apply keeps_update | apply keeps_focus
        | apply keeps_ret | apply keeps_throw | apply keeps_gets
        | apply keeps_deref
        | apply keeps_modify; done
        | case_match ].

Lemma keeps_validateField field : keeps (validateField field).
Proof.
  unfold validateField, clearFieldError, setFieldError, setAttribute,
    removeAttribute, getElementById, element.
  repeat keeps_step.
Qed.

Lemma keeps_submitFrom (formStatus name email message : option string) :
  keeps (submitFrom formStatus name email message).
Proof.
  unfold submitFrom, reset.
  repeat first [ apply keeps_mapM; intros ?; apply keeps_validateField
               | keeps_step ].
Qed.


End Frame.

Lemma submitHandler_from p :
  submitHandler p =
    submitFrom (ref "form-status" p) (ref "name" p) (ref "email" p)
      (ref "message" p) (set_defaultPrevented true p).
Proof. reflexivity. Qed.







(** *** Events *)

Lemma runHandler_listeners h p : listeners (runHandler h p).2 = listeners p.
Proof.
  destruct h as [|field]; unfold runHandler.
  - rewrite submitHandler_from.
    by rewrite (keeps_submitFrom listeners
                  (fun _ _ => eq_refl) (fun _ _ => eq_refl)).
  - unfold bind. pose proof (keeps_validateField listeners) as K.
    specialize (K (fun _ _ => eq_refl) (Some field) p).
    by destruct (validateField (Some field) p) as [[b|] q].
Qed.

Lemma runListeners_listeners ls at_ ty p :
  listeners (runListeners ls at_ ty p).2 = listeners p.
Proof.
  revert p. induction ls as [|l ls IH]; intros p; simpl; [done|].
  case_bool_decide; [|apply IH].
  pose proof (runHandler_listeners (l_handler l) p) as Hh.
  destruct (runHandler (l_handler l) p) as [c p'].
  specialize (IH p'). destruct (runListeners ls at_ ty p') as [ok p''].
  simpl in *. congruence.
Qed.

Lemma fire_listeners at_ ty p : listeners (fire at_ ty p).2 = listeners p.
Proof. unfold fire. by rewrite runListeners_listeners. Qed.

(** What the controller registers when it starts. *)
Lemma initFormValidation_eq p0 :
  initFormValidation p0 =
    (Normal tt,
     set_listeners
       (listeners p0 ++
          match elements p0 !! "contact-form"%string with
          | Some _ =>
              {| l_target := "contact-form"; l_type := "submit";
                 l_handler := Submit |}
                :: blurListeners "name" p0 ++ blurListeners "email" p0
                ++ blurListeners "message" p0
          | None => []
          end) p0).
Proof.
  unfold blurListeners.
  destruct (elements p0 !! "contact-form"%string) eqn:Ef,
    (elements p0 !! "name"%string) eqn:En,
    (elements p0 !! "email"%string) eqn:Ee,
    (elements p0 !! "message"%string) eqn:Em;
    unfold initFormValidation, wireBlur, bind, getElementById, gets,
      addEventListener, modify, ret; simpl;
    rewrite ?Ef, ?En, ?Ee, ?Em; simpl;
    rewrite ?En, ?Ee, ?Em; simpl; rewrite ?Ee, ?Em; simpl; rewrite ?Em;
    simpl; rewrite <- ?app_assoc, ?app_nil_r; try done;
    by destruct p0.
Qed.

Lemma blurListeners_validating id p :
  isField id -> Forall validating (blurListeners id p).
Proof.
  intros H. unfold blurListeners.
  destruct (elements p !! id); [|apply Forall_nil_2].
  apply Forall_cons_2; [|apply Forall_nil_2]. by right.
Qed.

(** The listeners the controller registers all validate. *)
Lemma init_listeners p0 :
  listeners p0 = [] ->
  Forall validating (listeners (initFormValidation p0).2).
Proof.
  intros H0. rewrite initFormValidation_eq. simpl. rewrite H0. simpl.
  destruct (elements p0 !! "contact-form"%string); [|apply Forall_nil_2].
  apply Forall_cons_2; [by left|].
  repeat apply Forall_app_2; apply blurListeners_validating;
    unfold isField; auto.
Qed.

Lemma reachable_listeners p0 p :
  listeners p0 = [] -> reachable p0 p -> Forall validating (listeners p).
Proof.
  intros H0 Hr. induction Hr as [|p at_ ty Hr IH].
  - by apply init_listeners.
  - by rewrite fire_listeners.
Qed.

Lemma runListeners_none ls at_ ty p :
  Forall (fun l => l_type l ≠ ty) ls -> runListeners ls at_ ty p = (true, p).
Proof.
  induction 1 as [|l ls Hl _ IH]; simpl; [done|].
  case_bool_decide as E; [by destruct E|done].
Qed.

(** C9: validation never runs on a keystroke.  In every state the page
    reaches once the controller has started, the listeners that call
    [validateField] are the blur listeners of the fields and the submit
    listener of the form, and an event of any other type (keydown,
    keypress, input, ...) on any element runs no listener: nothing is
    validated and the page stays as it is. *)
Theorem validation_only_on_blur_and_submit p0 p :
  listeners p0 = [] ->
  reachable p0 p ->
  (forall l, l ∈ listeners p -> validating l)
  /\ forall at_ ty,
       ty ≠ "blur"%string -> ty ≠ "submit"%string ->
       fire at_ ty p = (true, set_defaultPrevented false p).
Proof.
  intros H0 Hr. pose proof (reachable_listeners p0 p H0 Hr) as Hl.
  split; [by apply Forall_forall|].
  intros at_ ty Hb Hs. unfold fire. apply runListeners_none.
  eapply Forall_impl; [exact Hl|]. intros l [(T & _) | (T & _)]; congruence.
Qed.

(** A key pressed in the name field of the sample page, after the
    controller has started and the field has been left once. *)
Lemma validation_only_on_blur_and_submit_witness :
  fire "name" "keydown" startedSample
  = (true, set_defaultPrevented false startedSample).
Proof.
  apply (validation_only_on_blur_and_submit (samplePage [] [] [])).
  - reflexivity.
  - apply reach_fire, reach_init.
  - discriminate.
  - discriminate.
Defined.

(** *** The email pattern *)

Lemma emailPattern_shape s : test emailPattern s = true <-> addressShape s.
Proof.
  rewrite test_matches. unfold emailPattern, addressShape. cbv zeta.
  change (fun c => negb (isWhiteSpace c || (c =? 64)%N)) with addressChar.
  split.
  - intros H.
    apply matches_cat_inv in H as (l & r1 & -> & Hl & H).
    apply matches_cat_inv in H as (a & r2 & -> & Ha & H).
    apply matches_cat_inv in H as (d & r3 & -> & Hd & H).
    apply matches_cat_inv in H as (dot & t & -> & Hdot & Ht).
    apply matches_plus_class in Hl as [Hl1 Hl2].
    apply matches_plus_class in Hd as [Hd1 Hd2].
    apply matches_plus_class in Ht as [Ht1 Ht2].
    apply matches_class_inv in Ha as (c & -> & ->%N.eqb_eq).
    apply matches_class_inv in Hdot as (c & -> & ->%N.eqb_eq).
    exists l, d, t. repeat split; try done.
    rewrite !forallb_app. by rewrite Hl2, Hd2, Ht2.
  - intros (l & d & t & -> & Hl & Hd & Ht & H).
    rewrite !forallb_app in H.
    apply andb_prop in H as [H1 [H2 H3]%andb_prop].
    repeat (apply matches_cat; [|]);
      try (by apply matches_plus_class); by apply matches_class.
Qed.

Lemma addressShape_nonempty s : addressShape s -> s ≠ [].
Proof. intros (l & d & t & -> & Hl & _). by destruct l. Qed.

(** [validateField] accepts a field exactly when the rule table has no
    message for its value. *)
Lemma passes_iff p id f :
  elements p !! id = Some f ->
  is_Some (elements p !! describedBy f) ->
  passes p id <-> ruleMessage id (value f) = [].
Proof.
  intros Hf Hd. split; [|by apply outcome_passes].
  intros Hp. destruct (ruleMessage id (value f)) as [|c msg] eqn:E; [done|].
  exfalso. apply (yields_not_passes p id (c :: msg)); [|done].
  by apply (outcome_yields p id f).
Qed.

(** X7: the email field is accepted exactly when its value, once trimmed,
    has the shape [local@domain.tld]: three non-empty runs of
    characters other than white space and [@], with one [@] between the
    first two and a dot between the last two.  So an accepted address
    holds exactly one [@] and no white space inside, and its local part
    and domain may themselves hold dots. *)
Theorem email_accepted_shape p f :
  elements p !! "email"%string = Some f ->
  is_Some (elements p !! describedBy f) ->
  passes p "email" <-> addressShape (trim (value f)).
Proof.
  intros Hf Hd. rewrite (passes_iff p "email" f Hf Hd).
  rewrite <- emailPattern_shape.
  assert (Hfield : isField "email") by (right; by left).
  destruct (trim (value f)) as [|c t] eqn:E.
  - rewrite (ruleMessage_empty "email" (value f) Hfield E). split; [|done].
    intros H. by apply requiredMessage_nonempty in H.
  - rewrite (ruleMessage_nonempty "email" (value f) Hfield) by by rewrite E.
    rewrite E. unfold secondFails.
    rewrite bool_decide_eq_false_2, bool_decide_eq_true_2 by done.
    by destruct (test emailPattern (c :: t)).
Qed.

(** An address between blanks. *)
Lemma email_accepted_shape_witness :
  passes (samplePage [] (js " a.b@c.d.org ") []) "email".
Proof.
  apply (email_accepted_shape _ (control (js " a.b@c.d.org ") "email-error"));
    [reflexivity|vm_compute; eauto|].
  exists (js "a.b"), (js "c.d"), (js "org"). by vm_compute.
Defined.

(** *** Validation of one field *)

(** X8: a field whose error container is missing (no [aria-describedby], or
    one that names no element) is validated all the same: the call
    completes with the verdict of the rule table, sets or removes
    [aria-invalid] on the field, writes no text anywhere and changes no
    other element. *)
Theorem validateField_without_container p id f :
  elements p !! id = Some f ->
  elements p !! describedBy f = None ->
  let ok := falsy (ruleMessage id (value f)) in
  exists p' f',
    validateField (Some id) p = (Normal ok, p')
    /\ ariaInvalid p' id = (if ok then None else Some "true"%string)
    /\ elements p' !! id = Some f'
    /\ textContent f' = textContent f /\ value f' = value f
    /\ forall j, j ≠ id -> elements p' !! j = elements p !! j.
Proof.
  intros Hf Hd ok.
  destruct (lookup_validated p id f Hf) as (p' & Hv & _ & _ & _ & He).
  assert (Hne : id ≠ describedBy f)
    by (intros E; rewrite <- E in Hd; congruence).
  exists p', (validated id (describedBy f) (ruleMessage id (value f)) id f).
  split; [done|]. repeat split.
  - unfold ariaInvalid. rewrite He, Hf. simpl.
    rewrite validated_ariaInvalid. by rewrite bool_decide_eq_true_2.
  - by rewrite He, Hf.
  - rewrite validated_textContent. by rewrite bool_decide_eq_false_2.
  - apply validated_value.
  - intros j Hj. rewrite He. destruct (elements p !! j) as [e|] eqn:Ej; [|done].
    simpl. f_equal. unfold validated.
    assert (j ≠ describedBy f) by (intros ->; congruence).
    rewrite !(bool_decide_eq_false_2 (j = id)) by done.
    rewrite !(bool_decide_eq_false_2 (j = describedBy f)) by done.
    by destruct (falsy _).
Qed.

(** An empty name field that describes itself by nothing. *)
Lemma validateField_without_container_witness :
  exists p',
    validateField (Some "name"%string)
      {| elements := {[ "name"%string := plain ]}; activeElement := None;
         listeners := []; defaultPrevented := false |}
    = (Normal false, p')
    /\ ariaInvalid p' "name" = Some "true"%string.
Proof.
  destruct (validateField_without_container
              {| elements := {[ "name"%string := plain ]};
                 activeElement := None;
                 listeners := []; defaultPrevented := false |}
              "name" plain)
    as (p' & f' & H1 & H2 & _); [reflexivity|reflexivity|].
  exists p'. split; [exact H1|exact H2].
Defined.

Lemma validated_idemp id d msg j e :
  validated id d msg j (validated id d msg j e) = validated id d msg j e.
Proof.
  destruct e as [a t v dv fo]. unfold validated.
  destruct (bool_decide (j = id)), (bool_decide (j = d)), (falsy msg);
    cbv [clearInvalid markInvalid set_textContent set_attrs attrs
         textContent value defaultValue form_owner];
    by rewrite ?delete_insert_eq, ?delete_delete_eq.
Qed.

(** X9: validating a field a second time, its value unchanged, changes
    nothing: same verdict, same page. *)
Theorem validateField_idempotent p id f :
  elements p !! id = Some f ->
  exists ok p',
    validateField (Some id) p = (Normal ok, p')
    /\ validateField (Some id) p' = (Normal ok, p').
Proof.
  intros Hf.
  destruct (lookup_validated p id f Hf) as (p1 & Hv1 & Ha1 & Hl1 & Hp1 & He1).
  pose proof (He1 id) as Hf1. rewrite Hf in Hf1. simpl in Hf1.
  destruct (lookup_validated p1 id _ Hf1) as (p2 & Hv2 & Ha2 & Hl2 & Hp2 & He2).
  rewrite validated_value in Hv2, He2.
  rewrite validated_describedBy in He2.
  exists (falsy (ruleMessage id (value f))), p1. split; [done|].
  rewrite Hv2. f_equal.
  assert (elements p2 = elements p1) as Hel.
  { apply map_eq. intros j. rewrite He2, He1.
    destruct (elements p !! j); simpl; [|done]. by rewrite validated_idemp. }
  destruct p1, p2. simpl in *. by subst.
Qed.

(** The message field of the sample page, too short, validated
    twice. *)
Lemma validateField_idempotent_witness :
  exists p',
    validateField (Some "message"%string) (samplePage [] [] (js "Hi"))
    = (Normal false, p')
    /\ validateField (Some "message"%string) p' = (Normal false, p').
Proof.
  destruct (validateField_idempotent (samplePage [] [] (js "Hi")) "message"
              (control (js "Hi") "message-error"))
    as (ok & p' & H1 & H2); [reflexivity|].
  assert (ok = false) as ->.
  { assert (E : (validateField (Some "message"%string)
                   (samplePage [] [] (js "Hi"))).1 = Normal false)
      by (vm_compute; reflexivity).
    rewrite H1 in E. simpl in E. by injection E. }
  exists p'. split; [exact H1|exact H2].
Defined.

(** *** Blur *)

Lemma runListeners_skip l ls at_ ty p :
  l_target l ≠ at_ \/ l_type l ≠ ty ->
  runListeners (l :: ls) at_ ty p = runListeners ls at_ ty p.
Proof.
  intros H. simpl. rewrite bool_decide_eq_false_2; [done|]. tauto.
Qed.

Lemma runListeners_hit l ls at_ ty p :
  l_target l = at_ -> l_type l = ty ->
  runListeners (l :: ls) at_ ty p =
    let '(c, p') := runHandler (l_handler l) p in
    let '(ok, p'') := runListeners ls at_ ty p' in
    (completed c && ok, p'').
Proof. intros H1 H2. simpl. by rewrite bool_decide_eq_true_2. Qed.

(** A blur reaches a field of the started form: [validateField] runs
    on that field, alone. *)
Lemma fire_blur p id :
  listeners p = wiring -> isField id ->
  fire id "blur" p =
    let '(c, p') := validateField (Some id) (set_defaultPrevented false p) in
    (completed c, p').
Proof.
  intros Hw Hid. unfold fire. rewrite Hw. unfold wiring.
  destruct Hid as [-> | [-> | ->]];
    rewrite ?runListeners_skip by (cbn; first [by left | by right]);
    rewrite runListeners_hit by done;
    cbn [l_handler runHandler]; unfold bind at 1;
    destruct (validateField _ _) as [[ok|] p'];
    rewrite ?runListeners_skip by (cbn; first [by left | by right]);
    cbn [runListeners ret completed]; by rewrite ?andb_true_r.
Qed.

(** What the controller registers on a page that holds the form and
    its three fields. *)
Lemma initFormValidation_wiring p0 :
  listeners p0 = [] ->
  is_Some (elements p0 !! "contact-form"%string) ->
  is_Some (elements p0 !! "name"%string) ->
  is_Some (elements p0 !! "email"%string) ->
  is_Some (elements p0 !! "message"%string) ->
  listeners (initFormValidation p0).2 = wiring.
Proof.
  intros Hl [x0 H0] [x1 H1] [x2 H2] [x3 H3]. rewrite initFormValidation_eq.
  unfold blurListeners. simpl. by rewrite Hl, H0, H1, H2, H3.
Qed.

(** X10: leaving a field validates that field and nothing else: the blur
    listener completes with the default action left alone, focus is
    not moved, no value is changed, and no element other than the
    field and its error container is touched (so neither another
    field's marker or message nor, unless a field names it as its
    error container, the status of the form). *)
Theorem blur_validates_one_field p id f :
  listeners p = wiring -> isField id ->
  elements p !! id = Some f ->
  exists p',
    fire id "blur" p = (true, p')
    /\ validateField (Some id) (set_defaultPrevented false p)
       = (Normal (falsy (ruleMessage id (value f))), p')
    /\ activeElement p' = activeElement p
    /\ defaultPrevented p' = false
    /\ listeners p' = listeners p
    /\ (forall j, valueOf p' j = valueOf p j)
    /\ (forall j, j ≠ id -> j ≠ describedBy f ->
                  elements p' !! j = elements p !! j).
Proof.
  intros Hw Hid Hf.
  destruct (lookup_validated (set_defaultPrevented false p) id f Hf)
    as (p' & Hv & Ha & Hl & Hp & He).
  exists p'. rewrite (fire_blur p id Hw Hid), Hv.
  repeat split; try done.
  - intros j. unfold valueOf. rewrite He. simpl.
    destruct (elements p !! j); simpl; [|done]. by rewrite validated_value.
  - intros j N1 N2. rewrite He. simpl.
    destruct (elements p !! j); simpl; [|done]. f_equal. unfold validated.
    rewrite !(bool_decide_eq_false_2 (j = id)) by done.
    rewrite !(bool_decide_eq_false_2 (j = describedBy f)) by done.
    by destruct (falsy _).
Qed.

(** Leaving the empty email field of the sample page, once the
    controller has started. *)
Lemma blur_validates_one_field_witness :
  exists p',
    fire "email" "blur" (initFormValidation (samplePage [] [] [])).2
    = (true, p')
    /\ activeElement p' = None
    /\ elements p' !! "name"%string
       = elements (samplePage [] [] []) !! "name"%string.
Proof.
  destruct (blur_validates_one_field
              (initFormValidation (samplePage [] [] [])).2 "email"
              (control [] "email-error"))
    as (p' & H1 & _ & H2 & _ & _ & _ & H3);
    [reflexivity|right; left; reflexivity|reflexivity|].
  exists p'. split; [exact H1|]. split; [exact H2|].
  apply H3; discriminate.
Defined.

(** *** Submit with a field missing *)

Lemma validateField_null p : validateField None p = (Throw, p).
Proof. done. Qed.

Lemma ref_present id x p : elements p !! id = Some x -> ref id p = Some id.
Proof. intros H. unfold ref. by rewrite H. Qed.

Lemma ref_absent id p : elements p !! id = None -> ref id p = None.
Proof. intros H. unfold ref. by rewrite H. Qed.

Lemma validated_className id d msg j e :
  className (validated id d msg j e) = className e.
Proof.
  unfold validated, className.
  destruct (falsy msg); repeat case_bool_decide; simpl;
    by rewrite ?lookup_insert_ne, ?lookup_delete_ne.
Qed.

Lemma bind_throw {S A B} (m : M S A) (k : A -> M S B) s s' :
  m s = (Throw, s') -> bind m k s = (Throw, s').
Proof. intros H. unfold bind. by rewrite H. Qed.

Lemma mapM_throw {S A B} (f : A -> M S B) a l s s' :
  f a s = (Throw, s') -> mapM f (a :: l) s = (Throw, s').
Proof. intros H. simpl. by apply bind_throw. Qed.

Lemma mapM_next_throw {S A B} (f : A -> M S B) a l s b s' s'' :
  f a s = (Normal b, s') -> mapM f l s' = (Throw, s'') ->
  mapM f (a :: l) s = (Throw, s'').
Proof.
  intros H1 H2. simpl. unfold bind at 1. rewrite H1. by apply bind_throw.
Qed.

(** X11: the submit listener does not check the fields it looks up, as the
    blur wiring does: when [#name], [#email] or [#message] is missing
    from the document, a submit throws while the fields are validated
    (those before the missing one have been), with the default action
    suppressed, focus where it was and the class of the status
    container unchanged. *)
Theorem submit_missing_field p :
  elements p !! "name"%string = None
  \/ elements p !! "email"%string = None
  \/ elements p !! "message"%string = None ->
  exists p',
    submitHandler p = (Throw, p')
    /\ defaultPrevented p' = true
    /\ activeElement p' = activeElement p
    /\ statusClass p' = statusClass p
    /\ (elements p !! "name"%string = None ->
        p' = set_defaultPrevented true p).
Proof.
  intros Hmiss. rewrite submitHandler_from. unfold submitFrom.
  set (q := set_defaultPrevented true p).
  assert (Hclass : forall q0 q' id x,
            (forall j, elements q' !! j
                       = validated id (describedBy x)
                           (ruleMessage id (value x)) j <$> elements q0 !! j) ->
            statusClass q' = statusClass q0).
  { intros q0 q' id x He. unfold statusClass. rewrite He.
    destruct (elements q0 !! "form-status"%string); simpl; [|done].
    by rewrite validated_className. }
  destruct (elements p !! "name"%string) as [n|] eqn:Hn.
  2:{ exists q. rewrite (ref_absent "name" p Hn). split; [|done].
      apply bind_throw. by apply mapM_throw. }
  rewrite (ref_present "name" n p Hn).
  destruct (lookup_validated q "name" n Hn)
    as (p1 & Hv1 & Ha1 & Hl1 & Hp1 & He1).
  pose proof (Hclass q p1 "name" n He1) as Hc1.
  destruct (elements p !! "email"%string) as [e|] eqn:Hem.
  2:{ exists p1. rewrite (ref_absent "email" p Hem). split.
      - apply bind_throw. eapply mapM_next_throw; [exact Hv1|].
        by apply mapM_throw.
      - repeat split; try done; by rewrite ?Hp1, ?Ha1, ?Hc1. }
  rewrite (ref_present "email" e p Hem).
  assert (He' : elements p1 !! "email"%string
                = Some (validated "name" (describedBy n)
                          (ruleMessage "name" (value n)) "email" e)).
  { rewrite He1. simpl. by rewrite Hem. }
  destruct (lookup_validated p1 "email" _ He')
    as (p2 & Hv2 & Ha2 & Hl2 & Hp2 & He2).
  pose proof (Hclass p1 p2 "email" _ He2) as Hc2.
  destruct Hmiss as [H|[H|Hm]]; [congruence|congruence|].
  exists p2. rewrite (ref_absent "message" p Hm). split.
  - apply bind_throw. eapply mapM_next_throw; [exact Hv1|].
    eapply mapM_next_throw; [exact Hv2|]. by apply mapM_throw.
  - repeat split; try done; by rewrite ?Hp2, ?Hp1, ?Ha2, ?Ha1, ?Hc2, ?Hc1.
Qed.

(** The sample page without its email field: a submit marks the empty
    name field and throws. *)
Lemma submit_missing_field_witness :
  exists p',
    submitHandler
      (set_elements (delete "email"%string (elements (samplePage [] [] [])))
         (samplePage [] [] []))
    = (Throw, p')
    /\ activeElement p' = None.
Proof.
  destruct (submit_missing_field
              (set_elements
                 (delete "email"%string (elements (samplePage [] [] [])))
                 (samplePage [] [] [])))
    as (p' & H1 & _ & H2 & _); [right; left; reflexivity|].
  exists p'. split; [exact H1|exact H2].
Defined.

(** *** The document in every state *)





























(** *** A failed submit *)

Lemma validated_other id d msg j e :
  j ≠ id -> j ≠ d -> validated id d msg j e = e.
Proof.
  intros N1 N2. unfold validated.
  rewrite !(bool_decide_eq_false_2 (j = id)) by done.
  rewrite !(bool_decide_eq_false_2 (j = d)) by done.
  by destruct (falsy msg).
Qed.

Lemma statusFailed_value j x : value (statusFailed j x) = value x.
Proof. unfold statusFailed. by case_bool_decide. Qed.

(** X13: a submit that finds a field invalid keeps what the user typed: the
    listener completes, no value is changed (the form is not reset),
    and no element is touched other than the three fields, their error
    containers and the status container. *)
Theorem failed_submit_keeps_input p n e m :
  elements p !! "name"%string = Some n ->
  elements p !! "email"%string = Some e ->
  elements p !! "message"%string = Some m ->
  is_Some (elements p !! "form-status"%string) ->
  falsy (ruleMessage "name" (value n))
  && falsy (ruleMessage "email" (value e))
  && falsy (ruleMessage "message" (value m)) = false ->
  exists p',
    submitHandler p = (Normal tt, p')
    /\ (forall j, valueOf p' j = valueOf p j)
    /\ listeners p' = listeners p
    /\ forall j,
         j ∉ ["name"; "email"; "message"; describedBy n; describedBy e;
              describedBy m; "form-status"]%string ->
         elements p' !! j = elements p !! j.
Proof.
  intros Hn He Hm Hs Hall.
  destruct (submitHandler_steps p n e m Hn He Hm)
    as (p1 & p2 & p3 & V1 & V2 & V3 & Hsub & A3 & L3 & D3 & E3).
  assert (Hs3 : is_Some (elements p3 !! "form-status"%string)).
  { rewrite E3. by apply fmap_is_Some. }
  assert (Hfields : forall i, isField i -> is_Some (elements p3 !! i)).
  { intros i Hi. rewrite E3. apply fmap_is_Some.
    destruct Hi as [-> | [-> | ->]]; eauto. }
  unfold message3 in Hsub. simpl in Hsub.
  assert (exists i,
            findInvalid [Some "name"; Some "email"; Some "message"]%string
              [falsy (ruleMessage "name" (value n));
               falsy (ruleMessage "email" (value e));
               falsy (ruleMessage "message" (value m))] = Some i
            /\ isField i)
    as (i & Hi & Hfi).
  { clear -Hall. unfold isField.
    destruct (falsy (ruleMessage "name" (value n))),
      (falsy (ruleMessage "email" (value e))),
      (falsy (ruleMessage "message" (value m))); try done; simpl; eauto 8. }
  destruct (finishSubmit_failure p3 i _ Hi (Hfields i Hfi) Hs3)
    as (p' & F & A & D & E).
  exists p'. rewrite Hsub. split; [done|]. repeat split.
  - intros j. unfold valueOf. rewrite E, E3.
    destruct (elements p !! j); simpl; [|done].
    by rewrite statusFailed_value, !validated_value.
  - assert (K : listeners (submitHandler p).2 = listeners p).
    { rewrite submitHandler_from.
      by rewrite (keeps_submitFrom listeners
                    (fun _ _ => eq_refl) (fun _ _ => eq_refl)). }
    by rewrite Hsub, F in K.
  - intros j Hj. rewrite E, E3.
    destruct (elements p !! j) as [x|]; simpl; [|done]. f_equal.
    rewrite !not_elem_of_cons in Hj.
    destruct Hj as (N1 & N2 & N3 & N4 & N5 & N6 & N7 & _).
    rewrite !validated_other by done.
    unfold statusFailed. by rewrite bool_decide_eq_false_2.
Qed.

(** The sample page with a name too short. *)
Lemma failed_submit_keeps_input_witness :
  exists p',
    submitHandler (samplePage (js "A") (js "a@b.com") (js "Hello there"))
    = (Normal tt, p')
    /\ valueOf p' "name" = Some (js "A")
    /\ valueOf p' "message" = Some (js "Hello there").
Proof.
  destruct (failed_submit_keeps_input
              (samplePage (js "A") (js "a@b.com") (js "Hello there"))
              (control (js "A") "name-error")
              (control (js "a@b.com") "email-error")
              (control (js "Hello there") "message-error"))
    as (p' & H1 & H2 & _); try reflexivity.
  - vm_compute. eauto.
  - exists p'. split; [exact H1|].
    split; rewrite H2; reflexivity.
Defined.

(** *** The wiring *)

(** X14: the blur wiring checks each field it looks up: once the controller
    has started on a page that holds the form, a field has a blur
    listener exactly when it exists, and a blur on a missing field, as
    any event nothing listens to, runs nothing. *)
Theorem blur_wired_when_present p0 id :
  listeners p0 = [] ->
  is_Some (elements p0 !! "contact-form"%string) ->
  isField id ->
  let p := (initFormValidation p0).2 in
  ({| l_target := id; l_type := "blur"; l_handler := Blur id |} ∈ listeners p
   <-> is_Some (elements p0 !! id))
  /\ (elements p0 !! id = None ->
      fire id "blur" p = (true, set_defaultPrevented false p)).
Proof.
  intros Hl [x Hx] Hid p. subst p. rewrite initFormValidation_eq.
  cbn [snd listeners set_listeners]. rewrite Hl, Hx. cbn [app].
  assert (Hin : forall i j,
            {| l_target := j; l_type := "blur"; l_handler := Blur j |}
              ∈ blurListeners i p0
            <-> i = j /\ is_Some (elements p0 !! i)).
  { intros i j. unfold blurListeners.
    destruct (elements p0 !! i).
    - rewrite list_elem_of_singleton. split.
      + intros [= ->]. eauto.
      + by intros [-> _].
    - split; [by intros ?%elem_of_nil|by intros [_ [? ?]]]. }
  split.
  - rewrite elem_of_cons, !elem_of_app, !Hin.
    destruct Hid as [-> | [-> | ->]]; split; intros H;
      try (destruct H as [[=]|[[[=] H]|[[[=] H]|[[=] H]]]]; done);
      eauto 6.
  - intros Hnone. unfold fire. cbn [listeners set_listeners].
    rewrite runListeners_skip by (right; done).
    unfold blurListeners.
    destruct Hid as [-> | [-> | ->]]; rewrite Hnone; cbn [app];
      repeat (destruct (elements p0 !! _); cbn [app];
              rewrite ?runListeners_skip by (left; done));
      done.
Qed.

(** The sample page without its email field. *)
Lemma blur_wired_when_present_witness :
  fire "email" "blur"
    (initFormValidation
       (set_elements (delete "email"%string (elements (samplePage [] [] [])))
          (samplePage [] [] []))).2
  = (true,
     set_defaultPrevented false
       (initFormValidation
          (set_elements
             (delete "email"%string (elements (samplePage [] [] [])))
             (samplePage [] [] []))).2).
Proof.
  apply (blur_wired_when_present
           (set_elements
              (delete "email"%string (elements (samplePage [] [] [])))
              (samplePage [] [] [])) "email").
  - reflexivity.
  - vm_compute. eauto.
  - right. left. reflexivity.
  - reflexivity.
Defined.

End FormFacts.

(** ** The table sorter *)

Module TableFacts.
Import JS JSFacts Table.

Lemma spanDigits_nil s :
  (spanDigits s).1 = [] <->
  match s with c :: _ => isDigit c = false | [] => True end.
Proof.
  destruct s as [|c r]; simpl; [done|].
  destruct (isDigit c); [|done].
  destruct (spanDigits r); simpl. split; done.
Qed.

(** A string has a prefix that is a decimal literal exactly when it
    starts like a number, and the value of a literal is a number. *)
Lemma strDecimalLiteral_prefix s :
  match strDecimalLiteral s with
  | Some (x, _) => isNaN x = false /\ numericPrefix s = true
  | None => numericPrefix s = false
  end.
Proof.
  unfold strDecimalLiteral, numericPrefix.
  destruct (spanSign s) as [neg s1].
  destruct (isPrefix (js "Infinity") s1); [done|]. simpl.
  pose proof (spanDigits_nil s1) as H1.
  destruct (spanDigits s1) as [ip r1] eqn:E1. simpl in H1.
  destruct s1 as [|c r]; simpl in *.
  - by injection E1 as <- <-.
  - destruct (isDigit c) eqn:Hc.
    + destruct (spanDigits r) as [ds rest]. injection E1 as <- <-.
      simpl.
      destruct (match rest with [] => _ | c0 :: r0 => _ end).
      destruct (exponentPart _). by rewrite isNaN_roundBinary64.
    + injection E1 as <- <-. simpl.
      destruct (c =? 46)%N; [|done].
      pose proof (spanDigits_nil r) as H2.
      destruct (spanDigits r) as [fp r2]. simpl in *.
      destruct fp as [|d fp].
      * destruct r as [|d r]; [done|].
        destruct H2 as [H2 _]. by rewrite H2.
      * destruct (exponentPart r2). simpl.
        rewrite isNaN_roundBinary64.
        destruct r as [|x r]; [by destruct H2 as [_ H2]; specialize (H2 I)|].
        destruct (isDigit x); [done|].
        destruct H2 as [_ H2]. by specialize (H2 eq_refl).
Qed.

(** The value of a literal is an infinity or a rounded rational. *)
Lemma strDecimalLiteral_rounded s v r :
  strDecimalLiteral s = Some (v, r) ->
  (exists n, v = Inf n) \/ exists q, v = roundBinary64 q.
Proof.
  unfold strDecimalLiteral.
  destruct (spanSign s) as [neg s1].
  destruct (isPrefix (js "Infinity") s1); [intros [= <- _]; eauto|].
  destruct (spanDigits s1) as [ip r1].
  destruct (match r1 with [] => _ | c :: r0 => _ end) as [fp r2].
  destruct ip, fp; [done| | |];
    destruct (exponentPart r2); intros [= <- _]; eauto.
Qed.

(** A finite value read by [parseFloat] is a number. *)
Lemma parseFloat_multipleOfMin s x : parseFloat s = Fin x -> multipleOfMin x.
Proof.
  unfold parseFloat.
  destruct (strDecimalLiteral (trimStart s)) as [[v r]|] eqn:E; [|done].
  intros ->. apply strDecimalLiteral_rounded in E as [[n E]|[q E]]; [done|].
  by apply (roundBinary64_multipleOfMin q).
Qed.

(** [parseFloat] gives a number exactly on the strings that, after
    leading white space, start like a number. *)
Lemma isNaN_parseFloat s :
  isNaN (parseFloat s) = negb (numericPrefix (trimStart s)).
Proof.
  unfold parseFloat. pose proof (strDecimalLiteral_prefix (trimStart s)) as H.
  destruct (strDecimalLiteral (trimStart s)) as [[x r]|].
  - destruct H as [-> ->]. done.
  - by rewrite H.
Qed.

(** A string that is a number entirely starts like one. *)
Lemma wholeNumber_numericPrefix s :
  wholeNumber s = true -> numericPrefix s = true.
Proof.
  unfold wholeNumber. pose proof (strDecimalLiteral_prefix s) as H.
  destruct (strDecimalLiteral s) as [[x r]|]; [|done]. by destruct H.
Qed.

(** What the comparator tests: it takes the trimmed text of the two
    cells and compares them as numbers exactly when both start like a
    number, that is when [parseFloat] reads a number at the start of
    each, whatever follows it; otherwise it compares them as strings in
    locale order.  Two cells that are numbers entirely are therefore
    compared as numbers. *)
Lemma compareRows_numeric_prefix localeCompare ascending colIndex
    rowA rowB textA textB :
  cellText colIndex rowA = Some textA ->
  cellText colIndex rowB = Some textB ->
  let cellA := trim textA in
  let cellB := trim textB in
  compareRows localeCompare ascending colIndex rowA rowB =
    Normal
      (if numericPrefix cellA && numericPrefix cellB then
         if ascending then sub (parseFloat cellA) (parseFloat cellB)
         else sub (parseFloat cellB) (parseFloat cellA)
       else
         Fin (inject_Z (if ascending then localeCompare cellA cellB
                        else localeCompare cellB cellA)))
  /\ (wholeNumber cellA = true -> wholeNumber cellB = true ->
      numericPrefix cellA && numericPrefix cellB = true).
Proof.
  intros HA HB cellA cellB. unfold compareRows. rewrite HA, HB.
  fold cellA cellB. rewrite !isNaN_parseFloat, !negb_involutive.
  unfold cellA, cellB. rewrite !trimStart_trim.
  split; [by destruct (numericPrefix _ && numericPrefix _)|].
  intros WA%wholeNumber_numericPrefix WB%wholeNumber_numericPrefix.
  by rewrite WA, WB.
Qed.

(** The column "3", "10", "2": 3 against 10 is compared as numbers. *)
Example three_against_ten :
  compareRows codeUnitOrder true 0 (row1 0 "3") (row1 1 "10")
    = Normal (sub (Fin 3) (Fin 10))
  /\ sign (sub (Fin 3) (Fin 10)) = Lt.
Proof.
  split; [|reflexivity].
  destruct (compareRows_numeric_prefix codeUnitOrder true 0
              (row1 0 "3") (row1 1 "10") (js "3") (js "10")
              eq_refl eq_refl) as [H _].
  exact H.
Qed.

(** C2: the comparator does not do what the comment above it and the
    specification say.  The comment has [parseFloat] give [NaN] for a
    string that is not a number, so that such cells fall back to the
    comparison of strings; the specification has two cells compared as
    numbers only when both are numbers entirely.  But [parseFloat]
    reads the number a string starts with.  "10abc" and "9abc" are no
    numbers; [parseFloat] reads 10 and 9 in them, and the comparator
    returns 10 - 9, which puts "9abc" first, where the comparison of the
    two strings (here by code units) puts "10abc" first. *)
Theorem digits_then_letters_compared_as_numbers :
  wholeNumber (trim (js "10abc")) = false
  /\ wholeNumber (trim (js "9abc")) = false
  /\ parseFloat (trim (js "10abc")) = Fin 10
  /\ parseFloat (trim (js "9abc")) = Fin 9
  /\ compareRows codeUnitOrder true 0 (row1 0 "10abc") (row1 1 "9abc")
     = Normal (sub (Fin 10) (Fin 9))
  /\ sign (sub (Fin 10) (Fin 9)) = Gt
  /\ sign (Fin (inject_Z (codeUnitOrder (js "10abc") (js "9abc")))) = Lt.
Proof. repeat split; vm_compute; reflexivity. Qed.

(** Two cells that [parseFloat] rounds to the same number are compared
    as equal, though the decimals they write differ; a cell past the
    largest number counts as [Infinity]. *)
Example rounded_cells_compared_as_equal :
  ord (compareRows codeUnitOrder true 0)
    (row1 0 "9007199254740993") (row1 1 "9007199254740992") = Eq
  /\ cellNumber 0 (row1 0 "9007199254740993") = Some 9007199254740992%Q
  /\ cellNumber 0 (row1 0 "1e400") = None.
Proof. repeat split; vm_compute; reflexivity. Qed.

(** *** Sorting *)

Section Sorting.

(** A comparator that, on the elements [P] holds of, never throws and
    is a strict total order: its sign is antisymmetric, its "less than"
    transitive, and it is zero on no two different elements. *)
Context {A : Type} (cmp : A -> A -> completion number) (P : A -> Prop).

Local Abbreviation ord := (ord cmp).
Local Abbreviation before := (before cmp).

Hypothesis cmp_total :
  forall x y, P x -> P y -> completed (cmp x y) = true.
Hypothesis ord_antisym :
  forall x y, P x -> P y -> ord x y = CompOpp (ord y x).
Hypothesis before_trans :
  forall x y z, P x -> P y -> P z -> before x y -> before y z -> before x z.
Hypothesis ord_distinct :
  forall x y, P x -> P y -> x ≠ y -> ord x y ≠ Eq.

Lemma insert_sorted x s :
  P x -> Forall P s -> x ∉ s -> StronglySorted before s ->
  exists r, insert cmp x s = Normal r
            /\ Permutation (x :: s) r /\ StronglySorted before r.
Proof.
  intros Px Ps. induction s as [|y s IH]; intros Hx Hs; simpl.
  - exists [x]. repeat split; [done|]. repeat constructor.
  - apply Forall_cons in Ps as [Py Ps].
    apply not_elem_of_cons in Hx as [Hxy Hx].
    apply StronglySorted_inv in Hs as [Hs Hy].
    pose proof (cmp_total x y Px Py) as Ht.
    pose proof (ord_distinct x y Px Py Hxy) as Hd.
    pose proof (ord_antisym y x Py Px) as Ha.
    assert (Hord : ord x y = match cmp x y with
                            | Normal v => sign v | Throw => Eq end) by done.
    destruct (cmp x y) as [v|]; [|done].
    destruct (sign v) eqn:Hv; [done| |].
    + exists (x :: y :: s). repeat split; [done|].
      assert (Hb : before x y) by done.
      clear Ha.
      constructor; [by constructor|].
      constructor; [exact Hb|].
      rewrite Forall_forall in Hy, Ps. apply Forall_forall. intros z Hz.
      apply (before_trans x y z); auto.
    + destruct (IH Ps Hx Hs) as (r & -> & Hp & Hr).
      exists (y :: r). repeat split.
      * rewrite <- Hp. apply perm_swap.
      * constructor; [done|]. rewrite <- Hp. constructor; [|done].
        unfold before. by rewrite Ha, Hord.
Qed.

Lemma sort_sorted l :
  Forall P l -> NoDup l ->
  exists r, sort cmp l = Normal r
            /\ Permutation l r /\ StronglySorted before r.
Proof.
  induction l as [|x l IH]; intros Hl Hn; simpl.
  - exists []. repeat split; [done|constructor].
  - apply Forall_cons in Hl as [Px Hl]. apply NoDup_cons in Hn as [Hx Hn].
    destruct (IH Hl Hn) as (s & -> & Hp & Hs).
    destruct (insert_sorted x s Px) as (r & Hr & Hp' & Hr').
    + by rewrite <- Hp.
    + by rewrite <- Hp.
    + done.
    + exists r. repeat split; [done| |done]. by rewrite <- Hp', <- Hp.
Qed.

Lemma before_irrefl x : P x -> ~ before x x.
Proof.
  intros Px H. pose proof (ord_antisym x x Px Px) as Ha.
  unfold before in H. rewrite H in Ha. done.
Qed.

Lemma before_asym x y : P x -> P y -> before x y -> ~ before y x.
Proof.
  intros Px Py H H'. pose proof (ord_antisym x y Px Py) as Ha.
  unfold before in *. rewrite H, H' in Ha. done.
Qed.

(** Two arrangements of the same elements in strict order are equal. *)
Lemma sorted_unique r1 r2 :
  Forall P r1 -> Permutation r1 r2 ->
  StronglySorted before r1 -> StronglySorted before r2 -> r1 = r2.
Proof.
  revert r2. induction r1 as [|x r1 IH]; intros r2 HP Hp H1 H2.
  - by apply Permutation_nil in Hp.
  - destruct r2 as [|y r2]; [by apply Permutation_sym, Permutation_nil in Hp|].
    apply Forall_cons in HP as [Px HP].
    apply StronglySorted_inv in H1 as [H1 Hx].
    apply StronglySorted_inv in H2 as [H2 Hy].
    assert (Py : P y).
    { assert (Hin : y ∈ x :: r1) by (rewrite Hp; left).
      apply elem_of_cons in Hin as [->|Hin]; [done|].
      rewrite Forall_forall in HP. auto. }
    assert (x = y) as <-.
    { assert (Hin : y ∈ x :: r1) by (rewrite Hp; left).
      assert (Hin' : x ∈ y :: r2) by (rewrite <- Hp; left).
      apply elem_of_cons in Hin as [->|Hin]; [done|].
      apply elem_of_cons in Hin' as [->|Hin']; [done|].
      rewrite Forall_forall in Hx, Hy.
      destruct (before_asym x y Px Py); auto. }
    f_equal. apply IH; try done. by apply Permutation_cons_inv in Hp.
Qed.

End Sorting.

Section Completion.

Context {A : Type} (cmp : A -> A -> completion number).

Lemma insert_perm x l r : insert cmp x l = Normal r -> Permutation (x :: l) r.
Proof.
  revert r. induction l as [|y l IH]; intros r; simpl.
  - by intros [= <-].
  - destruct (cmp x y) as [v|]; [|done].
    destruct (sign v); try by intros [= <-].
    destruct (insert cmp x l) as [r'|]; [|done]. intros [= <-].
    rewrite <- (IH r' eq_refl). apply perm_swap.
Qed.

Lemma sort_perm l r : sort cmp l = Normal r -> Permutation l r.
Proof.
  revert r. induction l as [|x l IH]; intros r; simpl.
  - by intros [= <-].
  - destruct (sort cmp l) as [s|]; [|done]. intros H%insert_perm.
    by rewrite (IH s eq_refl).
Qed.

Lemma insert_completes x l :
  (forall y, y ∈ l -> completed (cmp x y) = true) ->
  exists r, insert cmp x l = Normal r.
Proof.
  induction l as [|y l IH]; intros H; simpl; [eauto|].
  pose proof (H y ltac:(left)) as Hy.
  destruct (cmp x y) as [v|]; [|done].
  destruct IH as [r ->]; [intros z Hz; apply H; by right|].
  destruct (sign v); eauto.
Qed.

(** A comparator that throws on no two elements of the list lets the
    sort complete. *)
Lemma sort_completes l :
  (forall x y, x ∈ l -> y ∈ l -> completed (cmp x y) = true) ->
  exists r, sort cmp l = Normal r /\ Permutation l r.
Proof.
  induction l as [|x l IH]; intros H; simpl; [by exists []|].
  destruct IH as (s & Hs & Hp); [intros y z Hy Hz; apply H; by right|].
  rewrite Hs.
  destruct (insert_completes x s) as [r Hr].
  - intros y Hy. apply H; [left|]. right. by rewrite Hp.
  - exists r. split; [done|]. rewrite <- (insert_perm _ _ _ Hr). by constructor.
Qed.

End Completion.

Lemma insert_ext {A} (cmp cmp' : A -> A -> completion number) x l :
  (forall a b, cmp a b = cmp' a b) -> insert cmp x l = insert cmp' x l.
Proof. intros H. induction l as [|y l IH]; simpl; [done|]. by rewrite H, IH. Qed.

Lemma sort_ext {A} (cmp cmp' : A -> A -> completion number) l :
  (forall a b, cmp a b = cmp' a b) -> sort cmp l = sort cmp' l.
Proof.
  intros H. induction l as [|x l IH]; simpl; [done|]. rewrite IH.
  destruct (sort cmp' l); [|done]. by apply insert_ext.
Qed.

Lemma StronglySorted_rev {A} (R : A -> A -> Prop) l :
  StronglySorted R l -> StronglySorted (flip R) (rev l).
Proof.
  induction 1 as [|x l Hl IH Hx]; simpl; [constructor|].
  apply StronglySorted_app. split; [|split].
  - intros y z Hy Hz. apply list_elem_of_singleton in Hz as ->.
    rewrite Forall_forall in Hx. apply Hx.
    by apply list_elem_of_In, in_rev, list_elem_of_In.
  - done.
  - repeat constructor.
Qed.

Section SortTable.

Variable localeCompare : jsstring -> jsstring -> Z.

Lemma compareRows_completes ascending colIndex rowA rowB :
  is_Some (cellText colIndex rowA) -> is_Some (cellText colIndex rowB) ->
  completed (compareRows localeCompare ascending colIndex rowA rowB) = true.
Proof.
  intros [a Ha] [b Hb]. unfold compareRows. rewrite Ha, Hb.
  by destruct (_ && _).
Qed.

(** Descending is ascending with the rows exchanged. *)
Lemma compareRows_desc colIndex rowA rowB :
  compareRows localeCompare false colIndex rowA rowB
  = compareRows localeCompare true colIndex rowB rowA.
Proof.
  unfold compareRows.
  destruct (cellText colIndex rowA), (cellText colIndex rowB); try done.
  by rewrite andb_comm.
Qed.

(** The state, the rows and the headers after [sortTable], whether or
    not it throws once the headers are marked. *)
Lemma sortTable_eq p colIndex clickedTh rows rows' :
  tbody p = Some rows ->
  let s := nextState (sortState p) colIndex in
  sort (compareRows localeCompare (isAsc (dir s)) colIndex) rows
    = Normal rows' ->
  let p' := (sortTable localeCompare colIndex clickedTh p).2 in
  sortState p' = s
  /\ tbody p' = Some rows'
  /\ ths p' = alter (set_aria_sort (dirText (dir s))) clickedTh
                (resetMarker <$> ths p).
Proof.
  intros Hrows s Hsort p'. subst p'.
  set (Q := fun p' : Page =>
    sortState p' = s /\ tbody p' = Some rows'
    /\ ths p' = alter (set_aria_sort (dirText (dir s))) clickedTh
                  (resetMarker <$> ths p)).
  change (Q (sortTable localeCompare colIndex clickedTh p).2).
  unfold sortTable. unfold bind at 1. unfold modify at 1.
  fold (nextState (sortState p) colIndex). fold s.
  set (q := if bool_decide (col (sortState p) = colIndex) then _ else _).
  assert (Hq : q = set_sortState s p).
  { unfold q, s, nextState. by case_bool_decide. }
  rewrite Hq. unfold bind at 1. unfold gets at 1.
  cbn [sortState set_sortState].
  unfold bind at 1. unfold deref at 1. cbn [tbody set_sortState].
  rewrite Hrows, Hsort.
  unfold bind at 1 2 3. unfold modify at 1 2 3.
  cbn [ths set_ths set_tbody set_sortState].
  fold resetMarker.
  assert (Hd : (if isAsc (dir s) then "ascending" else "descending")%string
               = dirText (dir s)) by by destruct (dir s).
  rewrite Hd.
  unfold bind at 1. unfold deref at 1.
  match goal with
  | |- context [match ?o with Some a => (Normal a, ?r) | None => _ end] =>
      destruct o
  end; [|by unfold Q].
  unfold bind at 1. unfold deref at 1.
  match goal with
  | |- context [match ?o with Some a => (Normal a, ?r) | None => _ end] =>
      destruct o
  end; by unfold Q.
Qed.

(** The direction rule holds for every call, also one that throws. *)
Lemma sortTable_state p colIndex clickedTh :
  sortState (sortTable localeCompare colIndex clickedTh p).2
  = nextState (sortState p) colIndex.
Proof.
  set (s := nextState (sortState p) colIndex).
  unfold sortTable. unfold bind at 1. unfold modify at 1.
  set (q := if bool_decide (col (sortState p) = colIndex) then _ else _).
  assert (Hq : q = set_sortState s p).
  { unfold q, s, nextState. by case_bool_decide. }
  rewrite Hq. unfold bind at 1. unfold gets at 1.
  unfold bind at 1. unfold deref at 1. cbn [tbody set_sortState].
  destruct (tbody p) as [rows|]; [|done].
  cbn [sortState set_sortState].
  destruct (sort _ rows) as [rows'|]; [|done].
  unfold bind at 1 2 3. unfold modify at 1 2 3.
  unfold bind at 1. unfold deref at 1.
  match goal with
  | |- context [match ?o with Some a => (Normal a, ?r) | None => _ end] =>
      destruct o
  end; [|done].
  unfold bind at 1. unfold deref at 1.
  match goal with
  | |- context [match ?o with Some a => (Normal a, ?r) | None => _ end] =>
      destruct o
  end; done.
Qed.

(** C7 (as amended): every call of [sortTable] follows the direction
    rule: on the active column the direction flips, on another column
    that column becomes active, ascending.  So a column sorted
    ascending and clicked again is sorted descending; and when every
    row has a cell in the column and the comparator is a strict total
    order on the rows (its sign antisymmetric, its order transitive,
    and no two rows compared as equal), the rows then stand in exactly
    the reverse of the ascending order. *)
Theorem resort_reverses p colIndex clickedTh rows :
  tbody p = Some rows ->
  col (sortState p) ≠ colIndex \/ dir (sortState p) = desc ->
  let cmp := compareRows localeCompare true colIndex in
  (forall r, r ∈ rows -> is_Some (cellText colIndex r)) ->
  (forall x y, x ∈ rows -> y ∈ rows -> ord cmp x y = CompOpp (ord cmp y x)) ->
  (forall x y z, x ∈ rows -> y ∈ rows -> z ∈ rows ->
                 ord cmp x y = Lt -> ord cmp y z = Lt -> ord cmp x z = Lt) ->
  (forall i j x y, rows !! i = Some x -> rows !! j = Some y -> i ≠ j ->
                   ord cmp x y ≠ Eq) ->
  let p1 := (sortTable localeCompare colIndex clickedTh p).2 in
  let p2 := (sortTable localeCompare colIndex clickedTh p1).2 in
  (forall q c th,
     sortState (sortTable localeCompare c th q).2 = nextState (sortState q) c)
  /\ sortState p1 = {| col := colIndex; dir := asc |}
  /\ sortState p2 = {| col := colIndex; dir := desc |}
  /\ exists sorted,
       tbody p1 = Some sorted
       /\ Permutation rows sorted
       /\ StronglySorted (before cmp) sorted
       /\ tbody p2 = Some (rev sorted).
Proof.
  intros Hrows Hdir cmp Hcell Hanti Htrans Hdist p1 p2.
  split; [intros; apply sortTable_state|].
  assert (Hs1 : nextState (sortState p) colIndex
                = {| col := colIndex; dir := asc |}).
  { unfold nextState. case_bool_decide as E; [|done].
    destruct Hdir as [Hne|Hd]; [done|]. by rewrite Hd, E. }
  assert (Hs2 : nextState {| col := colIndex; dir := asc |} colIndex
                = {| col := colIndex; dir := desc |}).
  { unfold nextState. by rewrite bool_decide_eq_true_2. }
  set (P := fun r : Row => r ∈ rows).
  assert (Htotal : forall x y, P x -> P y -> completed (cmp x y) = true).
  { intros x y Hx Hy. apply compareRows_completes; auto. }
  assert (Hrefl : forall x, P x -> ord cmp x x = Eq).
  { intros x Hx. pose proof (Hanti x x Hx Hx) as H.
    by destruct (ord cmp x x). }
  assert (Hnodup : NoDup rows).
  { apply NoDup_alt. intros i j x Hi Hj.
    destruct (decide (i = j)) as [|Hne]; [done|].
    destruct (Hdist i j x x Hi Hj Hne). apply Hrefl.
    by apply list_elem_of_lookup_2 in Hi. }
  assert (Hdist' : forall x y, P x -> P y -> x ≠ y -> ord cmp x y ≠ Eq).
  { intros x y [i Hi]%list_elem_of_lookup_1 [j Hj]%list_elem_of_lookup_1 Hne.
    apply (Hdist i j x y Hi Hj). intros ->. congruence. }
  destruct (sort_sorted cmp P Htotal Hanti Htrans Hdist' rows)
    as (sorted & Hsort & Hperm & Hsorted); [by apply Forall_forall|done|].
  destruct (sortTable_eq p colIndex clickedTh rows sorted Hrows) as (S1 & T1 & _).
  { by rewrite Hs1. }
  fold p1 in S1, T1. rewrite Hs1 in S1.
  split; [done|].
  set (cmp' := fun x y : Row => cmp y x).
  assert (Hord' : forall x y, ord cmp' x y = ord cmp y x) by done.
  destruct (sort_sorted cmp' P) with (l := sorted)
    as (sorted' & Hsort' & Hperm' & Hsorted').
  - intros x y Hx Hy. by apply Htotal.
  - intros x y Hx Hy. rewrite !Hord'. by apply Hanti.
  - intros x y z Hx Hy Hz. unfold before. rewrite !Hord'.
    intros H1 H2. by apply (Htrans z y x).
  - intros x y Hx Hy Hne. rewrite Hord'. apply Hdist'; auto.
  - apply Forall_forall. intros x Hx. unfold P. by rewrite Hperm.
  - by rewrite <- Hperm.
  - destruct (sortTable_eq p1 colIndex clickedTh sorted sorted' T1)
      as (S2 & T2 & _).
    { rewrite S1, Hs2. simpl. rewrite <- Hsort'. apply sort_ext.
      intros a b. apply compareRows_desc. }
    fold p2 in S2, T2. rewrite S1, Hs2 in S2.
    split; [done|]. exists sorted. repeat split; try done.
    rewrite T2. f_equal.
    apply (sorted_unique cmp' P).
    + intros x y Hx Hy. rewrite !Hord'. by apply Hanti.
    + apply Forall_forall. intros x Hx. unfold P.
      by rewrite Hperm, Hperm'.
    + rewrite <- Hperm'. apply Permutation_rev.
    + done.
    + exact (StronglySorted_rev _ _ Hsorted).
Qed.

End SortTable.

(** The column "3", "10", "2" sorted and clicked again. *)
Lemma resort_reverses_witness :
  exists sorted,
    tbody (sortTable codeUnitOrder 0 0
             (samplePage [row1 0 "3"; row1 1 "10"; row1 2 "2"])).2
      = Some sorted
    /\ tbody (sortTable codeUnitOrder 0 0
                (sortTable codeUnitOrder 0 0
                   (samplePage [row1 0 "3"; row1 1 "10"; row1 2 "2"])).2).2
      = Some (rev sorted).
Proof.
  destruct (resort_reverses codeUnitOrder
              (samplePage [row1 0 "3"; row1 1 "10"; row1 2 "2"]) 0 0
              [row1 0 "3"; row1 1 "10"; row1 2 "2"] eq_refl)
    as (_ & _ & _ & sorted & H1 & _ & _ & H2).
  - left. discriminate.
  - intros r Hr.
    repeat (apply elem_of_cons in Hr as [->|Hr]; [by eexists|]).
    by apply elem_of_nil in Hr.
  - intros x y Hx Hy.
    repeat (apply elem_of_cons in Hx as [->|Hx]);
      try (apply elem_of_nil in Hx; destruct Hx);
      repeat (apply elem_of_cons in Hy as [->|Hy]);
      try (apply elem_of_nil in Hy; destruct Hy); reflexivity.
  - intros x y z Hx Hy Hz.
    repeat (apply elem_of_cons in Hx as [->|Hx]);
      try (apply elem_of_nil in Hx; destruct Hx);
      repeat (apply elem_of_cons in Hy as [->|Hy]);
      try (apply elem_of_nil in Hy; destruct Hy);
      repeat (apply elem_of_cons in Hz as [->|Hz]);
      try (apply elem_of_nil in Hz; destruct Hz);
      vm_compute; congruence.
  - intros i j x y Hi Hj Hne.
    destruct i as [|[|[|i]]]; try done; destruct j as [|[|[|j]]]; try done;
      injection Hi as <-; injection Hj as <-; vm_compute; congruence.
  - exists sorted. by split.
Defined.

(** The column "3", "10", "2" sorted ascending reads 2, 3, 10. *)
Example numeric_column_ascending :
  tbody (sortTable codeUnitOrder 0 0
           (samplePage [row1 0 "3"; row1 1 "10"; row1 2 "2"])).2
  = Some [row1 2 "2"; row1 0 "3"; row1 1 "10"].
Proof. reflexivity. Qed.

(** C7 as stated fails: the cells "1.0" and "1" are distinct, yet the
    comparator finds them equal, and the stable sort leaves the two
    rows in place both times: the second order is not the reverse of
    the first. *)
Lemma equal_numbers_are_not_reversed :
  js "1.0" ≠ js "1"
  /\ tbody (sortTable codeUnitOrder 0 0
              (samplePage [row1 0 "1.0"; row1 1 "1"])).2
     = Some [row1 0 "1.0"; row1 1 "1"]
  /\ tbody (sortTable codeUnitOrder 0 0
              (sortTable codeUnitOrder 0 0
                 (samplePage [row1 0 "1.0"; row1 1 "1"])).2).2
     = Some [row1 0 "1.0"; row1 1 "1"]
  /\ [row1 0 "1.0"; row1 1 "1"] ≠ rev [row1 0 "1.0"; row1 1 "1"].
Proof. repeat split; try reflexivity; discriminate. Qed.

(** *** Sorting by a numeric key *)

Section Keyed.

(** A comparator that never throws on the elements [P] holds of and
    compares them by a rational key, upwards or downwards. *)
Context {A : Type} (cmp : A -> A -> completion number).
Context (key : A -> Q) (up : bool) (P : A -> Prop).

Local Abbreviation inOrder :=
  (fun a b : A => if up then (key a <= key b)%Q else (key b <= key a)%Q).
Local Abbreviation tie :=
  (fun (k : Q) (a : A) =>
     match (key a ?= k)%Q with Eq => true | _ => false end).

Hypothesis cmp_key :
  forall x y, P x -> P y ->
    exists v, cmp x y = Normal v
              /\ sign v = if up then (key x ?= key y)%Q
                          else (key y ?= key x)%Q.

Lemma not_Gt_inOrder x y :
  (if up then (key x ?= key y)%Q else (key y ?= key x)%Q) ≠ Gt ->
  inOrder x y.
Proof. destruct up; by rewrite Qle_alt. Qed.

Lemma Gt_inOrder x y :
  (if up then (key x ?= key y)%Q else (key y ?= key x)%Q) = Gt ->
  inOrder y x /\ forall k, tie k x && tie k y = false.
Proof.
  intros H.
  assert (Hne : forall k, tie k x && tie k y = false).
  { intros k. destruct (key x ?= k)%Q eqn:E1; try done.
    destruct (key y ?= k)%Q eqn:E2; try done.
    apply Qeq_alt in E1, E2.
    assert (E : (key x == key y)%Q) by by rewrite E1, E2.
    assert (E' : (key y == key x)%Q) by done.
    apply Qeq_alt in E, E'. destruct up; congruence. }
  split; [|done].
  destruct up; apply Qlt_le_weak; by apply Qgt_alt.
Qed.

Lemma inOrder_trans x y z : inOrder x y -> inOrder y z -> inOrder x z.
Proof. destruct up; intros H1 H2; eapply Qle_trans; eauto. Qed.

Lemma insert_keyed x s :
  P x -> Forall P s -> StronglySorted inOrder s ->
  exists r, insert cmp x s = Normal r
            /\ Permutation (x :: s) r
            /\ StronglySorted inOrder r
            /\ forall k, List.filter (tie k) r = List.filter (tie k) (x :: s).
Proof.
  intros Hx. induction s as [|y s IH]; intros Hs Hsorted.
  - exists [x]. repeat split; try done.
    apply SSorted_cons; [constructor|done].
  - apply Forall_cons in Hs as [Hy Hs].
    apply StronglySorted_inv in Hsorted as [Hsorted Hall].
    destruct (cmp_key x y Hx Hy) as (v & Hv & Hsign).
    cbn [insert]. rewrite Hv, Hsign.
    destruct (if up then (key x ?= key y)%Q else (key y ?= key x)%Q) eqn:E.
    1,2: exists (x :: y :: s); repeat split; try done;
         assert (Hxy : inOrder x y) by (apply not_Gt_inOrder; by rewrite E);
         (apply SSorted_cons; [by apply SSorted_cons|]);
         (apply Forall_cons; split; [done|]);
         eapply Forall_impl; [exact Hall|];
         intros z Hz; by apply (inOrder_trans x y z).
    destruct (IH Hs Hsorted) as (r & -> & Hperm & Hr & Hfilter).
    destruct (Gt_inOrder x y E) as [Hyx Htie].
    exists (y :: r). repeat split.
    + rewrite <- Hperm. apply perm_swap.
    + apply SSorted_cons; [done|].
      rewrite <- Hperm. by apply Forall_cons.
    + intros k. cbn [List.filter]. rewrite Hfilter. cbn [List.filter].
      specialize (Htie k). by destruct (tie k x), (tie k y).
Qed.

Lemma sort_keyed l :
  Forall P l ->
  exists r, sort cmp l = Normal r
            /\ Permutation l r
            /\ StronglySorted inOrder r
            /\ forall k, List.filter (tie k) r = List.filter (tie k) l.
Proof.
  induction l as [|x l IH]; intros Hl.
  - exists []. repeat split; try done. constructor.
  - apply Forall_cons in Hl as [Hx Hl].
    destruct (IH Hl) as (s & Hs & Hperm & Hsorted & Hfilter).
    cbn [sort]. rewrite Hs.
    destruct (insert_keyed x s Hx) as (r & -> & Hperm' & Hr & Hfilter');
      [by rewrite <- Hperm|done|].
    exists r. repeat split; try done.
    + by rewrite <- Hperm', <- Hperm.
    + intros k. rewrite Hfilter'. cbn [List.filter]. by rewrite Hfilter.
Qed.

End Keyed.

(** *** Every call of [sortTable] *)

Section Calls.

Variable localeCompare : jsstring -> jsstring -> Z.

Lemma label_afterSort s rows clickedTh p :
  ths (afterSort s rows clickedTh p) !! clickedTh ≫= label
  = ths p !! clickedTh ≫= label.
Proof.
  unfold afterSort. cbn [ths set_ths].
  rewrite list_lookup_alter_eq, list_lookup_fmap.
  destruct (ths p !! clickedTh) as [t|]; [|done]. simpl.
  unfold resetMarker. by destruct (in_table t && _).
Qed.

(** What [sortTable] returns and leaves behind, case by case: the state
    is set first; the rows are put back and the headers marked once the
    sort has completed; the live region is cleared and the timer set
    once the label of the header has been read. *)
Lemma sortTable_cases p colIndex clickedTh :
  sortTable localeCompare colIndex clickedTh p =
    let s := nextState (sortState p) colIndex in
    match tbody p with
    | None => (Throw, set_sortState s p)
    | Some rows =>
        match sort (compareRows localeCompare (isAsc (dir s)) colIndex) rows
        with
        | Throw => (Throw, set_sortState s p)
        | Normal rows' =>
            let q := afterSort s rows' clickedTh p in
            match ths p !! clickedTh ≫= label, announcer p with
            | Some name, Some _ =>
                (Normal tt,
                 set_timers (timers p ++ [announcement (trim name) (dir s)])
                   (set_announcer [] q))
            | _, _ => (Throw, q)
            end
        end
    end.
Proof.
  cbv zeta. set (s := nextState (sortState p) colIndex).
  unfold sortTable. unfold bind at 1. unfold modify at 1.
  set (q := if bool_decide (col (sortState p) = colIndex) then _ else _).
  assert (Hq : q = set_sortState s p).
  { unfold q, s, nextState. by case_bool_decide. }
  rewrite Hq. clear q Hq. unfold bind at 1. unfold gets at 1.
  unfold bind at 1. unfold deref at 1. cbn [tbody set_sortState sortState].
  destruct (tbody p) as [rows|] eqn:Hrows; [|done].
  destruct (sort _ rows) as [rows'|]; [|done].
  unfold bind at 1 2 3. unfold modify at 1 2 3.
  cbn [ths set_ths set_tbody set_sortState].
  fold resetMarker.
  assert (Hd : (if isAsc (dir s) then "ascending" else "descending")%string
               = dirText (dir s)) by by destruct (dir s).
  rewrite Hd.
  assert (E : forall l1 l2 q, set_ths l1 (set_ths l2 q) = set_ths l1 q)
    by done.
  rewrite E. clear E.
  change (set_ths _ (set_tbody rows' (set_sortState s p)))
    with (afterSort s rows' clickedTh p).
  unfold bind at 1. unfold deref at 1.
  rewrite label_afterSort.
  destruct (ths p !! clickedTh ≫= label) as [name|]; [|done].
  unfold bind at 1. unfold deref at 1.
  change (announcer (afterSort s rows' clickedTh p)) with (announcer p).
  destruct (announcer p); [|done].
  by unfold bind, modify.
Qed.

(** X15: the rows of the table are permuted as wholes, by every call: one
    that completes, one that throws while it sorts (the rows stay as
    they were) and one that throws once the rows are put back. *)
Theorem sortTable_permutes p colIndex clickedTh rows :
  tbody p = Some rows ->
  exists rows',
    tbody (sortTable localeCompare colIndex clickedTh p).2 = Some rows'
    /\ Permutation rows rows'.
Proof.
  intros Hrows. rewrite sortTable_cases. cbv zeta. rewrite Hrows.
  destruct (sort _ rows) as [rows'|] eqn:Hsort.
  - exists rows'. split; [|by apply sort_perm in Hsort].
    by destruct (ths p !! clickedTh ≫= label), (announcer p).
  - by exists rows.
Qed.

Lemma compareRows_numbers ascending colIndex a b x y :
  cellNumber colIndex a = Some x -> cellNumber colIndex b = Some y ->
  exists v,
    compareRows localeCompare ascending colIndex a b = Normal v
    /\ sign v = if ascending then (x ?= y)%Q else (y ?= x)%Q.
Proof.
  unfold cellNumber, compareRows.
  destruct (cellText colIndex a) as [ta|]; [|done].
  destruct (cellText colIndex b) as [tb|]; [|done].
  destruct (parseFloat (trim ta)) as [| |qa] eqn:Ea; try done.
  destruct (parseFloat (trim tb)) as [| |qb] eqn:Eb; try done.
  apply parseFloat_multipleOfMin in Ea, Eb.
  intros [= ->] [= ->]. cbn [isNaN negb andb]. eexists. split; [done|].
  destruct ascending; by apply sign_sub.
Qed.

Lemma StronglySorted_weaken {A} (R R' : A -> A -> Prop) (P : A -> Prop) l :
  Forall P l -> (forall a b, P a -> P b -> R a b -> R' a b) ->
  StronglySorted R l -> StronglySorted R' l.
Proof.
  intros Hl HR Hs. induction Hs as [|a l Hs IH Ha]; [constructor|].
  apply Forall_cons in Hl as [HPa Hl]. constructor; [by apply IH|].
  rewrite Forall_forall in *. intros b Hb. apply HR; auto.
Qed.

(** A column of finite numbers: the sort completes, in the order of the
    numbers, and rows with equal numbers keep the order they had. *)
Lemma sortTable_numeric p colIndex clickedTh rows :
  tbody p = Some rows ->
  (forall r, r ∈ rows -> is_Some (cellNumber colIndex r)) ->
  let d := dir (nextState (sortState p) colIndex) in
  exists rows',
    tbody (sortTable localeCompare colIndex clickedTh p).2 = Some rows'
    /\ Permutation rows rows'
    /\ StronglySorted (numberOrder d colIndex) rows'
    /\ forall q, List.filter (hasNumber colIndex q) rows'
                 = List.filter (hasNumber colIndex q) rows.
Proof.
  intros Hrows Hnum d.
  set (key := fun r => default 0%Q (cellNumber colIndex r)).
  set (P := fun r => is_Some (cellNumber colIndex r)).
  assert (Htie : forall q l, Forall P l ->
            List.filter (hasNumber colIndex q) l
            = List.filter
                (fun a => match (key a ?= q)%Q with Eq => true | _ => false end)
                l).
  { intros q l Hl. apply List.filter_ext_in. intros a Ha.
    rewrite Forall_forall in Hl. apply list_elem_of_In in Ha.
    destruct (Hl a Ha) as [x Hx]. unfold hasNumber, key. by rewrite Hx. }
  destruct (sort_keyed (compareRows localeCompare (isAsc d) colIndex)
              key (isAsc d) P) with (l := rows)
    as (rows' & Hsort & Hperm & Hsorted & Hfilter).
  { intros a b [x Hx] [y Hy]. unfold key. rewrite Hx, Hy. simpl.
    by apply compareRows_numbers. }
  { by apply Forall_forall. }
  assert (HP : Forall P rows') by (rewrite <- Hperm; by apply Forall_forall).
  exists rows'. rewrite sortTable_cases. cbv zeta. rewrite Hrows.
  fold d. rewrite Hsort. repeat split.
  - by destruct (ths p !! clickedTh ≫= label), (announcer p).
  - done.
  - eapply (StronglySorted_weaken _ _ P rows' HP); [|exact Hsorted].
    intros a b [x Hx] [y Hy]. unfold numberOrder, key. rewrite Hx, Hy. simpl.
    by destruct d.
  - intros q. rewrite (Htie q rows' HP), Hfilter. symmetry. apply Htie.
    by apply Forall_forall.
Qed.

(** X16: in a column where [parseFloat] reads a finite number in every
    cell, the rows come out in the order of the numbers read (the
    binary64 values, so that two decimals rounded to the same number
    count as equal): non-decreasing when the sort is ascending,
    non-increasing when it is descending. *)
Theorem numeric_column_sorted p colIndex clickedTh rows :
  tbody p = Some rows ->
  (forall r, r ∈ rows -> is_Some (cellNumber colIndex r)) ->
  let d := dir (nextState (sortState p) colIndex) in
  exists rows',
    tbody (sortTable localeCompare colIndex clickedTh p).2 = Some rows'
    /\ Permutation rows rows'
    /\ StronglySorted (numberOrder d colIndex) rows'.
Proof.
  intros Hrows Hnum d.
  destruct (sortTable_numeric p colIndex clickedTh rows Hrows Hnum)
    as (rows' & H1 & H2 & H3 & _).
  by exists rows'.
Qed.

(** X17: in such a column, rows whose numbers are equal keep the order they
    had, whether the sort is ascending or descending: descending is a
    sort with the comparison reversed, not the ascending order read
    backwards. *)
Theorem numeric_ties_keep_order p colIndex clickedTh rows :
  tbody p = Some rows ->
  (forall r, r ∈ rows -> is_Some (cellNumber colIndex r)) ->
  exists rows',
    tbody (sortTable localeCompare colIndex clickedTh p).2 = Some rows'
    /\ forall q, List.filter (hasNumber colIndex q) rows'
                 = List.filter (hasNumber colIndex q) rows.
Proof.
  intros Hrows Hnum.
  destruct (sortTable_numeric p colIndex clickedTh rows Hrows Hnum)
    as (rows' & H1 & _ & _ & H4).
  by exists rows'.
Qed.

Lemma sort_missing {A} (cmp : A -> A -> completion number) (bad : A -> Prop) l :
  (forall x y, bad x \/ bad y -> cmp x y = Throw) ->
  (exists x, x ∈ l /\ bad x) -> (2 <= length l)%nat ->
  sort cmp l = Throw.
Proof.
  intros Hcmp. induction l as [|x l IH]; intros (b & Hb & Hbad) Hlen.
  { by apply elem_of_nil in Hb. }
  cbn [sort]. destruct (sort cmp l) as [s|] eqn:Hs; [|done].
  pose proof (sort_perm cmp l s Hs) as Hperm.
  destruct s as [|y s].
  { apply Permutation_nil_r in Hperm. subst l. simpl in Hlen. lia. }
  cbn [insert].
  apply elem_of_cons in Hb as [->|Hb].
  { rewrite Hcmp; [done|by left]. }
  destruct l as [|z [|z' l]].
  - by apply elem_of_nil in Hb.
  - apply list_elem_of_singleton in Hb as ->.
    apply Permutation_singleton_l in Hperm. injection Hperm as <- <-.
    rewrite Hcmp; [done|by right].
  - assert (E : @Normal (list A) (y :: s) = Throw)
      by (apply IH; [by exists b|simpl; lia]).
    done.
Qed.

(** C8 (as amended): a call of [sortTable] on a page that holds the table
    body, with a header of the table handed to it; for a click that
    header is the one the clicked button lies in, and the column the
    one the [data-col] of the button names.  If the sort completes
    (there are fewer than two rows, or every row has a cell in the
    column), exactly one header of the table carries a marker other
    than "none": the header handed to the call, with "ascending" or
    "descending" as the direction just applied; every other header
    that carried a marker carries "none".  If there are two rows or
    more and one lacks the cell, the comparator throws and every header
    is as it was. *)
Theorem one_header_marked p colIndex clickedTh rows th :
  tbody p = Some rows ->
  ths p !! clickedTh = Some th -> in_table th = true ->
  let p' := (sortTable localeCompare colIndex clickedTh p).2 in
  (forall i btn,
     sortButtons p !! i = Some btn ->
     btn_th btn = Some clickedTh ->
     parseInt10 (data_col btn) = Some colIndex ->
     sortClick localeCompare i p
     = sortTable localeCompare colIndex clickedTh p)
  /\ ((2 <= length rows)%nat ->
      (exists r, r ∈ rows /\ cellText colIndex r = None) ->
      (sortTable localeCompare colIndex clickedTh p).1 = Throw
      /\ ths p' = ths p)
  /\ ((length rows < 2)%nat
      \/ (forall r, r ∈ rows -> is_Some (cellText colIndex r)) ->
      sortState p' = nextState (sortState p) colIndex
      /\ (exists t, ths p' !! clickedTh = Some t /\ in_table t = true
                    /\ marked t)
      /\ forall i t,
           ths p' !! i = Some t -> in_table t = true ->
           (marked t <-> i = clickedTh)
           /\ (i = clickedTh ->
               aria_sort t = Some (dirText (dir (sortState p'))))
           /\ (i ≠ clickedTh ->
               exists t0, ths p !! i = Some t0
                          /\ aria_sort t = (fun _ => "none"%string)
                                             <$> aria_sort t0)).
Proof.
  intros Hrows Hth Hin p'.
  set (s := nextState (sortState p) colIndex).
  split; [|split].
  { intros i btn Hbtn Hbth Hcol. unfold sortClick.
    unfold bind at 1. unfold deref at 1. by rewrite Hbtn, Hbth, Hcol. }
  { intros Hlen Hbad. unfold p'. rewrite sortTable_cases. cbv zeta.
    rewrite Hrows.
    rewrite (sort_missing _ (fun r => cellText colIndex r = None));
      try done.
    intros x y [H|H]; unfold compareRows; rewrite H; [done|].
    by destruct (cellText colIndex x). }
  intros Hcomplete.
  assert (exists rows',
            sort (compareRows localeCompare (isAsc (dir s)) colIndex) rows
            = Normal rows') as [rows' Hsort].
  { destruct Hcomplete as [Hlen|Hcell].
    - destruct rows as [|x [|y l]]; simpl in *; eauto. lia.
    - destruct (sort_completes
                  (compareRows localeCompare (isAsc (dir s)) colIndex) rows)
        as (rows' & Hsort & _); [|by exists rows'].
      intros x y Hx Hy. apply compareRows_completes; auto. }
  destruct (sortTable_eq localeCompare p colIndex clickedTh rows rows'
              Hrows Hsort)
    as (S & _ & T).
  fold p' in S, T. fold s in T. split; [done|].
  split.
  { exists (set_aria_sort (dirText (dir s)) (resetMarker th)).
    rewrite T, list_lookup_alter_eq, list_lookup_fmap, Hth. simpl.
    split; [done|]. split.
    - unfold resetMarker. by destruct (_ && _).
    - exists (dirText (dir s)). split; [done|]. by destruct (dir s). }
  intros i t Hi Ht. rewrite T in Hi. rewrite S. fold s.
  destruct (decide (i = clickedTh)) as [->|Hne].
  - rewrite list_lookup_alter_eq, list_lookup_fmap, Hth in Hi.
    injection Hi as <-. simpl. repeat split; try done.
    exists (dirText (dir s)). split; [done|]. by destruct (dir s).
  - rewrite list_lookup_alter_ne, list_lookup_fmap in Hi by done.
    destruct (ths p !! i) as [t0|] eqn:E0; [|done].
    injection Hi as <-.
    assert (Ha : aria_sort (resetMarker t0)
                 = (fun _ => "none"%string) <$> aria_sort t0).
    { unfold resetMarker in *.
      destruct (in_table t0) eqn:Ei; simpl in *.
      - case_bool_decide as Es; simpl.
        + by destruct Es as [v ->].
        + destruct (aria_sort t0); [|done]. destruct Es. eauto.
      - congruence. }
    repeat split; try done.
    + intros (v & Hv & Hnone). rewrite Ha in Hv.
      destruct (aria_sort t0); simpl in Hv; congruence.
    + eauto.
Qed.

(** X18: a row without a cell in the column makes the comparator throw as
    soon as there are two rows to compare.  The rows, the headers and
    the live region are then as they were, but the sort state has
    already changed: the next click on that column finds it active. *)
Theorem missing_cell_throws p colIndex clickedTh rows :
  tbody p = Some rows -> (2 <= length rows)%nat ->
  (exists r, r ∈ rows /\ cellText colIndex r = None) ->
  sortTable localeCompare colIndex clickedTh p
  = (Throw, set_sortState (nextState (sortState p) colIndex) p).
Proof.
  intros Hrows Hlen Hbad. rewrite sortTable_cases. cbv zeta. rewrite Hrows.
  rewrite (sort_missing _ (fun r => cellText colIndex r = None)); try done.
  intros x y [H|H]; unfold compareRows; rewrite H; [done|].
  by destruct (cellText colIndex x).
Qed.




End Calls.

(** A click on the second header of the sample table. *)
Lemma sortTable_permutes_witness :
  exists rows',
    tbody (sortTable codeUnitOrder 1 1 (samplePage sampleRows)).2 = Some rows'
    /\ Permutation sampleRows rows'.
Proof.
  apply (sortTable_permutes codeUnitOrder (samplePage sampleRows) 1 1).
  reflexivity.
Defined.

Ltac each_row H :=
  repeat (apply elem_of_cons in H as [->|H]; [vm_compute; eauto|]);
  by apply elem_of_nil in H.

(** The column "3", "10", "2". *)
Lemma numeric_column_sorted_witness :
  exists rows',
    tbody (sortTable codeUnitOrder 0 0
             (samplePage [row1 0 "3"; row1 1 "10"; row1 2 "2"])).2
    = Some rows'
    /\ Permutation [row1 0 "3"; row1 1 "10"; row1 2 "2"] rows'
    /\ StronglySorted (numberOrder asc 0) rows'.
Proof.
  apply (numeric_column_sorted codeUnitOrder
           (samplePage [row1 0 "3"; row1 1 "10"; row1 2 "2"]) 0 0).
  - reflexivity.
  - intros r Hr. each_row Hr.
Defined.

(** The column "1.0", "0", "1": the two rows that read as 1 stay in
    the order they had. *)
Lemma numeric_ties_keep_order_witness :
  exists rows',
    tbody (sortTable codeUnitOrder 0 0
             (samplePage [row1 0 "1.0"; row1 1 "0"; row1 2 "1"])).2
    = Some rows'
    /\ List.filter (hasNumber 0 1) rows' = [row1 0 "1.0"; row1 2 "1"].
Proof.
  destruct (numeric_ties_keep_order codeUnitOrder
              (samplePage [row1 0 "1.0"; row1 1 "0"; row1 2 "1"]) 0 0
              [row1 0 "1.0"; row1 1 "0"; row1 2 "1"])
    as (rows' & H1 & H2).
  - reflexivity.
  - intros r Hr. each_row Hr.
  - exists rows'. split; [exact H1|]. rewrite H2. reflexivity.
Defined.

(** The sample table sorted by its second column: the second header is
    the one marked, ascending. *)
Lemma one_header_marked_witness :
  exists t,
    ths (sortTable codeUnitOrder 1 1 (samplePage sampleRows)).2 !! 1%nat
      = Some t
    /\ marked t /\ aria_sort t = Some "ascending"%string.
Proof.
  destruct (one_header_marked codeUnitOrder (samplePage sampleRows) 1 1
              sampleRows (sampleTh "Credits") eq_refl eq_refl eq_refl)
    as (_ & _ & H).
  destruct H as (_ & _ & H).
  - right. intros r Hr.
    repeat (apply elem_of_cons in Hr as [->|Hr]; [by eexists|]).
    by apply elem_of_nil in Hr.
  - exists (set_aria_sort "ascending" (sampleTh "Credits")).
    split; [reflexivity|].
    destruct (H 1%nat (set_aria_sort "ascending" (sampleTh "Credits"))
                eq_refl eq_refl) as (Hm & Ha & _).
    split; [by apply Hm|by apply Ha].
Defined.

(** C8 as stated fails: the sample table, no header marked, sorted by
    a column its rows do not have.  The call is a sort invocation, it
    throws in the comparator, and no header carries a marker other
    than "none" after it. *)
Lemma throwing_sort_marks_no_header :
  let call := sortTable codeUnitOrder 5 0 (samplePage sampleRows) in
  call.1 = Throw
  /\ sortState call.2 = {| col := 5; dir := asc |}
  /\ ths call.2 = [sampleTh "Course"; sampleTh "Credits"]
  /\ forall t, t ∈ ths call.2 -> ~ marked t.
Proof.
  repeat split.
  intros t Ht (v & Hv & Hnone).
  repeat (apply elem_of_cons in Ht as [->|Ht]; [by injection Hv as <-|]).
  by apply elem_of_nil in Ht.
Qed.

(** The sample table sorted by a column it does not have. *)
Lemma missing_cell_throws_witness :
  sortTable codeUnitOrder 5 0 (samplePage sampleRows)
  = (Throw, set_sortState {| col := 5; dir := asc |} (samplePage sampleRows)).
Proof.
  apply (missing_cell_throws codeUnitOrder (samplePage sampleRows) 5 0
           sampleRows).
  - reflexivity.
  - simpl. lia.
  - eexists. split; [apply list_elem_of_here|reflexivity].
Defined.


(** *** The headers in every state *)

Lemma resetMarker_unmarked t : in_table t = true -> ~ marked (resetMarker t).
Proof.
  intros Ht (v & Hv & Hn). unfold resetMarker in Hv. rewrite Ht in Hv.
  simpl in Hv. destruct (aria_sort t) as [w|] eqn:E.
  - rewrite bool_decide_eq_true_2 in Hv by eauto. simpl in Hv. congruence.
  - rewrite bool_decide_eq_false_2 in Hv by (by intros [? ?]).
    congruence.
Qed.

Lemma in_table_resetMarker t : in_table (resetMarker t) = in_table t.
Proof. unfold resetMarker. by destruct (in_table t && _). Qed.

(** Once the markers are reset and one header is marked, that header is
    the only marked header of the table. *)
Lemma marked_after_reset (l : list Th) (clickedTh : nat) v (i : nat) t :
  alter (set_aria_sort v) clickedTh (resetMarker <$> l) !! i = Some t ->
  in_table t = true -> marked t -> i = clickedTh.
Proof.
  intros Hi Ht Hm. destruct (decide (i = clickedTh)) as [|Hne]; [done|].
  rewrite list_lookup_alter_ne, list_lookup_fmap in Hi by done.
  destruct (l !! i) as [t0|]; [|done]. injection Hi as <-.
  rewrite in_table_resetMarker in Ht. by apply resetMarker_unmarked in Hm.
Qed.

Section Headers.

Variable localeCompare : jsstring -> jsstring -> Z.

Lemma ths_sortTable p colIndex clickedTh :
  ths (sortTable localeCompare colIndex clickedTh p).2 = ths p
  \/ exists v,
       ths (sortTable localeCompare colIndex clickedTh p).2
       = alter (set_aria_sort v) clickedTh (resetMarker <$> ths p).
Proof.
  rewrite sortTable_cases. cbv zeta.
  destruct (tbody p) as [rows|]; [|by left].
  destruct (sort _ rows) as [rows'|]; [|by left].
  right. eexists.
  by destruct (ths p !! clickedTh ≫= label), (announcer p).
Qed.

Lemma ths_click p i :
  ths (click localeCompare i p).2 = ths p
  \/ exists v clickedTh,
       ths (click localeCompare i p).2
       = alter (set_aria_sort v) clickedTh (resetMarker <$> ths p).
Proof.
  unfold click, bind, gets. cbv [id].
  case_bool_decide; [|by left].
  unfold sortClick, bind, deref.
  destruct (sortButtons p !! i) as [btn|]; [|by left].
  destruct (btn_th btn) as [th|]; [|by left].
  destruct (parseInt10 (data_col btn)) as [c|]; [|by left].
  destruct (ths_sortTable p c th) as [E|[v E]]; [by left|].
  right. by exists v, th.
Qed.

Lemma ths_timeout p : ths (timeout p).2 = ths p.
Proof.
  unfold timeout, bind, gets, modify. cbv [id]. by destruct (timers p).
Qed.

Lemma ths_initSortableTable p : ths (initSortableTable p).2 = ths p.
Proof.
  unfold initSortableTable, bind, gets, modify. cbv [id].
  by destruct (table p && _ && _).
Qed.

Lemma marked_unique p0 p :
  (forall t, t ∈ ths p0 -> in_table t = true -> ~ marked t) ->
  reachable localeCompare p0 p ->
  forall i j ti tj,
    ths p !! i = Some ti -> ths p !! j = Some tj ->
    in_table ti = true -> in_table tj = true ->
    marked ti -> marked tj -> i = j.
Proof.
  intros H0 Hr. induction Hr as [|p k _ IH|p _ IH].
  - rewrite ths_initSortableTable. intros i j ti tj Hi _ Hti _ Hm _.
    exfalso. apply (H0 ti); [by apply list_elem_of_lookup_2 in Hi|done|done].
  - destruct (ths_click p k) as [->|(v & th & ->)]; [done|].
    intros i j ti tj Hi Hj Hti Htj Hmi Hmj.
    rewrite (marked_after_reset _ _ _ i ti Hi Hti Hmi).
    by rewrite (marked_after_reset _ _ _ j tj Hj Htj Hmj).
  - by rewrite ths_timeout.
Qed.

(** X20: at most one header of the table is marked as sorted, in every
    state the page reaches: when no header of the table carries a
    marker other than "none" as the controller starts, then after any
    clicks on the sort buttons and any timers, calls that throw
    included, a header of the table that carries "ascending" or
    "descending" is the only one that does. *)
Theorem at_most_one_marked p0 p :
  (forall t, t ∈ ths p0 -> in_table t = true -> ~ marked t) ->
  reachable localeCompare p0 p ->
  forall i j ti tj,
    ths p !! i = Some ti -> ths p !! j = Some tj ->
    in_table ti = true -> in_table tj = true ->
    marked ti -> i ≠ j -> ~ marked tj.
Proof.
  intros H0 Hr i j ti tj Hi Hj Hti Htj Hmi Hne Hmj. apply Hne.
  by apply (marked_unique p0 p H0 Hr i j ti tj).
Qed.

End Headers.

(** The sample table after a click on each of its two sort buttons:
    the second header is marked, so the first is not. *)
Lemma at_most_one_marked_witness :
  ths (click codeUnitOrder 1
         (click codeUnitOrder 0
            (initSortableTable (samplePage sampleRows)).2).2).2
  = [ {| in_table := true; aria_sort := Some "none"%string;
         label := Some (js "Course") |};
      {| in_table := true; aria_sort := Some "ascending"%string;
         label := Some (js "Credits") |} ]
  /\ ~ marked {| in_table := true; aria_sort := Some "none"%string;
                 label := Some (js "Course") |}.
Proof.
  assert (E : ths (click codeUnitOrder 1
                     (click codeUnitOrder 0
                        (initSortableTable (samplePage sampleRows)).2).2).2
              = [ {| in_table := true; aria_sort := Some "none"%string;
                     label := Some (js "Course") |};
                  {| in_table := true; aria_sort := Some "ascending"%string;
                     label := Some (js "Credits") |} ])
    by (vm_compute; reflexivity).
  split; [exact E|].
  apply (at_most_one_marked codeUnitOrder (samplePage sampleRows)
           (click codeUnitOrder 1
              (click codeUnitOrder 0
                 (initSortableTable (samplePage sampleRows)).2).2).2)
    with (i := 1%nat) (j := 0%nat)
         (ti := {| in_table := true; aria_sort := Some "ascending"%string;
                   label := Some (js "Credits") |}).
  - intros t Ht _ (v & Hv & Hn). simpl in Ht.
    repeat (apply elem_of_cons in Ht as [->|Ht]; [simpl in Hv; congruence|]).
    by apply elem_of_nil in Ht.
  - apply reach_click, reach_click, reach_init.
  - rewrite E. reflexivity.
  - rewrite E. reflexivity.
  - reflexivity.
  - reflexivity.
  - exists "ascending"%string. split; [reflexivity|discriminate].
  - discriminate.
Defined.

End TableFacts.

(** ** Missing elements *)

Module InitFacts.
Import JS.

(** The form controller declines when the form is missing. *)
Lemma initFormValidation_declines p :
  Form.elements p !! "contact-form"%string = None ->
  Form.initFormValidation p = (Normal tt, p).
Proof.
  intros H. rewrite FormFacts.initFormValidation_eq, H, app_nil_r.
  by destruct p.
Qed.

(** The table controller declines when the table, its body or the
    announcer is missing. *)
Lemma initSortableTable_declines p :
  Table.table p = false \/ Table.tbody p = None \/ Table.announcer p = None ->
  Table.initSortableTable p = (Normal tt, p).
Proof.
  intros H. unfold Table.initSortableTable, bind, gets. cbv [id].
  destruct (Table.table p), (Table.tbody p), (Table.announcer p);
    simpl; try done.
  by destruct H as [H | [H | H]].
Qed.

(** C1: the form controller checks the form alone before it starts.  On
    a page that holds the form and its fields but no status container
    it registers its listeners all the same; a submit then validates
    the fields, moves focus to the name field, and throws when it
    reaches the status container.  Likewise the dialog controller does
    not check the landmarks: without a [header] element a click on the
    open button shows the overlay and throws, before focus moves and
    before the keydown listener is bound. *)
Theorem required_elements_unchecked :
  Form.elements Form.noStatusPage !! "form-status"%string = None
  /\ Form.listeners Form.startedNoStatus =
       [ {| Form.l_target := "contact-form"; Form.l_type := "submit";
            Form.l_handler := Form.Submit |};
         {| Form.l_target := "name"; Form.l_type := "blur";
            Form.l_handler := Form.Blur "name" |};
         {| Form.l_target := "email"; Form.l_type := "blur";
            Form.l_handler := Form.Blur "email" |};
         {| Form.l_target := "message"; Form.l_type := "blur";
            Form.l_handler := Form.Blur "message" |} ]
  /\ (Form.fire "contact-form" "submit" Form.startedNoStatus).1 = false
  /\ Form.activeElement
       (Form.fire "contact-form" "submit" Form.startedNoStatus).2
     = Some "name"%string
  /\ Form.ariaInvalid
       (Form.fire "contact-form" "submit" Form.startedNoStatus).2 "name"
     = Some "true"%string
  /\ Modal.header Modal.noHeaderPage = None
  /\ length (Modal.listeners Modal.startedNoHeader) = 3%nat
  /\ (Modal.fire (Modal.Elem 3) (Modal.clickOn 3) Modal.startedNoHeader).1
     = false
  /\ (Modal.overlay
        (Modal.fire (Modal.Elem 3) (Modal.clickOn 3) Modal.startedNoHeader).2
      ≫= fun o => Some (Modal.ov_is_open o)) = Some true
  /\ Modal.activeElement
       (Modal.fire (Modal.Elem 3) (Modal.clickOn 3) Modal.startedNoHeader).2
     = None
  /\ Modal.listeners
       (Modal.fire (Modal.Elem 3) (Modal.clickOn 3) Modal.startedNoHeader).2
     = Modal.listeners Modal.startedNoHeader.
Proof. repeat split; vm_compute; reflexivity. Qed.

(** X21: what the guards do check.  A controller that misses an element its
    guard names (one of the overlay, the dialog and the two buttons;
    the form; one of the table, its body and the live region) completes
    without registering anything, and whatever event follows finds no
    listener: the page stays as it is and nothing throws. *)
Theorem guards_decline :
  (forall p,
     Modal.listeners p = [] ->
     Modal.overlay p = None \/ Modal.dialog p = None
     \/ Modal.openBtn p = None \/ Modal.closeBtn p = None ->
     Modal.initModal p = (Normal tt, p)
     /\ forall at_ ev,
          Modal.fire at_ ev p = (true, Modal.set_defaultPrevented false p))
  /\ (forall p,
        Form.listeners p = [] ->
        Form.elements p !! "contact-form"%string = None ->
        Form.initFormValidation p = (Normal tt, p)
        /\ forall at_ ty,
             Form.fire at_ ty p = (true, Form.set_defaultPrevented false p))
  /\ (forall localeCompare p,
        Table.listeners p = [] ->
        Table.table p = false \/ Table.tbody p = None
        \/ Table.announcer p = None ->
        Table.initSortableTable p = (Normal tt, p)
        /\ forall i, Table.click localeCompare i p = (Normal tt, p)).
Proof.
  repeat split.
  - by apply ModalFacts.initModal_declines.
  - intros at_ ev. unfold Modal.fire. by rewrite H.
  - by apply initFormValidation_declines.
  - intros at_ ty. unfold Form.fire. by rewrite H.
  - by apply initSortableTable_declines.
  - intros i. unfold Table.click, bind, gets. cbv [id]. rewrite H.
    rewrite bool_decide_eq_false_2; [done|]. apply not_elem_of_nil.
Qed.

(** The sample pages without, in turn, the close button, the form and
    the live region. *)
Lemma guards_decline_witness :
  (Modal.initModal
     {| Modal.overlay := Modal.overlay Modal.samplePage;
        Modal.dialog := Modal.dialog Modal.samplePage;
        Modal.outer_hidden := false;
        Modal.openBtn := Some 3%nat; Modal.closeBtn := None;
        Modal.header := Some false; Modal.main := Some false;
        Modal.footer := Some false;
        Modal.activeElement := None; Modal.listeners := [];
        Modal.defaultPrevented := false |}).1 = Normal tt
  /\ (Form.initFormValidation
        {| Form.elements := ∅; Form.activeElement := None;
           Form.listeners := []; Form.defaultPrevented := false |}).1
     = Normal tt
  /\ (Table.click Table.codeUnitOrder 0
        {| Table.table := true; Table.tbody := Some Table.sampleRows;
           Table.announcer := None; Table.ths := [];
           Table.sortButtons := [];
           Table.sortState := {| Table.col := 0; Table.dir := Table.asc |};
           Table.timers := []; Table.listeners := [] |}).1
     = Normal tt.
Proof.
  destruct guards_decline as (Hm & Hf & Ht).
  split; [|split].
  - match goal with
    | |- (Modal.initModal ?p).1 = _ => destruct (Hm p) as [E _]
    end; [reflexivity|right; right; right; reflexivity|].
    rewrite E. reflexivity.
  - match goal with
    | |- (Form.initFormValidation ?p).1 = _ => destruct (Hf p) as [E _]
    end; [reflexivity|reflexivity|].
    rewrite E. reflexivity.
  - match goal with
    | |- (Table.click ?lc ?i ?p).1 = _ => destruct (Ht lc p) as [_ E]
    end; [reflexivity|right; right; reflexivity|].
    rewrite E. reflexivity.
Defined.

End InitFacts.
